(** * compressor-head: the Huffman codec of package [huffman]

    A shallow embedding of the Go package [huffman] (frequency model, tree
    builder, code table, bit-packing [Writer], tree-walking [Reader]) and
    of the helper package [bits], followed by the properties of the codec.

    Conventions.  A Go [byte] is a [Z] in [0, 256), a [uint32] a [Z] in
    [0, 2^32), a [uint64] a [Z] in [0, 2^64); every arithmetic operation
    of the source is followed by its wrap-around.  A slice is a [list], a
    [map[byte]T] is a [gmap Z T].  A run-time panic (nil dereference,
    index out of range) is the [None] of an [option]. *)

From Stdlib Require Import ZArith QArith List Lia Permutation ZifyNat.
From stdpp Require Import base option list gmap.

Local Open Scope Z_scope.

(** ** Machine integers *)

Definition byte (z : Z) : Z := z mod 256.
Definition uint32 (z : Z) : Z := z mod 2 ^ 32.
Definition uint64 (z : Z) : Z := z mod 2 ^ 64.

(** [x << s] computed at type [byte]. *)
Definition shl8 (x s : Z) : Z := byte (Z.shiftl x s).

(** The two error values the package can return: [io.EOF], and the
    [errors.New(fmt.Sprintf("probability of '%c'(%d) was not in
    distribution", val, val))] of [Writer.Write], kept as the symbol the
    message names. *)
Inductive error : Type :=
| EOF
| NotInDistribution (val : Z).

(** ** The interfaces [io.Writer] and [io.Reader] *)

(** [Write(p) (n, err)]: the sink consumes [p] and answers a count. *)
Class ioWriter (W : Type) := io_write : W → list Z → W * (Z * option error).

(** [Read(p) (n, err)]: the source receives the buffer [p] and returns it
    with the bytes it stored, and a count. *)
Class ioReader (R : Type) := io_read : R → list Z → R * list Z * (Z * option error).

(** An in-memory sink that behaves as a [bytes.Buffer] or a fresh file:
    it appends all of [p] and reports [len(p)]. *)
Record memSink := MemSink { written : list Z }.

#[export] Instance memSink_Writer : ioWriter memSink :=
  fun w p => (MemSink (written w ++ p), (Z.of_nat (length p), None)).

(** An in-memory source that behaves as a file opened for reading: a
    call with an empty buffer reads nothing; at the end of the data it
    answers [0, io.EOF]; otherwise it fills the front of the buffer with
    as many of the remaining bytes as fit. *)
Record memSource := MemSource { remaining : list Z }.

#[export] Instance memSource_Reader : ioReader memSource :=
  fun r p =>
    match p, remaining r with
    | [], _ => (r, p, (0, None))
    | _, [] => (r, p, (0, Some EOF))
    | _, _ =>
        let data := take (length p) (remaining r) in
        (MemSource (drop (length p) (remaining r)),
         data ++ drop (length data) p,
         (Z.of_nat (length data), None))
    end.

(** ** Package [container/heap] of the Go standard library

    [buildTree] and [toHeap] call [heap.Init], [heap.Push] and [heap.Pop]
    on a [nodeHeap]; they are transcribed here, specialised to the
    [Len], [Less], [Swap], [Push] and [Pop] methods of [nodeHeap]. *)

(** [node]: a value of type [*node].  [nil_node] is the nil pointer,
    [Node l r val cnt] a pointer to the struct with these four fields. *)
Inductive node : Type :=
| nil_node
| Node (l r : node) (val : Z) (cnt : Z).

Definition is_nil (n : node) : bool :=
  match n with nil_node => true | Node _ _ _ _ => false end.

(** Field [cnt]; the heap only ever holds allocated nodes. *)
Definition cnt (n : node) : Z :=
  match n with nil_node => 0 | Node _ _ _ c => c end.

Abbreviation nodeHeap := (list node).

Module Heap.

(** [func (h nodeHeap) Less(i, j int) bool { return h[i].cnt < h[j].cnt }] *)
Definition Less (h : nodeHeap) (i j : nat) : bool :=
  match h !! i, h !! j with
  | Some a, Some b => cnt a <? cnt b
  | _, _ => false
  end.

(** [func (h nodeHeap) Swap(i, j int) { h[i], h[j] = h[j], h[i] }] *)
Definition Swap (h : nodeHeap) (i j : nat) : nodeHeap :=
  match h !! i, h !! j with
  | Some a, Some b => <[i := b]> (<[j := a]> h)
  | _, _ => h
  end.

(** The loop of [down(h, i0, n)]:
    [j1 := 2*i + 1; if j1 >= n { break }; j := j1;
     if j2 := j1 + 1; j2 < n && h.Less(j2, j1) { j = j2 };
     if !h.Less(j, i) { break }; h.Swap(i, j); i = j]. *)
Fixpoint down_loop (fuel : nat) (h : nodeHeap) (i n : nat) : nodeHeap :=
  match fuel with
  | O => h
  | S fuel' =>
      let j1 := (2 * i + 1)%nat in
      if (n <=? j1)%nat then h
      else
        let j2 := (j1 + 1)%nat in
        let j := if (j2 <? n)%nat && Less h j2 j1 then j2 else j1 in
        if negb (Less h j i) then h
        else down_loop fuel' (Swap h i j) j n
  end.

(** [i] grows at every turn and stays below [n]: [n] turns are enough
    (see [down_loop_fuel]). *)
Definition down (h : nodeHeap) (i0 n : nat) : nodeHeap := down_loop n h i0 n.

(** The loop of [up(h, j)]:
    [i := (j - 1) / 2; if i == j || !h.Less(j, i) { break };
     h.Swap(i, j); j = i].  Go's [(0 - 1) / 2] is [0], as is the
    truncated subtraction here. *)
Fixpoint up_loop (fuel : nat) (h : nodeHeap) (j : nat) : nodeHeap :=
  match fuel with
  | O => h
  | S fuel' =>
      let i := ((j - 1) / 2)%nat in
      if (i =? j)%nat || negb (Less h j i) then h
      else up_loop fuel' (Swap h i j) i
  end.

Definition up (h : nodeHeap) (j : nat) : nodeHeap := up_loop (S j) h j.

(** [n := h.Len(); for i := n/2 - 1; i >= 0; i-- { down(h, i, n) }] *)
Definition Init (h : nodeHeap) : nodeHeap :=
  let n := length h in
  foldl (fun h i => down h i n) h (rev (seq 0 (n / 2))).

(** [h.Push(x); up(h, h.Len()-1)], with
    [func (h *nodeHeap) Push(val) { *h = append( *h, item) }]. *)
Definition Push (h : nodeHeap) (x : node) : nodeHeap :=
  let h := h ++ [x] in
  up h (length h - 1).

(** [n := h.Len() - 1; h.Swap(0, n); down(h, 0, n); return h.Pop()],
    with [func (h *nodeHeap) Pop() { item := old[n-1]; *h = old[0 : n-1] }].
    On an empty heap [Swap(0, -1)] panics. *)
Definition Pop (h : nodeHeap) : option (node * nodeHeap) :=
  match length h with
  | O => None
  | S n =>
      let h := Swap h 0 n in
      let h := down h 0 n in
      item ← h !! n;
      Some (item, take n h)
  end.

End Heap.

(** ** Package [huffman] *)

(** [type code struct { path byte; len uint32 }] *)
Record code : Type := Code { path : Z; len : Z }.

(** [type Distribution struct { cnts map[byte]uint64; total uint64 }] *)
Record Distribution : Type := Dist { cnts : gmap Z Z; total : Z }.

(** Go reads a missing key as the zero value. *)
Definition cnt_of (m : gmap Z Z) (b : Z) : Z := default 0 (m !! b).

(** [for _, val := range bs { d.cnts[val]++; d.total++ }] *)
Definition NewDistribution (bs : list Z) : Distribution :=
  foldl (fun d val =>
           Dist (<[val := uint64 (cnt_of (cnts d) val + 1)]> (cnts d))
                (uint64 (total d + 1)))
        (Dist ∅ 0) bs.

(** [range d.cnts] visits every entry of the map once, in an order the
    language leaves open: [order] is an order of visit of [m]. *)
Definition iteration_of (m : gmap Z Z) (order : list (Z * Z)) : Prop :=
  order ≡ₚ map_to_list m.

(** [toHeap]: [nodes = append(nodes, &node{val: val, cnt: cnt})] for the
    entries in the order of visit, then [heap.Init(&nodes)]. *)
Definition toHeap (order : list (Z * Z)) : nodeHeap :=
  Heap.Init (map (fun e => Node nil_node nil_node (fst e) (snd e)) order).

(** The loop of [buildTree]:
    [for len( *h) >= 2 { l, r := heap.Pop(h), heap.Pop(h);
       next := &node{cnt: r.cnt + l.cnt}; next.l, next.r = l, r;
       heap.Push(h, next) }].
    Every turn shortens the heap by one: [len( *h)] turns are enough. *)
Fixpoint buildTree_loop (fuel : nat) (h : nodeHeap) : option nodeHeap :=
  match fuel with
  | O => Some h
  | S fuel' =>
      if (2 <=? length h)%nat then
        '(l, h) ← Heap.Pop h;
        '(r, h) ← Heap.Pop h;
        let next := Node l r 0 (uint64 (cnt r + cnt l)) in
        buildTree_loop fuel' (Heap.Push h next)
      else Some h
  end.

(** [buildTree]: the root stays nil on an empty heap. *)
Definition buildTree (h : nodeHeap) : option node :=
  if (1 <=? length h)%nat then
    h ← buildTree_loop (length h) h;
    '(last, _) ← Heap.Pop h;
    Some last
  else Some nil_node.

(** [expandPaths(path, depth, curr, mapping)]; the map it fills in place
    is threaded through. *)
Fixpoint expandPaths (path depth : Z) (curr : node) (mapping : gmap Z code)
  : gmap Z code :=
  match curr with
  | nil_node => mapping
  | Node l r val _ =>
      if is_nil l && is_nil r then <[val := Code path depth]> mapping
      else
        let leftPath := path in
        let rightPath :=
          if depth =? 0 then byte (path + 1)
          else byte (path + shl8 2 (uint32 (depth - 1))) in
        let mapping := expandPaths leftPath (uint32 (depth + 1)) l mapping in
        expandPaths rightPath (uint32 (depth + 1)) r mapping
  end.

Definition getMapping (root : node) : gmap Z code := expandPaths 0 0 root ∅.

(** [type Writer struct { io.Writer; root *node; mapping map[byte]code;
    wroteHeader bool }] *)
Record Writer (W : Type) : Type :=
  MkWriter { w_sink : W; w_root : node; w_mapping : gmap Z code; wroteHeader : bool }.
Arguments MkWriter {W}.
Arguments w_sink {W}.
Arguments w_root {W}.
Arguments w_mapping {W}.
Arguments wroteHeader {W}.

(** [NewWriter]: [h.root = d.toHeap().buildTree(); h.mapping = getMapping(h.root)]. *)
Definition NewWriter {W} (w : W) (order : list (Z * Z)) : option (Writer W) :=
  root ← buildTree (toHeap order);
  Some (MkWriter w root (getMapping root) false).

(** State of the packing loop of [Writer.Write]:
    [encoded], [curr], [left] and the flag [wrote] of the current symbol. *)
Record packer : Type :=
  Packer { encoded : list Z; curr : Z; left : Z; wrote : bool }.

(** One turn of the bit loop, on the bit [p % 2]:
    [if left == 8 { curr += p % 2 } else { curr += (p % 2) * (2 << byte(8-left-1)) };
     if left == 1 { left = 8; wrote = true; encoded = append(encoded, curr); curr = 0 }
     else { left-- }]. *)
Definition put_bit (st : packer) (p : Z) : packer :=
  let curr :=
    if left st =? 8 then byte (curr st + p mod 2)
    else byte (curr st + byte ((p mod 2) * shl8 2 (byte (8 - left st - 1)))) in
  if left st =? 1 then Packer (encoded st ++ [curr]) 0 8 true
  else Packer (encoded st) curr (left st - 1) (wrote st).

(** [for read, p := uint32(0), c.path; read < c.len; p, read = p/2, read+1]:
    [n] turns for [n = c.len]. *)
Fixpoint put_code (n : nat) (p : Z) (st : packer) : packer :=
  match n with
  | O => st
  | S n' => put_code n' (p / 2) (put_bit st p)
  end.

(** The loop [for i, val := range p] of [Writer.Write]; [i == len(p)-1]
    is [rest = []]. *)
Fixpoint write_loop (mapping : gmap Z code) (p : list Z) (st : packer)
  : error + packer :=
  match p with
  | [] => inr st
  | val :: rest =>
      match mapping !! val with
      | None => inl (NotInDistribution val)
      | Some c =>
          let st := put_code (Z.to_nat (len c)) (path c)
                      (Packer (encoded st) (curr st) (left st) false) in
          let st :=
            if bool_decide (rest = []) && negb (wrote st)
            then Packer (encoded st ++ [curr st]) (curr st) (left st) (wrote st)
            else st in
          write_loop mapping rest st
      end
  end.

(** The bytes [Writer.Write] hands to the sink, or the error it returns. *)
Definition encode (mapping : gmap Z code) (p : list Z) : error + list Z :=
  match write_loop mapping p (Packer [] 0 8 false) with
  | inl e => inl e
  | inr st => inr (encoded st)
  end.

(** [func (w Writer) Write(p []byte) (n int, err error)]: the sink after
    the call, and the pair returned. *)
Definition Write {W} `{ioWriter W} (w : Writer W) (p : list Z)
  : W * (Z * option error) :=
  match encode (w_mapping w) p with
  | inl e => (w_sink w, (0, Some e))
  | inr enc => io_write (w_sink w) enc
  end.

(** [func (w Writer) Huffman() *node] *)
Definition Huffman {W} (w : Writer W) : node := w_root w.

(** The closure returned by [toBitStream]: its captured [buf] and [left]. *)
Record bitStream : Type := BitStream { bs_buf : list Z; bs_left : Z }.

(** [buf := make([]byte, len(input)); copy(buf, input); var left byte = 8] *)
Definition toBitStream (input : list Z) : bitStream := BitStream input 8.

(** One call of the closure:
    [if len(buf) == 0 { return 0, io.EOF }; left--; next = buf[0] % 2;
     buf[0] /= 2; if left == 0 { left = 8; buf = buf[1:len(buf)] }]. *)
Definition next (s : bitStream) : (Z * option error) * bitStream :=
  match bs_buf s with
  | [] => ((0, Some EOF), s)
  | b :: rest =>
      let left := byte (bs_left s - 1) in
      let nxt := b mod 2 in
      let b := b / 2 in
      if left =? 0 then ((nxt, None), BitStream rest 8)
      else ((nxt, None), BitStream (b :: rest) left)
  end.

(** The answers of [n] calls of the closure, one after the other. *)
Fixpoint answers (n : nat) (s : bitStream) : list (Z * option error) :=
  match n with
  | O => []
  | S n' => let '(answer, s) := next s in answer :: answers n' s
  end.

(** [decode(curr, next)]; reading a field of a nil [curr] panics. *)
Fixpoint decode (curr : node) (s : bitStream)
  : option ((Z * option error) * bitStream) :=
  match curr with
  | nil_node => None
  | Node l r val _ =>
      if is_nil l && is_nil r then Some ((val, None), s)
      else
        let '((dir, err), s) := next s in
        match err with
        | Some e => Some ((0, Some e), s)
        | None => if dir =? 0 then decode l s else decode r s
        end
  end.

(** [type Reader struct { io.Reader; root *node }] *)
Record Reader (R : Type) : Type := NewReader { r_source : R; r_root : node }.
Arguments NewReader {R}.
Arguments r_source {R}.
Arguments r_root {R}.

(** The loop of [Reader.Read]:
    [for err == nil && n < len(p) { p[n], err = decode(r.root, stream); n++ }];
    [k] is [len(p) - n]. *)
Fixpoint read_loop (k : nat) (root : node) (s : bitStream) (p : list Z) (n : nat)
  : option (list Z * (Z * option error)) :=
  match k with
  | O => Some (p, (Z.of_nat n, None))
  | S k' =>
      '((v, err), s) ← decode root s;
      let p := <[n := v]> p in
      let n := S n in
      match err with
      | Some e => Some (p, (Z.of_nat n, Some e))
      | None => read_loop k' root s p n
      end
  end.

(** [func (r Reader) Read(p []byte) (n int, err error)]: the source after
    the call, the contents of [p] after the call, and the pair returned. *)
Definition Read {R} `{ioReader R} (r : Reader R) (p : list Z)
  : option (R * list Z * (Z * option error)) :=
  let buf := replicate (length p) 0 in
  let '(src, buf, (n, err)) := io_read (r_source r) buf in
  match err with
  | Some e => Some (src, p, (n, Some e))
  | None =>
      let stream := toBitStream buf in
      '(p, res) ← read_loop (length p) (r_root r) stream p 0;
      Some (src, p, res)
  end.


(** ** Package [bits]

    [ToStream] copies the caller's slice into a buffer of its own and
    returns a closure over that buffer.  Slices share their backing
    arrays, so the arrays live in a memory and a slice is a view of one. *)

Module Bits.

(** The backing arrays, by address. *)
Abbreviation memory := (gmap nat (list Z)).

(** A [[]byte]: the address of its backing array, where it starts in it,
    and its length. *)
Record slice : Type := Slice { sl_array : nat; sl_off : nat; sl_len : nat }.

(** [s[i]]; an index out of range panics. *)
Definition index (m : memory) (s : slice) (i : nat) : option Z :=
  if (i <? sl_len s)%nat then arr ← m !! sl_array s; arr !! (sl_off s + i)%nat
  else None.

(** [s[i] = v] *)
Definition assign (m : memory) (s : slice) (i : nat) (v : Z) : option memory :=
  if (i <? sl_len s)%nat then
    arr ← m !! sl_array s;
    if (sl_off s + i <? length arr)%nat
    then Some (<[sl_array s := <[(sl_off s + i)%nat := v]> arr]> m)
    else None
  else None.

(** The bytes a slice shows. *)
Definition contents (m : memory) (s : slice) : option (list Z) :=
  arr ← m !! sl_array s;
  if (sl_off s + sl_len s <=? length arr)%nat
  then Some (take (sl_len s) (drop (sl_off s) arr))
  else None.

(** [make([]byte, n)]: a fresh array of zeros. *)
Definition make (n : nat) (m : memory) : slice * memory :=
  let a := fresh (dom m) in
  (Slice a 0 n, <[a := replicate n 0]> m).

(** [copy(dst, src)]: the first [min(len(dst), len(src))] bytes. *)
Definition copy (dst src : slice) (m : memory) : option memory :=
  data ← contents m src;
  arr ← m !! sl_array dst;
  let k := (sl_len dst `min` sl_len src)%nat in
  if (sl_off dst + sl_len dst <=? length arr)%nat
  then Some (<[sl_array dst :=
                 take (sl_off dst) arr ++ take k data ++ drop (sl_off dst + k) arr]> m)
  else None.

(** The variables the closure captures. *)
Record stream : Type := Stream { buf : slice; left : Z }.

(** [buf := make([]byte, len(input)); copy(buf, input); var left byte = 8] *)
Definition ToStream (input : slice) (m : memory) : option (stream * memory) :=
  let '(buf, m) := make (sl_len input) m in
  m ← copy buf input m;
  Some (Stream buf 8, m).

(** One call of the closure:
    [if len(buf) == 0 { return 0, io.EOF }; left--; next = buf[0] % 2;
     buf[0] /= 2; if left == 0 { left = 8; buf = buf[1:len(buf)] }; return]. *)
Definition call (s : stream) (m : memory)
  : option ((Z * option error) * stream * memory) :=
  if (sl_len (buf s) =? 0)%nat then Some ((0, Some EOF), s, m)
  else
    let left := byte (left s - 1) in
    b ← index m (buf s) 0;
    let next := b mod 2 in
    m ← assign m (buf s) 0 (b / 2);
    if left =? 0 then
      let buf := Slice (sl_array (buf s)) (sl_off (buf s) + 1) (sl_len (buf s) - 1) in
      Some ((next, None), Stream buf 8, m)
    else Some ((next, None), Stream (buf s) left, m).

(** What happens after [ToStream] returned: the stream is called, or the
    caller overwrites a byte of the slice it passed ([input[i] = v]; out
    of range the assignment panics and the memory stays as it is). *)
Inductive action : Type :=
| CallStream
| CallerWrites (i : nat) (v : Z).

Definition caller_writes (m : memory) (input : slice) (i : nat) (v : Z) : memory :=
  default m (assign m input i v).

(** The answers of the stream along a run of actions. *)
Fixpoint run (input : slice) (acts : list action) (s : stream) (m : memory)
  : option (list (Z * option error)) :=
  match acts with
  | [] => Some []
  | CallStream :: acts =>
      '(answer, s, m) ← call s m;
      answers ← run input acts s m;
      Some (answer :: answers)
  | CallerWrites i v :: acts => run input acts s (caller_writes m input i v)
  end.

(** How many times a run calls the stream. *)
Fixpoint calls (acts : list action) : nat :=
  match acts with
  | [] => O
  | CallStream :: acts => S (calls acts)
  | CallerWrites _ _ :: acts => calls acts
  end.

(** The [k]-th answer expected of a stream over [bs]: bit [k mod 8] of
    byte [k div 8], then [io.EOF]. *)
Definition expected (bs : list Z) (k : nat) : Z * option error :=
  match bs !! (k / 8)%nat with
  | Some b => ((b / 2 ^ Z.of_nat (k mod 8)) mod 2, None)
  | None => (0, Some EOF)
  end.

(** The state of a stream over [bs] after [k] bits were handed out: its
    buffer is an array of its own, apart from the caller's, that shows
    the bytes from [k div 8] on, the first of them shifted [k mod 8] times. *)
Definition stream_at (bs : list Z) (input : slice) (k : nat)
    (s : stream) (m : memory) : Prop :=
  (k ≤ 8 * length bs)%nat ∧
  sl_array (buf s) ≠ sl_array input ∧
  sl_off (buf s) = (k / 8)%nat ∧
  sl_len (buf s) = (length bs - k / 8)%nat ∧
  left s = 8 - Z.of_nat (k mod 8) ∧
  ∃ arr, m !! sl_array (buf s) = Some arr ∧ length arr = length bs ∧
         ∀ i b, (k / 8 ≤ i)%nat → bs !! i = Some b →
                arr !! i = Some (if decide (i = k / 8)%nat
                                 then b / 2 ^ Z.of_nat (k mod 8) else b).

(** The stream and the memory after [n] calls of the stream. *)
Fixpoint after_calls (n : nat) (s : stream) (m : memory) : option (stream * memory) :=
  match n with
  | O => Some (s, m)
  | S n' => '(_, s, m) ← call s m; after_calls n' s m
  end.

End Bits.

(** [func (d *Distribution) Of(b byte) float64]: the quotient
    [float64(d.cnts[b]) / float64(d.total)], kept as its two operands
    (the division itself is a floating-point one: [0 / 0] is NaN). *)
Record quotient : Type := Quot { numerator : Z; denominator : Z }.

Definition Of (d : Distribution) (b : Z) : quotient :=
  Quot (cnt_of (cnts d) b) (total d).

(** ** Reference notions for the statements *)

(** The [n] lowest bits of [b], the lowest first. *)
Definition byte_bits (n : nat) (b : Z) : list Z :=
  map (fun i => (b / 2 ^ Z.of_nat i) mod 2) (seq 0 n).

(** The bits of a code in the order [Writer.Write] reads them:
    [p % 2], then [p/2 % 2], ... for [len] turns. *)
Definition code_bits (c : code) : list Z :=
  byte_bits (Z.to_nat (len c)) (path c).

(** The bits a stream of [toBitStream] has still to hand out: what is
    left of its first byte, then eight bits of each further byte. *)
Definition stream_bits (s : bitStream) : list Z :=
  match bs_buf s with
  | [] => []
  | b :: rest => byte_bits (Z.to_nat (bs_left s)) b ++ flat_map (byte_bits 8) rest
  end.

(** [left] counts the bits still to come from the first byte. *)
Definition stream_ok (s : bitStream) : Prop := 1 ≤ bs_left s ≤ 8.

(** One walk from a node over a list of bits, as the specification words
    it: bit 0 descends left, another bit descends right, until a leaf.
    The bits can run out before a leaf ([Exhausted]), and a walk can step
    onto a nil child ([Dangling]). *)
Inductive walked : Type :=
| Symbol (val : Z) (rest : list Z)
| Exhausted
| Dangling.

Fixpoint walk (curr : node) (bits : list Z) : walked :=
  match curr with
  | nil_node => Dangling
  | Node l r val _ =>
      if is_nil l && is_nil r then Symbol val bits
      else match bits with
           | [] => Exhausted
           | b :: bits => if b =? 0 then walk l bits else walk r bits
           end
  end.

(** [decodes root bits syms rest]: walking from the root once per symbol
    reads [syms] off [bits] and leaves [rest]. *)
Inductive decodes (root : node) : list Z → list Z → list Z → Prop :=
| decodes_nil bits : decodes root bits [] bits
| decodes_cons bits val mid syms rest :
    walk root bits = Symbol val mid →
    decodes root mid syms rest →
    decodes root bits (val :: syms) rest.

(** The buffer [Reader.Read] decodes from when it asks an in-memory
    source holding [data] for [k] bytes: what the source had, up to [k]
    bytes, then the zeros [make] put there. *)
Definition read_buffer (k : nat) (data : list Z) : list Z :=
  take k data ++ replicate (k - length data) 0.

(** The value of a group of at most eight bits, the first bit lowest. *)
Fixpoint byte_of_bits (bits : list Z) : Z :=
  match bits with
  | [] => 0
  | b :: rest => b + 2 * byte_of_bits rest
  end.

(** The first [n] bytes of the bits, eight bits to a byte. *)
Fixpoint pack_bytes (n : nat) (bits : list Z) : list Z :=
  match n with
  | O => []
  | S n' => byte_of_bits (take 8 bits) :: pack_bytes n' (drop 8 bits)
  end.

(** Packing as the specification words it: the bits in order, eight to a
    byte, least significant first, the last byte padded with zeros. *)
Definition spec_pack (bits : list Z) : list Z :=
  pack_bytes ((length bits + 7) / 8) bits.

(** A symbol is known to a code table when the table has a code for it. *)
Definition known (mapping : gmap Z code) (val : Z) : Prop := is_Some (mapping !! val).

(** The bits of the codes of a symbol sequence, one after the other. *)
Definition message_bits (mapping : gmap Z code) (p : list Z) : list Z :=
  flat_map (fun val => from_option code_bits [] (mapping !! val)) p.

(** An order in which [range] can visit the counts of a sample. *)
Definition visits (bs : list Z) (order : list (Z * Z)) : Prop :=
  iteration_of (cnts (NewDistribution bs)) order.

(** Encoding [msg] with the writer built from [order], then decoding the
    bytes the sink received with a reader on the same tree, asking for
    [len(msg)] symbols: the contents of the output slice. *)
Definition round_trip (order : list (Z * Z)) (msg : list Z) : option (list Z) :=
  w ← NewWriter (MemSink []) order;
  let '(snk, _) := Write w msg in
  '(_, out, _) ← Read (NewReader (MemSource (written snk)) (Huffman w))
                   (replicate (length msg) 0);
  Some out.

(** ** Sample inputs *)

(** "aaaabbc" and "aaaaaaab". *)
Definition sample_abc : list Z := [97; 97; 97; 97; 98; 98; 99].
Definition message_abc : list Z := [97; 97; 97; 97; 97; 97; 97; 98].

(** "aaa": an alphabet of one symbol. *)
Definition sample_aaa : list Z := [97; 97; 97].

(** Ten symbols, symbol [i] occurring [2^i] times. *)
Definition sample_deep : list Z :=
  flat_map (fun i => replicate (2 ^ i)%nat (Z.of_nat i)) (seq 0 10).

(** An order of visit of the counts of [sample_deep], and the tree
    [buildTree] makes of it: a comb with the leaves of 0 and 1 at depth 9. *)
Definition order_deep : list (Z * Z) :=
  Eval vm_compute in map_to_list (cnts (NewDistribution sample_deep)).

Definition tree_deep : node :=
  Eval vm_compute in default nil_node (buildTree (toHeap order_deep)).

(** A code table is a prefix code when the bits of the code of a symbol
    never start the bits of the code of another symbol. *)
Definition prefix_code (mapping : gmap Z code) : Prop :=
  ∀ a b ca cb, a ≠ b → mapping !! a = Some ca → mapping !! b = Some cb →
               ¬ code_bits ca `prefix_of` code_bits cb.

(** Another prefix-free code for "aaaabbc": a = 0, b = 10, c = 11. *)
Definition other_abc (s : Z) : list bool :=
  if s =? 97 then [false] else if s =? 98 then [true; false] else [true; true].

(** The counts of "aaaabbc", in the order of the symbols. *)
Definition order_abc : list (Z * Z) := [(97, 4); (98, 2); (99, 1)].

(** Case analysis on the six orders of three entries. *)
Ltac each_order H :=
  destruct H as [->|[->|[->|[->|[->| ->]]]]].

(** ** Notions for the heap and the trees *)

(** [h[i].cnt] *)
Definition key (h : nodeHeap) (i : nat) : Z := cnt (default nil_node (h !! i)).

(** The parent of position [j] in the array of a binary heap. *)
Definition parent (j : nat) : nat := ((j - 1) / 2)%nat.

(** Among the first [n] positions, every position whose parent is at [i]
    or after it has a key no smaller than its parent's. *)
Definition ordered_from (i n : nat) (h : nodeHeap) : Prop :=
  ∀ j, (0 < j < n)%nat → (i ≤ parent j)%nat → key h (parent j) ≤ key h j.

(** The heap invariant of [container/heap] for [Less] on [cnt]. *)
Definition heap_ok (h : nodeHeap) : Prop := ordered_from 0 (length h) h.

(** The child [down] compares position [i] with: the right one when it
    exists and is smaller than the left one, the left one otherwise. *)
Definition smaller_child (h : nodeHeap) (i n : nat) : nat :=
  if (2 * i + 1 + 1 <? n)%nat && Heap.Less h (2 * i + 1 + 1) (2 * i + 1)
  then (2 * i + 1 + 1)%nat else (2 * i + 1)%nat.

(** ** Notions for the optimality of the code *)

Definition sumZ (l : list Z) : Z := foldr Z.add 0 l.

(** A tree as [buildTree] makes them: a leaf carries a count, an inner
    node has two children and carries the sum of their counts. *)
Inductive well_formed : node → Prop :=
| wf_leaf val c : 0 ≤ c → well_formed (Node nil_node nil_node val c)
| wf_inner l r val c :
    well_formed l → well_formed r → c = cnt l + cnt r →
    well_formed (Node l r val c).

(** The symbols at the leaves, with their counts, left to right. *)
Fixpoint leaves (t : node) : list (Z * Z) :=
  match t with
  | nil_node => []
  | Node l r val c => if is_nil l && is_nil r then [(val, c)] else leaves l ++ leaves r
  end.

Fixpoint height (t : node) : Z :=
  match t with
  | nil_node => 0
  | Node l r _ _ => if is_nil l && is_nil r then 0 else 1 + height l `max` height r
  end.

(** The sum over the leaves of count times depth, for a tree whose root
    hangs at depth [d]. *)
Fixpoint wdepth (d : Z) (t : node) : Z :=
  match t with
  | nil_node => 0
  | Node l r _ c => if is_nil l && is_nil r then c * d else wdepth (d + 1) l + wdepth (d + 1) r
  end.

Definition total_cnt (h : list node) : Z := sumZ (map cnt h).

(** The cost of hanging each tree of a forest at a depth. *)
Definition fcost (asg : list (node * nat)) : Z :=
  sumZ (map (fun e => wdepth (Z.of_nat (snd e)) (fst e)) asg).

(** Weights times lengths, position by position. *)
Fixpoint wcost (ws : list Z) (ls : list nat) : Z :=
  match ws, ls with
  | w :: ws, l :: ls => w * Z.of_nat l + wcost ws ls
  | _, _ => 0
  end.

(** Kraft's sum of code lengths, scaled by [2^L]. *)
Definition ksum (L : nat) (ls : list nat) : Z :=
  sumZ (map (fun l => 2 ^ Z.of_nat (L - l)) ls).

(** Kraft's inequality: the sum of [2^-l] over the lengths is at most 1. *)
Definition kraft (ls : list nat) : Prop :=
  ∃ L, Forall (fun l => (l ≤ L)%nat) ls ∧ ksum L ls ≤ 2 ^ Z.of_nat L.

(** No code of the list starts another one. *)
Fixpoint prefix_free (cs : list (list bool)) : Prop :=
  match cs with
  | [] => True
  | c :: cs =>
      Forall (fun c' => ¬ c `prefix_of` c' ∧ ¬ c' `prefix_of` c) cs ∧ prefix_free cs
  end.

(** The codes that start with [b], without that first bit. *)
Definition tails (b : bool) (cs : list (list bool)) : list (list bool) :=
  omap (fun c => match c with
                 | b' :: t => if Bool.eqb b' b then Some t else None
                 | [] => None
                 end) cs.

(** [len] of the code of a symbol in a table. *)
Definition len_of (mapping : gmap Z code) (val : Z) : Z :=
  from_option len 0 (mapping !! val).

(** The sum over the symbols of count times code length. *)
Definition weighted_length (counts : list (Z * Z)) (length_of : Z → Z) : Z :=
  sumZ (map (fun e => snd e * length_of (fst e)) counts).

(** The leaf [toHeap] makes of an entry of the counts. *)
Definition leaf_of (e : Z * Z) : node := Node nil_node nil_node (fst e) (snd e).

(** The exact value of the quotient [Of] forms (for the empty sample,
    whose total is zero, the value is set to zero). *)
Definition probability (d : Distribution) (b : Z) : Q :=
  Qmake (cnt_of (cnts d) b) (Z.to_pos (total d)).

(** The sum over the symbols of probability times code length. *)
Definition average_length (d : Distribution) (symbols : list Z)
    (length_of : Z → Z) : Q :=
  foldr Qplus 0%Q
        (map (fun s => (probability d s * inject_Z (length_of s))%Q) symbols).

(** The path from a node to each leaf below it: 0 for a step to the
    left, 1 for a step to the right. *)
Fixpoint codes_below (t : node) : list (Z * list Z) :=
  match t with
  | nil_node => []
  | Node l r val _ =>
      if is_nil l && is_nil r then [(val, [])]
      else map (fun e => (fst e, 0 :: snd e)) (codes_below l)
           ++ map (fun e => (fst e, 1 :: snd e)) (codes_below r)
  end.

(** ** Notions for the packing loop *)

(** The state of the packing loop of [Writer.Write] after it has placed
    the bits [bits]: the sealed bytes, the byte being filled, and the
    room left in it. *)
Definition packed (bits : list Z) (st : packer) : Prop :=
  Forall (fun b => 0 ≤ b ≤ 1) bits ∧
  encoded st = pack_bytes (length bits / 8) bits ∧
  curr st = byte_of_bits (drop (8 * (length bits / 8)) bits) ∧
  left st = 8 - Z.of_nat (length bits mod 8).

(** The number of bits of the code of the last symbol of a message. *)
Definition last_code_length (mapping : gmap Z code) (p : list Z) : nat :=
  from_option (fun val => length (from_option code_bits [] (mapping !! val))) 0%nat
              (last p).

(** ** A reference run of [buildTree] without ties *)

(** The counts grow strictly along the list. *)
Fixpoint strictly_sorted (l : list node) : bool :=
  match l with
  | a :: (b :: _) as tl => (cnt a <? cnt b) && strictly_sorted tl
  | _ => true
  end.

Fixpoint insert_by_cnt (x : node) (l : list node) : list node :=
  match l with
  | [] => [x]
  | y :: l' => if cnt x <? cnt y then x :: l else y :: insert_by_cnt x l'
  end.

(** The merges of [buildTree] on a list kept sorted by count; [None] as
    soon as two counts are equal, when the heap is free to pop either. *)
Fixpoint merge_sorted (fuel : nat) (l : list node) : option node :=
  match l with
  | [] => None
  | [t] => Some t
  | a :: b :: rest =>
      match fuel with
      | O => None
      | S fuel' =>
          if strictly_sorted l
          then merge_sorted fuel' (insert_by_cnt (Node a b 0 (uint64 (cnt b + cnt a))) rest)
          else None
      end
  end.

(** The leaves of [sample_deep], lightest first. *)
Definition leaves_deep : list node :=
  map (fun i => Node nil_node nil_node (Z.of_nat i) (2 ^ Z.of_nat i)) (seq 0 10).

(** ** Further functions of package [huffman] *)

(** The loop of [code.String]:
    [for n, left := c.path, c.len; left > 0; n, left = n/2, left-1
       { buf = append(buf, '0'+(n%2)) }]; ['0'] is the byte 48. *)
Fixpoint String_loop (left : nat) (n : Z) (buf : list Z) : list Z :=
  match left with
  | O => buf
  | S left' => String_loop left' (n / 2) (buf ++ [byte (48 + n mod 2)])
  end.

(** [func (c code) String() string]: the bytes of the string returned. *)
Definition code_String (c : code) : list Z :=
  String_loop (Z.to_nat (len c)) (path c) [].

(** [func (d *Distribution) String() string]:
    [for val, cnt := range d.cnts { prob := float64(cnt) / float64(d.total);
       v := fmt.Sprintf("%d(%c):%.3f, ", val, val, prob); buf = append(buf, v...) };
     return "dist[" + string(buf[:len(buf)-2]) + "]"].
    [entry val cnt total] stands for the bytes [fmt.Sprintf] makes of
    ["%d(%c):%.3f"], a function of [val], [cnt] and [d.total]; the format
    string ends with a comma and a space (44, 32), appended here.
    [buf[:len(buf)-2]] panics when [buf] has fewer than two bytes; "dist["
    is 100, 105, 115, 116, 91 and "]" is 93. *)
Definition Distribution_String (entry : Z → Z → Z → list Z) (d : Distribution)
    (order : list (Z * Z)) : option (list Z) :=
  let buf := flat_map (fun e => entry (fst e) (snd e) (total d) ++ [44; 32]) order in
  if (length buf <? 2)%nat then None
  else Some ([100; 105; 115; 116; 91] ++ take (length buf - 2) buf ++ [93]).

(** ** Notions for the statements on the counts *)

(** The number of times [b] occurs in [bs]. *)
Definition occurrences (b : Z) (bs : list Z) : Z :=
  Z.of_nat (length (filter (eq b) bs)).

(** ** Notions for the shape of the tree *)

(** Every inner node has the child of smaller count on its left. *)
Fixpoint lighter_left (t : node) : Prop :=
  match t with
  | nil_node => True
  | Node l r _ _ =>
      if is_nil l && is_nil r then True
      else cnt l ≤ cnt r ∧ lighter_left l ∧ lighter_left r
  end.

(** ** Notions for the code of the tree *)

(** The path from the root of a tree to the leaf of a symbol, [false]
    for a step to the left and [true] for a step to the right; the
    empty path for a symbol that is at no leaf. *)
Definition path_to (t : node) (s : Z) : list bool :=
  from_option (fun e => map (fun b => negb (b =? 0)) (snd e)) []
              (snd <$> list_find (fun e => fst e = s) (codes_below t)).

(** * Properties *)

(** ** Orders of visit of small maps *)

Lemma perm3_cases {A} (a b c : A) (l : list A) :
  l ≡ₚ [a; b; c] →
  l = [a; b; c] ∨ l = [a; c; b] ∨ l = [b; a; c] ∨
  l = [b; c; a] ∨ l = [c; a; b] ∨ l = [c; b; a].
Proof.
  intros Hp.
  destruct (Permutation_vs_cons_inv Hp) as (l1 & l2 & ->).
  apply (Permutation_app_inv l1 l2 [] [b; c] a) in Hp. simpl in Hp.
  apply Permutation_sym, Permutation_length_2_inv in Hp.
  destruct l1 as [|x [|y [|z l1]]]; simpl in *;
    destruct Hp as [Hp|Hp]; try discriminate;
    repeat match goal with
           | H : _ :: _ = _ :: _ |- _ => injection H as -> H
           | H : [] = _ :: _ |- _ => discriminate H
           | H : _ ++ _ = [] |- _ => apply app_eq_nil in H as [-> ->]
           end; subst; simpl; try tauto;
    try (destruct l1; simpl in *; discriminate).
Qed.

Lemma visits_abc_cases order :
  visits sample_abc order →
  let a := (97, 4) in let b := (98, 2) in let c := (99, 1) in
  order = [a; b; c] ∨ order = [a; c; b] ∨ order = [b; a; c] ∨
  order = [b; c; a] ∨ order = [c; a; b] ∨ order = [c; b; a].
Proof.
  unfold visits, iteration_of. intros Hp. cbv zeta.
  apply perm3_cases. rewrite Hp.
  vm_compute. exact (Permutation_app_comm [(99, 1)] [(97, 4); (98, 2)]).
Qed.

(** ** The frequency model *)

Lemma NewDistribution_snoc bs val :
  NewDistribution (bs ++ [val]) =
  let d := NewDistribution bs in
  Dist (<[val := uint64 (cnt_of (cnts d) val + 1)]> (cnts d)) (uint64 (total d + 1)).
Proof. unfold NewDistribution. by rewrite foldl_app. Qed.

(** C4 (as the code has it): an empty sample gives the distribution with
    no count and total zero, and [NewDistribution] has no failure to
    report. *)
Lemma NewDistribution_empty_total_zero :
  NewDistribution [] = Dist ∅ 0 ∧ total (NewDistribution []) = 0.
Proof. split; reflexivity. Qed.

(** C4, amended: building a distribution never fails; on the empty sample
    it returns the empty count table with total zero, every probability
    [Of] of it is the quotient of zero by zero, its heap is empty and
    [buildTree] leaves the root nil, from which the code table is empty. *)
Theorem NewDistribution_empty_is_a_distribution :
  let d := NewDistribution [] in
  cnts d = ∅ ∧ total d = 0 ∧
  (∀ b, Of d b = Quot 0 0) ∧
  (∀ order, iteration_of (cnts d) order ↔ order = []) ∧
  buildTree (toHeap []) = Some nil_node ∧
  getMapping nil_node = ∅.
Proof.
  cbv zeta. split_and!; try reflexivity.
  intros order. unfold iteration_of. simpl. rewrite map_to_list_empty.
  split; [apply Permutation_nil_r | by intros ->].
Qed.

(** ** [Writer.Write]: unknown symbols *)

Lemma first_unknown mapping (p : list Z) val :
  val ∈ p → mapping !! val = None →
  ∃ pre v post, p = pre ++ v :: post ∧ Forall (known mapping) pre ∧ mapping !! v = None.
Proof.
  induction p as [|x p IH]; intros Hin Hval; [by apply elem_of_nil in Hin|].
  destruct (mapping !! x) as [c|] eqn:Hx.
  - apply elem_of_cons in Hin as [->|Hin]; [congruence|].
    destruct (IH Hin Hval) as (pre & v & post & -> & Hpre & Hv).
    exists (x :: pre), v, post. split_and!; [done| |done].
    constructor; [by exists c | done].
  - by exists [], x, p.
Qed.

Lemma write_loop_unknown mapping pre v post st :
  Forall (known mapping) pre → mapping !! v = None →
  write_loop mapping (pre ++ v :: post) st = inl (NotInDistribution v).
Proof.
  intros Hpre Hv. revert st.
  induction Hpre as [|x pre [c Hx] _ IH]; intros st; simpl.
  - by rewrite Hv.
  - rewrite Hx. apply IH.
Qed.

(** C3: a call of [Write] whose input holds a symbol [val] absent from the
    code table returns [0] and the error naming the first absent symbol
    of the input (which is [val] when no other symbol is absent), however
    many known symbols come before it, and the sink is left as it was:
    nothing is written. *)
Theorem Write_unknown_symbol {W} `{ioWriter W} (w : Writer W) (p : list Z) (val : Z) :
  val ∈ p → w_mapping w !! val = None →
  ∃ pre v post,
    p = pre ++ v :: post ∧ Forall (known (w_mapping w)) pre ∧
    w_mapping w !! v = None ∧
    ((∀ x, x ∈ p → w_mapping w !! x = None → x = val) → v = val) ∧
    Write w p = (w_sink w, (0, Some (NotInDistribution v))).
Proof.
  intros Hin Hval.
  destruct (first_unknown _ _ _ Hin Hval) as (pre & v & post & -> & Hpre & Hv).
  exists pre, v, post. split_and!; try done.
  - intros Honly. apply Honly; [|done].
    apply elem_of_app. right. apply elem_of_cons. by left.
  - unfold Write, encode. by rewrite write_loop_unknown.
Qed.

(** The writer of "aaab" asked to write "aaxb": the call names [x] and
    the sink keeps the bytes it had. *)
Lemma Write_unknown_symbol_witness :
  ∃ pre v post,
    [97; 97; 120; 98] = pre ++ v :: post ∧
    Forall (known (getMapping (Node (Node nil_node nil_node 98 1)
                                       (Node nil_node nil_node 97 3) 0 4))) pre ∧
    getMapping (Node (Node nil_node nil_node 98 1)
                     (Node nil_node nil_node 97 3) 0 4) !! v = None ∧
    ((∀ x, x ∈ [97; 97; 120; 98] →
           getMapping (Node (Node nil_node nil_node 98 1)
                            (Node nil_node nil_node 97 3) 0 4) !! x = None → x = 120) →
     v = 120) ∧
    Write (MkWriter (MemSink [1; 2])
             (Node (Node nil_node nil_node 98 1) (Node nil_node nil_node 97 3) 0 4)
             (getMapping (Node (Node nil_node nil_node 98 1)
                               (Node nil_node nil_node 97 3) 0 4)) false)
          [97; 97; 120; 98]
    = (MemSink [1; 2], (0, Some (NotInDistribution v))).
Proof.
  apply (Write_unknown_symbol
           (MkWriter (MemSink [1; 2])
              (Node (Node nil_node nil_node 98 1) (Node nil_node nil_node 97 3) 0 4)
              (getMapping (Node (Node nil_node nil_node 98 1)
                                (Node nil_node nil_node 97 3) 0 4)) false)
           [97; 97; 120; 98] 120).
  - apply elem_of_cons; right. apply elem_of_cons; right. apply elem_of_cons; by left.
  - vm_compute. reflexivity.
Defined.

(** ** [Writer.Write]: the count returned *)

(** C2 (as the code has it): writing the eight symbols of "aaaaaaab"
    under the table of "aaaabbc" succeeds and returns 1, the number of
    bytes handed to the sink, whatever the order of visit of the counts. *)
Lemma Write_count_is_not_input_length :
  (∀ order, visits sample_abc order →
            ∃ w, NewWriter (MemSink []) order = Some w ∧
                 Write w message_abc = (MemSink [127], (1, None))) ∧
  visits sample_abc order_abc ∧
  1 ≠ Z.of_nat (length message_abc).
Proof.
  split_and!; [| |done].
  - intros order Hv. apply visits_abc_cases in Hv. cbv zeta in Hv.
    each_order Hv; (eexists; split; [vm_compute; reflexivity|]);
      vm_compute; reflexivity.
  - unfold visits, iteration_of. vm_compute.
    exact (Permutation_app_comm [(97, 4); (98, 2)] [(99, 1)]).
Qed.

(** C2, amended: a successful [Write] on an in-memory sink returns the
    number of packed bytes it appended to the sink, which are the bytes
    of [encode]; on any sink it returns what the sink's own [Write]
    returned for those bytes. *)
Theorem Write_returns_encoded_count (w : Writer memSink) (p : list Z)
    (snk : memSink) (n : Z) :
  Write w p = (snk, (n, None)) →
  ∃ enc, encode (w_mapping w) p = inr enc ∧
         written snk = written (w_sink w) ++ enc ∧
         n = Z.of_nat (length enc) ∧
         Forall (known (w_mapping w)) p.
Proof.
  unfold Write. destruct (encode (w_mapping w) p) as [e|enc] eqn:Henc; [done|].
  unfold io_write, memSink_Writer. intros [= <- <-].
  exists enc. split_and!; try done.
  apply Forall_forall. intros x Hx.
  destruct (w_mapping w !! x) as [c|] eqn:Hc; [by exists c|].
  destruct (first_unknown _ _ _ Hx Hc) as (pre & v & post & -> & Hpre & Hv).
  unfold encode in Henc. by rewrite write_loop_unknown in Henc.
Qed.

Lemma Write_returns_encoded_count_witness :
  ∃ enc, encode (getMapping (Node (Node nil_node nil_node 98 1)
                                  (Node nil_node nil_node 97 3) 0 4))
                [97; 97; 97; 98] = inr enc ∧
         [7] = [] ++ enc ∧ 1 = Z.of_nat (length enc) ∧
         Forall (known (getMapping (Node (Node nil_node nil_node 98 1)
                                         (Node nil_node nil_node 97 3) 0 4)))
                [97; 97; 97; 98].
Proof.
  apply (Write_returns_encoded_count
           (MkWriter (MemSink [])
              (Node (Node nil_node nil_node 98 1) (Node nil_node nil_node 97 3) 0 4)
              (getMapping (Node (Node nil_node nil_node 98 1)
                                (Node nil_node nil_node 97 3) 0 4)) false)
           [97; 97; 97; 98] (MemSink [7]) 1).
  vm_compute. reflexivity.
Defined.

(** On any sink, the pair returned is the sink's. *)
Lemma Write_returns_sink_answer {W} `{ioWriter W} (w : Writer W) p enc :
  encode (w_mapping w) p = inr enc → Write w p = io_write (w_sink w) enc.
Proof. unfold Write. by intros ->. Qed.

(** ** The lost final byte *)

(** C6 (failing run): for "aaaaaaab" under the table of "aaaabbc" the
    nine code bits are [1111111 01]; packed as specified they fill the
    bytes [127; 1], but [Write] hands the sink [127] alone: the last bit
    of the last code is dropped, whatever the order of visit. *)
Theorem Write_drops_the_partial_byte order :
  visits sample_abc order →
  ∃ w, NewWriter (MemSink []) order = Some w ∧
       message_bits (w_mapping w) message_abc = [1; 1; 1; 1; 1; 1; 1; 0; 1] ∧
       spec_pack (message_bits (w_mapping w) message_abc) = [127; 1] ∧
       Write w message_abc = (MemSink [127], (1, None)).
Proof.
  intros Hv. apply visits_abc_cases in Hv. cbv zeta in Hv.
  each_order Hv; (eexists; split; [vm_compute; reflexivity|]);
    split_and!; vm_compute; reflexivity.
Qed.

Lemma Write_drops_the_partial_byte_witness :
  ∃ w, NewWriter (MemSink []) (map_to_list (cnts (NewDistribution sample_abc))) = Some w ∧
       message_bits (w_mapping w) message_abc = [1; 1; 1; 1; 1; 1; 1; 0; 1] ∧
       spec_pack (message_bits (w_mapping w) message_abc) = [127; 1] ∧
       Write w message_abc = (MemSink [127], (1, None)).
Proof.
  apply (Write_drops_the_partial_byte (map_to_list (cnts (NewDistribution sample_abc)))).
  unfold visits, iteration_of. reflexivity.
Defined.

(** C1 (failing run): with the distribution of "aaaabbc", encoding
    "aaaaaaab" and decoding eight symbols gives "aaaaaaac", whatever the
    order of visit of the counts. *)
Theorem round_trip_changes_last_symbol order :
  visits sample_abc order →
  Forall (fun x => x ∈ sample_abc) message_abc ∧
  round_trip order message_abc = Some [97; 97; 97; 97; 97; 97; 97; 99] ∧
  round_trip order message_abc ≠ Some message_abc.
Proof.
  intros Hv. apply visits_abc_cases in Hv. cbv zeta in Hv.
  split; [|each_order Hv; (split; [vm_compute; reflexivity | vm_compute; discriminate])].
  unfold message_abc, sample_abc. repeat constructor; set_solver.
Qed.

Lemma round_trip_changes_last_symbol_witness :
  Forall (fun x => x ∈ sample_abc) message_abc ∧
  round_trip (map_to_list (cnts (NewDistribution sample_abc))) message_abc
    = Some [97; 97; 97; 97; 97; 97; 97; 99] ∧
  round_trip (map_to_list (cnts (NewDistribution sample_abc))) message_abc
    ≠ Some message_abc.
Proof.
  apply (round_trip_changes_last_symbol (map_to_list (cnts (NewDistribution sample_abc)))).
  unfold visits, iteration_of. reflexivity.
Defined.

(** ** An alphabet of one symbol *)

Lemma uint64_succ n : uint64 (uint64 n + 1) = uint64 (n + 1).
Proof. unfold uint64. by rewrite Zplus_mod_idemp_l. Qed.

Lemma NewDistribution_replicate (n : nat) (v : Z) :
  NewDistribution (replicate (S n) v) =
  Dist {[ v := uint64 (Z.of_nat (S n)) ]} (uint64 (Z.of_nat (S n))).
Proof.
  induction n as [|n IH].
  - reflexivity.
  - replace (replicate (S (S n)) v) with (replicate (S n) v ++ [v])
      by (by rewrite <- replicate_cons_app).
    rewrite NewDistribution_snoc, IH. cbv zeta. simpl cnts. simpl total.
    unfold cnt_of. rewrite lookup_singleton_eq. simpl default.
    rewrite insert_singleton_eq, uint64_succ.
    by replace (Z.of_nat (S n) + 1) with (Z.of_nat (S (S n))) by lia.
Qed.

Lemma constant_sample (bs : list Z) (v : Z) :
  bs ≠ [] → Forall (eq v) bs → ∃ n, bs = replicate (S n) v.
Proof.
  intros Hne Hall. destruct bs as [|x bs]; [done|].
  exists (length bs). apply Forall_cons in Hall as [<- Hall]. simpl. f_equal.
  clear Hne. induction Hall as [|y bs <- _ IH]; simpl; [done|by f_equal].
Qed.

Lemma visits_constant_sample n v order :
  visits (replicate (S n) v) order → order = [(v, uint64 (Z.of_nat (S n)))].
Proof.
  unfold visits, iteration_of. rewrite NewDistribution_replicate. simpl cnts.
  rewrite map_to_list_singleton. apply Permutation_singleton_r.
Qed.

Lemma write_loop_zero_length mapping v (m : nat) enc :
  mapping !! v = Some (Code 0 0) →
  write_loop mapping (replicate (S m) v) (Packer enc 0 8 false)
  = inr (Packer (enc ++ [0]) 0 8 false).
Proof.
  intros Hv. induction m as [|m IH].
  - simpl. by rewrite Hv.
  - change (replicate (S (S m)) v) with (v :: replicate (S m) v).
    cbn [write_loop]. rewrite Hv. exact IH.
Qed.

Lemma read_loop_leaf (k : nat) v c s (p : list Z) (n : nat) :
  length p = (n + k)%nat →
  read_loop k (Node nil_node nil_node v c) s p n
  = Some (take n p ++ replicate k v, (Z.of_nat (n + k), None)).
Proof.
  revert p n. induction k as [|k IH]; intros p n Hlen; simpl.
  - rewrite Nat.add_0_r in *. rewrite app_nil_r, take_ge by lia. done.
  - rewrite IH by (rewrite length_insert; lia).
    replace (S n + k)%nat with (n + S k)%nat by lia. do 2 f_equal.
    rewrite take_S_r with (x := v) by (apply list_lookup_insert_eq; lia).
    rewrite take_insert_ge by lia. by rewrite <- app_assoc.
Qed.

Lemma Read_leaf v c (m : nat) :
  Read (NewReader (MemSource [0]) (Node nil_node nil_node v c)) (replicate (S m) 0)
  = Some (MemSource [], replicate (S m) v, (Z.of_nat (S m), None)).
Proof.
  unfold Read. rewrite length_replicate.
  change (replicate (S m) 0) with (0 :: replicate m 0) at 1.
  unfold io_read, memSource_Reader. cbn [r_source r_root remaining].
  cbv zeta. rewrite read_loop_leaf by (by rewrite length_replicate).
  cbn [mbind option_bind take app length drop Nat.add]. by rewrite drop_nil.
Qed.

(** C5 (as the code has it): the only symbol of "aaa" gets the code of
    length zero. *)
Lemma single_symbol_code_length_is_zero :
  visits sample_aaa [(97, 3)] ∧
  ∃ root, buildTree (toHeap [(97, 3)]) = Some root ∧
          getMapping root !! 97 = Some (Code 0 0) ∧
          ¬ 1 ≤ len (Code 0 0).
Proof.
  split; [unfold visits, iteration_of; vm_compute; reflexivity|].
  eexists. split; [vm_compute; reflexivity|]. split; [vm_compute; reflexivity|].
  simpl. lia.
Qed.

(** C5, amended: when the sample is one symbol [v] repeated, the tree is
    the single leaf of [v], the code of [v] has length 0 (path 0); writing
    [m >= 1] copies of [v] hands the sink the single byte 0, and reading
    [m] symbols back from it returns the [m] copies of [v]. *)
Theorem single_symbol_round_trip (bs : list Z) (v : Z) (order : list (Z * Z)) (m : nat) :
  bs ≠ [] → Forall (eq v) bs → visits bs order → (0 < m)%nat →
  ∃ w, NewWriter (MemSink []) order = Some w ∧
       Huffman w = Node nil_node nil_node v (uint64 (Z.of_nat (length bs))) ∧
       w_mapping w = {[ v := Code 0 0 ]} ∧
       Write w (replicate m v) = (MemSink [0], (1, None)) ∧
       round_trip order (replicate m v) = Some (replicate m v).
Proof.
  intros Hne Hall Hv Hm.
  destruct (constant_sample _ _ Hne Hall) as [n ->].
  apply visits_constant_sample in Hv as ->.
  rewrite length_replicate.
  set (c := uint64 (Z.of_nat (S n))).
  assert (Hw : NewWriter (MemSink []) [(v, c)]
               = Some (MkWriter (MemSink []) (Node nil_node nil_node v c)
                         {[ v := Code 0 0 ]} false)) by reflexivity.
  assert (Hwr : Write (MkWriter (MemSink []) (Node nil_node nil_node v c)
                         {[ v := Code 0 0 ]} false) (replicate m v)
                = (MemSink [0], (1, None))).
  { destruct m as [|m]; [lia|]. unfold Write, encode.
    rewrite write_loop_zero_length by apply lookup_singleton_eq. reflexivity. }
  eexists. split; [exact Hw|]. split_and!; try done.
  unfold round_trip. rewrite Hw. cbn [mbind option_bind]. rewrite Hwr.
  destruct m as [|m]; [lia|].
  rewrite length_replicate. cbn [written Huffman w_root].
  by rewrite Read_leaf.
Qed.

Lemma single_symbol_round_trip_witness :
  ∃ w, NewWriter (MemSink []) [(97, 3)] = Some w ∧
       Huffman w = Node nil_node nil_node 97 (uint64 (Z.of_nat (length sample_aaa))) ∧
       w_mapping w = {[ 97 := Code 0 0 ]} ∧
       Write w (replicate 2 97) = (MemSink [0], (1, None)) ∧
       round_trip [(97, 3)] (replicate 2 97) = Some (replicate 2 97).
Proof.
  apply (single_symbol_round_trip sample_aaa 97 [(97, 3)] 2).
  - discriminate.
  - repeat constructor.
  - unfold visits, iteration_of. vm_compute. reflexivity.
  - lia.
Defined.

(** ** The bit stream of [Reader.Read] and the tree walk *)

Lemma byte_bits_S n b : byte_bits (S n) b = b mod 2 :: byte_bits n (b / 2).
Proof.
  unfold byte_bits. simpl. rewrite Z.div_1_r. f_equal.
  rewrite <- seq_shift, map_map. apply map_ext. intros i.
  rewrite Nat2Z.inj_succ, Z.pow_succ_r, Z.div_div by lia. reflexivity.
Qed.

Lemma stream_bits_toBitStream buf :
  stream_bits (toBitStream buf) = flat_map (byte_bits 8) buf.
Proof. by destruct buf. Qed.

(** One call of the closure hands out the first of the remaining bits,
    or [io.EOF] when none remains. *)
Lemma next_spec s :
  stream_ok s →
  match stream_bits s with
  | [] => next s = ((0, Some EOF), s)
  | bit :: bits =>
      ∃ s', next s = ((bit, None), s') ∧ stream_ok s' ∧ stream_bits s' = bits
  end.
Proof.
  destruct s as [[|b rest] lft]; unfold stream_ok, stream_bits, next; simpl; [done|].
  intros Hl. destruct (Z.to_nat lft) as [|n] eqn:Hn; [lia|].
  rewrite byte_bits_S. simpl. unfold byte. rewrite Z.mod_small by lia.
  destruct (lft - 1 =? 0) eqn:H0.
  - apply Z.eqb_eq in H0. assert (n = 0%nat) as -> by lia.
    eexists. split; [reflexivity|]. split; [simpl; lia|]. by destruct rest.
  - apply Z.eqb_neq in H0.
    eexists. split; [reflexivity|]. split; [simpl; lia|]. simpl.
    by replace (Z.to_nat (lft - 1)) with n by lia.
Qed.

(** Call after call, the closure hands out the remaining bits in order,
    then [io.EOF] for ever. *)
Lemma answers_stream_bits n : ∀ s,
  stream_ok s →
  answers n s = map (fun k => match stream_bits s !! k with
                              | Some bit => (bit, None)
                              | None => (0, Some EOF)
                              end) (seq 0 n).
Proof.
  induction n as [|n IH]; intros s Hok; [done|].
  cbn [answers seq map]. rewrite <- seq_shift, map_map.
  pose proof (next_spec s Hok) as Hnext.
  destruct (stream_bits s) as [|bit bits] eqn:Hbits.
  - rewrite Hnext, (IH s Hok), Hbits. f_equal.
  - destruct Hnext as (s' & -> & Hok' & Hbits'). rewrite (IH s' Hok'), Hbits'. done.
Qed.

(** Bit [k] of the bits of a byte sequence is bit [k mod 8] of byte
    [k div 8]. *)
Lemma flat_map_byte_bits_lookup bs : ∀ k,
  flat_map (byte_bits 8) bs !! k
  = (fun b => (b / 2 ^ Z.of_nat (k mod 8)) mod 2) <$> bs !! (k / 8)%nat.
Proof.
  induction bs as [|b bs IH]; intros k; [done|].
  cbn [flat_map]. destruct (decide (k < 8)%nat) as [Hk|Hk].
  - rewrite lookup_app_l by (unfold byte_bits; rewrite length_map, length_seq; lia).
    rewrite Nat.div_small, Nat.mod_small by lia. cbn [lookup list_lookup fmap option_fmap option_map].
    unfold byte_bits. rewrite list_lookup_fmap, lookup_seq_lt by lia. done.
  - rewrite lookup_app_r by (unfold byte_bits; rewrite length_map, length_seq; lia).
    unfold byte_bits at 1. rewrite length_map, length_seq, IH.
    replace (k / 8)%nat with (S ((k - 8) / 8)).
    + replace ((k - 8) mod 8)%nat with (k mod 8)%nat; [done|].
      replace k with ((k - 8) + 1 * 8)%nat at 1 by lia. by rewrite Nat.Div0.mod_add.
    + replace k with ((k - 8) + 1 * 8)%nat at 2 by lia. rewrite Nat.div_add by lia. lia.
Qed.

(** The stream [toBitStream] makes of [bs] answers as [Bits.expected]
    says. *)
Lemma toBitStream_answers bs n :
  answers n (toBitStream bs) = map (Bits.expected bs) (seq 0 n).
Proof.
  rewrite answers_stream_bits by (unfold stream_ok, toBitStream; simpl; lia).
  apply map_ext. intros k. rewrite stream_bits_toBitStream, flat_map_byte_bits_lookup.
  unfold Bits.expected. by destruct (bs !! (k / 8)%nat).
Qed.

(** [decode] walks the tree over the remaining bits of the stream. *)
Lemma decode_walk curr : ∀ s,
  stream_ok s →
  match walk curr (stream_bits s) with
  | Symbol val rest =>
      ∃ s', decode curr s = Some ((val, None), s') ∧ stream_ok s' ∧ stream_bits s' = rest
  | Exhausted =>
      ∃ s', decode curr s = Some ((0, Some EOF), s') ∧ stream_bits s' = []
  | Dangling => decode curr s = None
  end.
Proof.
  induction curr as [|l IHl r IHr val c]; intros s Hok; simpl; [done|].
  destruct (is_nil l && is_nil r); [by exists s|].
  pose proof (next_spec s Hok) as Hnext.
  destruct (stream_bits s) as [|bit bits] eqn:Hbits.
  - rewrite Hnext. by exists s.
  - destruct Hnext as (s' & -> & Hok' & <-).
    destruct (bit =? 0); [apply IHl | apply IHr]; done.
Qed.

Lemma read_loop_decodes root bits syms rest :
  decodes root bits syms rest →
  ∀ k s p n,
    stream_ok s → stream_bits s = bits → length p = (n + k)%nat →
    (length syms = k →
     read_loop k root s p n = Some (take n p ++ syms, (Z.of_nat (n + k), None))) ∧
    ((length syms < k)%nat → walk root rest = Exhausted →
     ∃ out, read_loop k root s p n
            = Some (out, (Z.of_nat (n + length syms + 1), Some EOF)) ∧
            take (n + length syms) out = take n p ++ syms).
Proof.
  induction 1 as [bits|bits val mid syms rest Hw _ IH];
    intros k s p n Hok Hbits Hlen.
  - split.
    + intros <-. simpl in *. rewrite app_nil_r, take_ge by lia.
      by rewrite Nat.add_0_r.
    + intros Hk Hex. destruct k as [|k]; [simpl in Hk; lia|]. simpl.
      pose proof (decode_walk root s Hok) as Hd. rewrite Hbits, Hex in Hd.
      destruct Hd as (s' & -> & _). cbn [mbind option_bind].
      eexists. split; [do 3 f_equal; lia|].
      rewrite Nat.add_0_r, app_nil_r. by rewrite take_insert_ge by lia.
  - pose proof (decode_walk root s Hok) as Hd. rewrite Hbits, Hw in Hd.
    destruct Hd as (s' & Hdec & Hok' & Hbits').
    split.
    + intros <-. cbn [length] in *. simpl. rewrite Hdec. cbn [mbind option_bind].
      destruct (IH (length syms) s' (<[n := val]> p) (S n) Hok' Hbits') as [IH1 _];
        [rewrite length_insert; lia|]. rewrite IH1 by done.
      rewrite take_S_r with (x := val) by (apply list_lookup_insert_eq; lia).
      rewrite take_insert_ge by lia. rewrite <- app_assoc.
      do 4 f_equal. lia.
    + intros Hk Hex. destruct k as [|k]; [simpl in Hk; lia|]. simpl in *.
      rewrite Hdec. cbn [mbind option_bind].
      destruct (IH k s' (<[n := val]> p) (S n) Hok' Hbits') as [_ IH2];
        [rewrite length_insert; lia|].
      destruct IH2 as (out & -> & Hout); [lia|done|].
      eexists. split; [do 4 f_equal; lia|].
      replace (n + S (length syms))%nat with (S n + length syms)%nat by lia.
      rewrite Hout.
      rewrite take_S_r with (x := val) by (apply list_lookup_insert_eq; lia).
      rewrite take_insert_ge by lia. by rewrite <- app_assoc.
Qed.

(** What [Read] gets from an in-memory source that has data. *)
Lemma io_read_memSource data (k : nat) :
  data ≠ [] →
  ∃ n, io_read (MemSource data) (replicate k 0)
       = (MemSource (drop k data), read_buffer k data, (n, None)).
Proof.
  intros Hd. unfold io_read, memSource_Reader, read_buffer. cbn [remaining].
  destruct k as [|k]; [by exists 0; rewrite drop_0|].
  change (replicate (S k) 0) with (0 :: replicate k 0) at 1.
  destruct data as [|d data]; [done|]. cbv zeta.
  change (0 :: replicate k 0) with (replicate (S k) 0).
  eexists. rewrite !length_replicate, drop_replicate, length_take.
  replace (S k - S k `min` length (d :: data))%nat
    with (S k - length (d :: data))%nat by lia.
  reflexivity.
Qed.

(** When the bits hold all the symbols asked for, [Read] returns them. *)
Lemma Read_decodes_all (root : node) (data p syms rest : list Z) :
  data ≠ [] →
  decodes root (flat_map (byte_bits 8) (read_buffer (length p) data)) syms rest →
  length syms = length p →
  Read (NewReader (MemSource data) root) p
  = Some (MemSource (drop (length p) data), syms, (Z.of_nat (length p), None)).
Proof.
  intros Hdata Hdec Hlen. unfold Read. cbn [r_source r_root].
  destruct (io_read_memSource data (length p) Hdata) as [n0 ->].
  rewrite <- stream_bits_toBitStream in Hdec.
  destruct (read_loop_decodes _ _ _ _ Hdec (length p)
              (toBitStream (read_buffer (length p) data)) p 0%nat) as [H1 _];
    [unfold stream_ok, toBitStream; simpl; lia|done|done|].
  by rewrite H1.
Qed.



(** ** The bit stream of package [bits] *)

Module BitsFacts.
Import Bits.

Local Ltac Zify.zify_post_hook ::= Z.to_euclidean_division_equations.

Lemma contents_length m s bs : contents m s = Some bs → length bs = sl_len s.
Proof.
  unfold contents. destruct (m !! sl_array s) as [arr|]; simpl; [|done].
  case_match; [|done]. intros [= <-].
  apply Nat.leb_le in H. rewrite length_take, length_drop. lia.
Qed.

Lemma contents_insert_ne m s a arr :
  a ≠ sl_array s → contents (<[a := arr]> m) s = contents m s.
Proof. intros Hne. unfold contents. by rewrite lookup_insert_ne. Qed.

Lemma contents_allocated m s bs : contents m s = Some bs → sl_array s ∈ dom m.
Proof.
  unfold contents. destruct (m !! sl_array s) as [arr|] eqn:Ha; simpl; [|done].
  intros _. apply elem_of_dom. by exists arr.
Qed.

(** [ToStream] succeeds on every slice and starts the stream at bit 0. *)
Lemma ToStream_start m input bs :
  contents m input = Some bs →
  ∃ s m', ToStream input m = Some (s, m') ∧ stream_at bs input 0 s m'.
Proof.
  intros Hc. pose proof (contents_length _ _ _ Hc) as Hlen.
  pose proof (contents_allocated _ _ _ Hc) as Hdom.
  assert (Hfresh : fresh (dom m) ≠ sl_array input).
  { intros Heq. rewrite <- Heq in Hdom. by apply is_fresh in Hdom. }
  unfold ToStream, make, copy. cbn [sl_array sl_off sl_len].
  rewrite contents_insert_ne by done. rewrite Hc. cbn [mbind option_bind].
  rewrite lookup_insert_eq. cbn [mbind option_bind].
  rewrite length_replicate, Nat.leb_refl, Nat.min_id.
  cbn [mbind option_bind]. eexists _, _. split; [reflexivity|].
  unfold stream_at. cbn [buf left sl_array sl_off sl_len].
  split_and!; try done; try lia.
  eexists. split; [apply lookup_insert_eq|].
    rewrite <- Hlen, firstn_all, drop_ge by (rewrite length_replicate; lia).
    rewrite app_nil_r. split; [done|].
    intros i b _ Hb. rewrite take_0, app_nil_l, Hb. f_equal. case_decide; [|done].
    change (Z.of_nat (0 mod 8)) with 0. by rewrite Z.pow_0_r, Z.div_1_r.
Qed.

(** The caller's writes leave the stream where it is. *)
Lemma stream_at_caller_writes bs input k s m i v :
  stream_at bs input k s m → stream_at bs input k s (caller_writes m input i v).
Proof.
  intros (Hk & Hne & Hoff & Hlen & Hleft & arr & Harr & Hal & Hbits).
  unfold stream_at. split_and!; try done.
  exists arr. split_and!; try done.
  unfold caller_writes, assign.
  case_match; [|done]. destruct (m !! sl_array input) as [a|]; simpl; [|done].
  case_match; [|done]. simpl. by rewrite lookup_insert_ne.
Qed.

(** One call: the next bit of [bs], or [io.EOF] once its [8 * len] bits
    are out. *)
Lemma call_stream_at bs input k s m :
  stream_at bs input k s m →
  ∃ s' m', call s m = Some (expected bs k, s', m') ∧
           stream_at bs input (if decide (k < 8 * length bs)%nat then S k else k) s' m'.
Proof.
  intros (Hk & Hne & Hoff & Hlen & Hleft & arr & Harr & Hal & Hbits).
  unfold call, expected.
  destruct (decide (k < 8 * length bs)%nat) as [Hlt|Hge].
  - assert (Hi : (k / 8 < length bs)%nat) by lia.
    destruct (lookup_lt_is_Some_2 bs (k / 8)%nat Hi) as [b Hb]. rewrite Hb.
    replace (sl_len (buf s) =? 0)%nat with false
      by (symmetry; apply Nat.eqb_neq; lia).
    unfold index, assign.
    replace (0 <? sl_len (buf s))%nat with true
      by (symmetry; apply Nat.ltb_lt; lia).
    rewrite Harr. cbn [mbind option_bind].
    rewrite Hoff, Nat.add_0_r, (Hbits _ _ (Nat.le_refl _) Hb).
    rewrite decide_True by done. cbn [mbind option_bind].
    replace (k / 8 <? length arr)%nat with true
      by (symmetry; apply Nat.ltb_lt; lia).
    cbn [mbind option_bind]. rewrite Hleft. unfold byte.
    destruct (decide (k mod 8 = 7)%nat) as [H7|H7].
    + replace ((8 - Z.of_nat (k mod 8) - 1) mod 256 =? 0) with true
        by (symmetry; apply Z.eqb_eq; rewrite H7; reflexivity).
      eexists _, _. split; [reflexivity|].
      unfold stream_at. cbn [buf left sl_array sl_off sl_len].
      split_and!; try done; try lia.
      exists (<[(k / 8)%nat := b / 2 ^ Z.of_nat (k mod 8) / 2]> arr).
      split; [apply lookup_insert_eq|]. split; [by rewrite length_insert|].
      intros i b' Hle Hb'.
      rewrite list_lookup_insert_ne by lia.
      rewrite (Hbits i b') by (done || lia).
      rewrite decide_False by lia. f_equal. case_decide; [|done].
      replace (S k mod 8)%nat with 0%nat by lia.
      by rewrite Z.pow_0_r, Z.div_1_r.
    + replace ((8 - Z.of_nat (k mod 8) - 1) mod 256 =? 0) with false
        by (symmetry; apply Z.eqb_neq; rewrite Z.mod_small; lia).
      eexists _, _. split; [reflexivity|].
      unfold stream_at. cbn [buf left sl_array sl_off sl_len].
      split_and!; try done; try lia.
      exists (<[(k / 8)%nat := b / 2 ^ Z.of_nat (k mod 8) / 2]> arr).
      split; [apply lookup_insert_eq|]. split; [by rewrite length_insert|].
      intros i b' Hle Hb'.
      replace (S k / 8)%nat with (k / 8)%nat in * by lia.
      destruct (decide (i = k / 8)%nat) as [->|Hik].
      * rewrite list_lookup_insert_eq by lia. f_equal.
        assert (b' = b) as -> by congruence.
        replace (Z.of_nat (S k mod 8)) with (Z.of_nat (k mod 8) + 1) by lia.
        rewrite Z.pow_add_r, Z.pow_1_r by lia.
        rewrite Z.div_div by lia. reflexivity.
      * rewrite list_lookup_insert_ne by lia.
        rewrite (Hbits i b') by (done || lia). by rewrite decide_False.
  - assert (Hi : (length bs ≤ k / 8)%nat) by lia.
    rewrite (lookup_ge_None_2 bs _ Hi).
    replace (sl_len (buf s) =? 0)%nat with true
      by (symmetry; apply Nat.eqb_eq; lia).
    eexists _, _. split; [reflexivity|].
    unfold stream_at. split_and!; try done. by exists arr.
Qed.

Lemma run_stream_at bs input acts : ∀ k s m,
  stream_at bs input k s m →
  run input acts s m = Some (map (expected bs) (seq k (calls acts))).
Proof.
  induction acts as [|[|i v] acts IH]; intros k s m Hat; simpl.
  - done.
  - destruct (call_stream_at _ _ _ _ _ Hat) as (s' & m' & -> & Hat').
    cbn [mbind option_bind].
    destruct (decide (k < 8 * length bs)%nat) as [Hlt|Hge].
    + by rewrite (IH _ _ _ Hat').
    + (* past the end every answer is io.EOF *)
      rewrite (IH _ _ _ Hat'). cbn [mbind option_bind]. do 2 f_equal.
      apply list_eq. intros j. rewrite !list_lookup_fmap.
      destruct (decide (j < calls acts)%nat) as [Hj|Hj].
      * rewrite !lookup_seq_lt by done. simpl. unfold expected.
        destruct Hat as (Hk & _).
        rewrite !lookup_ge_None_2 by lia. done.
      * rewrite !lookup_seq_ge by lia. done.
  - apply IH. by apply stream_at_caller_writes.
Qed.

(** C10: a stream made from a slice showing the bytes [bs] answers, call
    after call, bit [k mod 8] of byte [k div 8] of [bs] for the first
    [8 * len(bs)] calls and [io.EOF] from then on, whatever the caller
    writes into its slice between the calls: the stream reads the copy
    made by [ToStream].  The copy of the function in package [huffman],
    [toBitStream], gives the same answers. *)
Theorem ToStream_yields_the_bits_of_the_copy (m : memory) (input : slice) (bs : list Z) :
  contents m input = Some bs →
  (∃ s m', ToStream input m = Some (s, m') ∧
           ∀ acts, run input acts s m' = Some (map (expected bs) (seq 0 (calls acts)))) ∧
  (∀ n, answers n (toBitStream bs) = map (expected bs) (seq 0 n)).
Proof.
  intros Hc. split; [|apply toBitStream_answers].
  destruct (ToStream_start _ _ _ Hc) as (s & m' & Hts & Hat).
  exists s, m'. split; [done|]. intros acts. by apply run_stream_at.
Qed.

Lemma ToStream_yields_the_bits_of_the_copy_witness :
  (∃ s m', ToStream (Slice 0 0 2) {[ 0%nat := [5; 3] ]} = Some (s, m') ∧
           ∀ acts, run (Slice 0 0 2) acts s m'
                   = Some (map (expected [5; 3]) (seq 0 (calls acts)))) ∧
  (∀ n, answers n (toBitStream [5; 3]) = map (expected [5; 3]) (seq 0 n)).
Proof.
  apply (ToStream_yields_the_bits_of_the_copy {[ 0%nat := [5; 3] ]} (Slice 0 0 2) [5; 3]).
  vm_compute. reflexivity.
Defined.

(** A run on the byte 5: the caller overwrites it with 255 after the
    first bit, and the stream goes on with the bits of 5. *)
Example run_after_caller_write :
  (let '(s, m) := default (Stream (Slice 0 0 0) 8, ∅)
                    (ToStream (Slice 0 0 1) {[ 0%nat := [5] ]}) in
   run (Slice 0 0 1)
       [CallStream; CallerWrites 0 255; CallStream; CallStream; CallStream] s m)
  = Some [(1, None); (0, None); (1, None); (0, None)].
Proof. vm_compute. reflexivity. Qed.

End BitsFacts.

(** ** [container/heap] keeps a minimum at the root *)

Module HeapFacts.
Import Heap.

Local Ltac Zify.zify_post_hook ::= Z.to_euclidean_division_equations.

Lemma Less_key h i j :
  (i < length h)%nat → (j < length h)%nat → Less h i j = (key h i <? key h j).
Proof.
  intros Hi Hj. unfold Less, key.
  destruct (lookup_lt_is_Some_2 h i Hi) as [a ->].
  destruct (lookup_lt_is_Some_2 h j Hj) as [b ->]. reflexivity.
Qed.

Lemma Swap_length h i j : length (Swap h i j) = length h.
Proof.
  unfold Swap. destruct (h !! i), (h !! j); try done.
  by rewrite !length_insert.
Qed.

Lemma Swap_perm h i j : Swap h i j ≡ₚ h.
Proof.
  unfold Swap. destruct (h !! i) as [a|] eqn:Hi; [|done].
  destruct (h !! j) as [b|] eqn:Hj; [|done].
  by apply Permutation_insert_swap.
Qed.

Lemma Swap_lookup_ne h i j k : k ≠ i → k ≠ j → Swap h i j !! k = h !! k.
Proof.
  intros Hi Hj. unfold Swap. destruct (h !! i), (h !! j); try done.
  by rewrite !list_lookup_insert_ne.
Qed.

Lemma Swap_lookup_l h i j :
  (i < length h)%nat → (j < length h)%nat → Swap h i j !! i = h !! j.
Proof.
  intros Hi Hj. unfold Swap.
  destruct (lookup_lt_is_Some_2 h i Hi) as [a Ha].
  destruct (lookup_lt_is_Some_2 h j Hj) as [b Hb]. rewrite Ha, Hb.
  by rewrite list_lookup_insert_eq by (rewrite length_insert; lia).
Qed.

Lemma Swap_lookup_r h i j :
  (i < length h)%nat → (j < length h)%nat → Swap h i j !! j = h !! i.
Proof.
  intros Hi Hj. unfold Swap.
  destruct (lookup_lt_is_Some_2 h i Hi) as [a Ha].
  destruct (lookup_lt_is_Some_2 h j Hj) as [b Hb]. rewrite Ha, Hb.
  destruct (decide (i = j)) as [->|Hne].
  - rewrite list_lookup_insert_eq by (rewrite length_insert; lia). congruence.
  - rewrite list_lookup_insert_ne by done.
    by rewrite list_lookup_insert_eq by lia.
Qed.

Lemma Swap_key h i j k :
  (i < length h)%nat → (j < length h)%nat →
  key (Swap h i j) k =
  if decide (k = i) then key h j else if decide (k = j) then key h i else key h k.
Proof.
  intros Hi Hj. unfold key.
  destruct (decide (k = i)) as [->|Hki]; [by rewrite Swap_lookup_l|].
  destruct (decide (k = j)) as [->|Hkj]; [by rewrite Swap_lookup_r|].
  by rewrite Swap_lookup_ne.
Qed.

(** *** [down] *)

Lemma down_loop_S fuel h cur n :
  down_loop (S fuel) h cur n =
  if (n <=? 2 * cur + 1)%nat then h
  else if negb (Less h (smaller_child h cur n) cur) then h
       else down_loop fuel (Swap h cur (smaller_child h cur n)) (smaller_child h cur n) n.
Proof. reflexivity. Qed.

Lemma smaller_child_range h cur n :
  (2 * cur + 1 < n)%nat →
  (cur < smaller_child h cur n < n)%nat ∧ parent (smaller_child h cur n) = cur.
Proof.
  intros Hn. unfold smaller_child, parent.
  destruct (2 * cur + 1 + 1 <? n)%nat eqn:H2; cbn [andb].
  - apply Nat.ltb_lt in H2. destruct (Less _ _ _); lia.
  - lia.
Qed.

(** The chosen child has the smallest key among the children of [cur]. *)
Lemma smaller_child_min h cur n j :
  (n ≤ length h)%nat → (0 < j < n)%nat → parent j = cur →
  key h (smaller_child h cur n) ≤ key h j.
Proof.
  intros Hlen Hj Hp. unfold smaller_child, parent in *.
  assert (j = 2 * cur + 1 ∨ j = 2 * cur + 1 + 1)%nat as [->| ->] by lia.
  - destruct (2 * cur + 1 + 1 <? n)%nat eqn:H2; cbn [andb]; [|lia].
    apply Nat.ltb_lt in H2. rewrite Less_key by lia.
    destruct (_ <? _) eqn:Hlt; lia.
  - replace (2 * cur + 1 + 1 <? n)%nat with true by (symmetry; apply Nat.ltb_lt; lia).
    cbn [andb]. rewrite Less_key by lia. destruct (_ <? _) eqn:Hlt; lia.
Qed.

Lemma down_loop_length fuel : ∀ h cur n, length (down_loop fuel h cur n) = length h.
Proof.
  induction fuel as [|fuel IH]; intros h cur n; [done|].
  rewrite down_loop_S. repeat case_match; try done. by rewrite IH, Swap_length.
Qed.

Lemma down_loop_perm fuel : ∀ h cur n, down_loop fuel h cur n ≡ₚ h.
Proof.
  induction fuel as [|fuel IH]; intros h cur n; [done|].
  rewrite down_loop_S. repeat case_match; try done. by rewrite IH, Swap_perm.
Qed.

(** [down] leaves the positions from [n] on as they are. *)
Lemma down_loop_lookup_ge fuel : ∀ h cur n k,
  (n ≤ k)%nat → down_loop fuel h cur n !! k = h !! k.
Proof.
  induction fuel as [|fuel IH]; intros h cur n k Hk; [done|].
  rewrite down_loop_S.
  destruct (n <=? 2 * cur + 1)%nat eqn:Hn; [done|].
  apply Nat.leb_gt in Hn. destruct (smaller_child_range h cur n Hn) as [Hj _].
  destruct (negb _); [done|].
  rewrite IH by done. apply Swap_lookup_ne; lia.
Qed.

(** The invariant of the loop of [down(h, i, n)] when it stands at [cur]:
    order holds from [i] on except below [cur], and the children of
    [cur] are no smaller than the parent of [cur]. *)
Lemma down_loop_ordered i n fuel : ∀ h cur,
  (n ≤ length h)%nat → (n - cur ≤ fuel)%nat →
  (∀ j, (0 < j < n)%nat → (i ≤ parent j)%nat → parent j ≠ cur →
        key h (parent j) ≤ key h j) →
  (∀ j, (0 < j < n)%nat → parent j = cur → (i ≤ parent cur)%nat → (0 < cur)%nat →
        key h (parent cur) ≤ key h j) →
  ordered_from i n (down_loop fuel h cur n).
Proof.
  induction fuel as [|fuel IH]; intros h cur Hlen Hfuel Ha Hb.
  - intros j Hj Hi. apply Ha; [done|done|]. unfold parent in *. lia.
  - rewrite down_loop_S.
    destruct (n <=? 2 * cur + 1)%nat eqn:Hn.
    { apply Nat.leb_le in Hn. intros j Hj Hi. apply Ha; [done|done|].
      unfold parent in *. lia. }
    apply Nat.leb_gt in Hn.
    destruct (smaller_child_range h cur n Hn) as [Hc Hpc].
    pose proof (smaller_child_min h cur n) as Hmin.
    set (c := smaller_child h cur n) in *.
    rewrite Less_key by lia.
    destruct (key h c <? key h cur) eqn:Hlt; cbn [negb].
    + (* the child is smaller: swap and go down *)
      apply Z.ltb_lt in Hlt.
      apply IH; [by rewrite Swap_length|lia| |].
      * intros j Hj Hi Hne. rewrite !Swap_key by lia.
        destruct (decide (parent j = cur)) as [Hpj|Hpj].
        -- destruct (decide (j = cur)); [unfold parent in *; lia|].
           destruct (decide (j = c)); [lia|]. by apply Hmin.
        -- destruct (decide (parent j = c)); [done|].
           destruct (decide (j = cur)) as [->|Hjc].
           ++ apply (Hb c); [lia|done|done|unfold parent in *; lia].
           ++ destruct (decide (j = c)) as [->|Hjc']; [congruence|].
              by apply Ha.
      * intros j Hj Hpj Hi Hpos. rewrite !Swap_key by lia. rewrite Hpc.
        destruct (decide (cur = cur)); [|done].
        destruct (decide (j = cur)); [unfold parent in *; lia|].
        destruct (decide (j = c)); [unfold parent in *; lia|].
        rewrite <- Hpj. apply Ha; [done| |].
        -- rewrite Hpj. unfold parent in *. lia.
        -- rewrite Hpj. lia.
    + (* the loop stops: [cur] is no larger than its children *)
      apply Z.ltb_ge in Hlt. intros j Hj Hi.
      destruct (decide (parent j = cur)) as [Hpj|Hpj]; [|by apply Ha].
      rewrite Hpj. etrans; [exact Hlt|]. by apply Hmin.
Qed.

Lemma down_ordered h i n :
  (n ≤ length h)%nat → ordered_from (S i) n h → ordered_from i n (down h i n).
Proof.
  intros Hlen Hord. apply down_loop_ordered; [done|lia| |].
  - intros j Hj Hi Hne. apply Hord; [done|lia].
  - intros j Hj Hpj Hi Hpos. unfold parent in *. lia.
Qed.

(** More fuel does not change the result of [down]: the loop has left
    through one of its [break]s within [n - i] turns. *)
Lemma down_loop_fuel fuel : ∀ h cur n extra,
  (n - cur ≤ fuel)%nat → down_loop (fuel + extra) h cur n = down_loop fuel h cur n.
Proof.
  induction fuel as [|fuel IH]; intros h cur n extra Hfuel.
  - destruct extra as [|extra]; [done|]. simpl Nat.add. rewrite down_loop_S.
    replace (n <=? 2 * cur + 1)%nat with true by (symmetry; apply Nat.leb_le; lia).
    done.
  - simpl Nat.add. rewrite !down_loop_S.
    destruct (n <=? 2 * cur + 1)%nat eqn:Hn; [done|].
    apply Nat.leb_gt in Hn. destruct (smaller_child_range h cur n Hn) as [Hc _].
    destruct (negb _); [done|]. apply IH. lia.
Qed.

(** *** [Init] *)

Lemma heapify_ordered n k : ∀ h,
  (n ≤ length h)%nat → ordered_from k n h →
  ordered_from 0 n (foldl (fun h i => down h i n) h (rev (seq 0 k))).
Proof.
  induction k as [|k IH]; intros h Hlen Hord; [done|].
  rewrite seq_S, rev_app_distr. simpl.
  apply IH; [unfold down; by rewrite down_loop_length|].
  by apply down_ordered.
Qed.

Lemma heapify_perm n ks : ∀ h, foldl (fun h i => down h i n) h ks ≡ₚ h.
Proof.
  induction ks as [|k ks IH]; intros h; simpl; [done|].
  rewrite IH. apply down_loop_perm.
Qed.

Lemma Init_perm h : Init h ≡ₚ h.
Proof. apply heapify_perm. Qed.

Lemma Init_heap_ok h : heap_ok (Init h).
Proof.
  unfold heap_ok. rewrite (Permutation_length (Init_perm h)).
  apply heapify_ordered; [done|].
  intros j Hj Hi. unfold parent in *. lia.
Qed.

(** *** [up] and [Push] *)

Lemma up_loop_S fuel h j :
  up_loop (S fuel) h j =
  if (parent j =? j)%nat || negb (Less h j (parent j)) then h
  else up_loop fuel (Swap h (parent j) j) (parent j).
Proof. reflexivity. Qed.

Lemma up_loop_perm fuel : ∀ h j, up_loop fuel h j ≡ₚ h.
Proof.
  induction fuel as [|fuel IH]; intros h j; [done|].
  rewrite up_loop_S. case_match; [done|]. by rewrite IH, Swap_perm.
Qed.

(** The invariant of the loop of [up(h, j)] when it stands at [cur]:
    order holds except between [cur] and its parent, and the children of
    [cur] are no smaller than the parent of [cur]. *)
Lemma up_loop_ordered fuel : ∀ h cur,
  (cur < length h)%nat → (cur < fuel)%nat →
  (∀ j, (0 < j < length h)%nat → j ≠ cur → key h (parent j) ≤ key h j) →
  (∀ j, (0 < j < length h)%nat → parent j = cur → (0 < cur)%nat →
        key h (parent cur) ≤ key h j) →
  heap_ok (up_loop fuel h cur).
Proof.
  induction fuel as [|fuel IH]; intros h cur Hcur Hfuel Ha Hb; [lia|].
  rewrite up_loop_S.
  destruct (parent cur =? cur)%nat eqn:H0; cbn [orb].
  { apply Nat.eqb_eq in H0. assert (cur = 0)%nat as -> by (unfold parent in *; lia).
    intros j Hj _. apply Ha; lia. }
  apply Nat.eqb_neq in H0.
  assert (Hp : (parent cur < cur)%nat) by (unfold parent in *; lia).
  rewrite Less_key by lia.
  destruct (key h cur <? key h (parent cur)) eqn:Hlt; cbn [negb].
  - apply Z.ltb_lt in Hlt.
    apply IH; [rewrite Swap_length; lia|lia| |]; rewrite Swap_length.
    + intros j Hj Hne. rewrite !Swap_key by lia.
      destruct (decide (parent j = parent cur)) as [Hpj|Hpj].
      * destruct (decide (j = parent cur)); [done|].
        destruct (decide (j = cur)); [lia|].
        specialize (Ha j Hj ltac:(done)). rewrite Hpj in Ha. lia.
      * destruct (decide (j = parent cur)); [done|].
        destruct (decide (parent j = cur)) as [Hpc|Hpc].
        -- destruct (decide (j = cur)); [unfold parent in *; lia|].
           apply Hb; [done|done|lia].
        -- destruct (decide (j = cur)) as [->|]; [done|]. by apply Ha.
    + intros j Hj Hpj Hpos. rewrite !Swap_key by lia.
      destruct (decide (parent (parent cur) = parent cur));
        [unfold parent in *; lia|].
      destruct (decide (parent (parent cur) = cur)); [unfold parent in *; lia|].
      destruct (decide (j = parent cur)); [unfold parent in *; lia|].
      assert (Hpp : key h (parent (parent cur)) ≤ key h (parent cur))
        by (apply Ha; lia).
      destruct (decide (j = cur)); [done|].
      specialize (Ha j Hj ltac:(done)). rewrite Hpj in Ha. lia.
  - apply Z.ltb_ge in Hlt. intros j Hj _.
    destruct (decide (j = cur)) as [->|]; [done|]. by apply Ha.
Qed.

(** More fuel does not change the result of [up] either. *)
Lemma up_loop_fuel fuel : ∀ h cur extra,
  (cur < fuel)%nat → up_loop (fuel + extra) h cur = up_loop fuel h cur.
Proof.
  induction fuel as [|fuel IH]; intros h cur extra Hfuel; [lia|].
  simpl Nat.add. rewrite !up_loop_S.
  destruct (parent cur =? cur)%nat eqn:H0; cbn [orb]; [done|].
  apply Nat.eqb_neq in H0. destruct (negb _); [done|].
  apply IH. unfold parent in *. lia.
Qed.

Lemma key_app_l (h : nodeHeap) x i : (i < length h)%nat → key (h ++ [x]) i = key h i.
Proof. intros Hi. unfold key. by rewrite lookup_app_l. Qed.

Lemma Push_perm h x : Push h x ≡ₚ x :: h.
Proof.
  unfold Push, up. rewrite up_loop_perm. by rewrite Permutation_app_comm.
Qed.

Lemma Push_heap_ok h x : heap_ok h → heap_ok (Push h x).
Proof.
  intros Hok. unfold Push, up. rewrite length_app. simpl length.
  replace (length h + 1 - 1)%nat with (length h) by lia.
  apply up_loop_ordered.
  - rewrite length_app. simpl. lia.
  - lia.
  - rewrite length_app. simpl length. intros j Hj Hne.
    rewrite !key_app_l by (unfold parent; lia). apply Hok; lia.
  - rewrite length_app. simpl length. intros j Hj Hpj _. unfold parent in *. lia.
Qed.

(** *** The root and [Pop] *)

Lemma root_min h : heap_ok h → ∀ j, (j < length h)%nat → key h 0 ≤ key h j.
Proof.
  intros Hok j. induction (lt_wf j) as [j _ IH]. intros Hj.
  destruct (decide (j = 0)%nat) as [->|Hj0]; [done|].
  etrans; [apply (IH (parent j)); unfold parent; lia|].
  apply Hok; lia.
Qed.

Lemma key_take (h : nodeHeap) n i : (i < n)%nat → key (take n h) i = key h i.
Proof. intros Hi. unfold key. by rewrite lookup_take_lt. Qed.

(** [Pop] on a heap that has an element returns one of smallest [cnt]
    and leaves a heap of the others. *)
Lemma Pop_spec h :
  heap_ok h → h ≠ [] →
  ∃ x h', Pop h = Some (x, h') ∧ h ≡ₚ x :: h' ∧ heap_ok h' ∧
          Forall (fun y => cnt x ≤ cnt y) h'.
Proof.
  intros Hok Hne. unfold Pop.
  destruct (length h) as [|n] eqn:Hlen; [by destruct h|].
  destruct (lookup_lt_is_Some_2 h 0%nat ltac:(lia)) as [x Hx].
  set (h1 := Swap h 0 n). set (h2 := down h1 0 n).
  assert (Hl1 : length h1 = S n) by (unfold h1; by rewrite Swap_length).
  assert (Hl2 : length h2 = S n) by (unfold h2, down; by rewrite down_loop_length).
  assert (H2n : h2 !! n = Some x).
  { unfold h2, down. rewrite down_loop_lookup_ge by done.
    unfold h1. rewrite Swap_lookup_r by lia. done. }
  rewrite H2n. cbn [mbind option_bind].
  assert (Hsplit : h2 = take n h2 ++ [x]).
  { rewrite <- (take_drop n h2) at 1. f_equal.
    apply list_eq. intros [|k].
    - rewrite lookup_drop, Nat.add_0_r. done.
    - rewrite lookup_drop. simpl. apply lookup_ge_None_2. lia. }
  assert (Hperm : h ≡ₚ x :: take n h2).
  { rewrite <- (Swap_perm h 0 n). fold h1.
    rewrite <- (down_loop_perm n h1 0 n). fold (down h1 0 n). fold h2.
    rewrite Hsplit at 1. by rewrite Permutation_app_comm. }
  exists x, (take n h2). split; [done|]. split; [done|]. split.
  - unfold heap_ok. rewrite length_take, Hl2, Nat.min_l by lia.
    assert (Hord : ordered_from 0 n h2).
    { apply down_ordered; [lia|]. intros j Hj Hi.
      unfold h1. rewrite !Swap_key by lia.
      destruct (decide (parent j = 0)%nat); [lia|].
      destruct (decide (parent j = n)); [unfold parent in *; lia|].
      destruct (decide (j = 0)%nat); [lia|].
      destruct (decide (j = n)); [lia|]. apply Hok; lia. }
    intros j Hj Hi. rewrite !key_take by (unfold parent; lia). by apply Hord.
  - apply Forall_forall. intros y Hy.
    assert (Hyh : y ∈ h) by (rewrite Hperm; by right).
    apply list_elem_of_lookup in Hyh as [k Hk].
    pose proof (root_min h Hok k (lookup_lt_Some _ _ _ Hk)) as Hmin.
    unfold key in Hmin. by rewrite Hx, Hk in Hmin.
Qed.

End HeapFacts.


(** ** Kraft sums and the exchange step *)

Lemma sumZ_app l k : sumZ (l ++ k) = sumZ l + sumZ k.
Proof. unfold sumZ. induction l as [|x l IH]; simpl; lia. Qed.

Lemma sumZ_perm l k : l ≡ₚ k → sumZ l = sumZ k.
Proof. unfold sumZ. induction 1; simpl; lia. Qed.

Lemma ksum_cons L l ls : ksum L (l :: ls) = 2 ^ Z.of_nat (L - l) + ksum L ls.
Proof. reflexivity. Qed.

Lemma ksum_perm L ls ls' : ls ≡ₚ ls' → ksum L ls = ksum L ls'.
Proof. intros Hp. unfold ksum. apply sumZ_perm. by apply Permutation_map. Qed.

Lemma ksum_nonneg L ls : 0 ≤ ksum L ls.
Proof.
  induction ls as [|l ls IH]; [done|]. rewrite ksum_cons.
  pose proof (Z.pow_pos_nonneg 2 (Z.of_nat (L - l))). lia.
Qed.

Lemma ksum_scale L (d : nat) ls :
  Forall (fun l => (l ≤ L)%nat) ls → ksum (L + d) ls = 2 ^ Z.of_nat d * ksum L ls.
Proof.
  induction 1 as [|l ls Hl _ IH]; [unfold ksum; simpl; lia|].
  rewrite !ksum_cons, IH.
  replace (Z.of_nat (L + d - l)) with (Z.of_nat d + Z.of_nat (L - l)) by lia.
  rewrite Z.pow_add_r by lia. lia.
Qed.

Lemma kraft_bound ls L :
  kraft ls → Forall (fun l => (l ≤ L)%nat) ls → ksum L ls ≤ 2 ^ Z.of_nat L.
Proof.
  intros (L0 & HL0 & Hk) HL.
  pose proof (ksum_scale L0 L ls HL0) as H1.
  pose proof (ksum_scale L L0 ls HL) as H2.
  rewrite (Nat.add_comm L L0) in H2. rewrite H1 in H2.
  pose proof (Z.pow_pos_nonneg 2 (Z.of_nat L) ltac:(lia) ltac:(lia)).
  pose proof (Z.pow_pos_nonneg 2 (Z.of_nat L0) ltac:(lia) ltac:(lia)).
  nia.
Qed.

Lemma kraft_perm ls ls' : ls ≡ₚ ls' → kraft ls → kraft ls'.
Proof.
  intros Hp (L & HL & Hk). exists L. split; [by rewrite <- Hp|].
  by rewrite <- (ksum_perm L _ _ Hp).
Qed.

(** When one length is above all the others, it can come down to the
    next one: the scaled sum is a whole number. *)
Lemma kraft_level la lb ls :
  (lb ≤ la)%nat → Forall (fun l => (l ≤ lb)%nat) ls →
  kraft (la :: lb :: ls) → kraft (lb :: lb :: ls).
Proof.
  intros Hle Hls Hk.
  assert (Hall : Forall (fun l => (l ≤ la)%nat) (la :: lb :: ls)).
  { repeat constructor; [done|]. eapply Forall_impl; [exact Hls|]. simpl. lia. }
  pose proof (kraft_bound _ _ Hk Hall) as Hb.
  rewrite ksum_cons, Nat.sub_diag in Hb.
  assert (Hs : ksum la (lb :: ls) = 2 ^ Z.of_nat (la - lb) * ksum lb (lb :: ls)).
  { replace la with (lb + (la - lb))%nat at 1 by lia.
    apply ksum_scale. by constructor. }
  assert (Hpow : 2 ^ Z.of_nat la = 2 ^ Z.of_nat (la - lb) * 2 ^ Z.of_nat lb).
  { rewrite <- Z.pow_add_r by lia. f_equal. lia. }
  rewrite Hs, Hpow in Hb.
  exists lb. split; [by repeat constructor|].
  rewrite ksum_cons, Nat.sub_diag.
  pose proof (Z.pow_pos_nonneg 2 (Z.of_nat (la - lb)) ltac:(lia) ltac:(lia)).
  change (2 ^ Z.of_nat 0) with 1 in *.
  clear Hs Hpow.
  set (K := ksum lb (lb :: ls)) in *. set (D := 2 ^ Z.of_nat (la - lb)) in *.
  set (P := 2 ^ Z.of_nat lb) in *. clearbody K D P.
  assert (K < P) by nia. lia.
Qed.

(** Two longest codes of the same length merge into one code, one bit
    shorter. *)
Lemma kraft_merge lb ls :
  Forall (fun l => (l ≤ lb)%nat) ls → kraft (lb :: lb :: ls) →
  (1 ≤ lb)%nat ∧ kraft ((lb - 1)%nat :: ls).
Proof.
  intros Hls Hk.
  pose proof (kraft_bound _ lb Hk ltac:(by repeat constructor)) as Hb.
  rewrite !ksum_cons, Nat.sub_diag in Hb. change (2 ^ Z.of_nat 0) with 1 in Hb.
  pose proof (ksum_nonneg lb ls) as Hnn.
  assert (Hpos : (1 ≤ lb)%nat).
  { destruct lb; [|lia]. change (2 ^ Z.of_nat 0) with 1 in Hb. lia. }
  split; [done|]. exists lb. split; [constructor; [lia|done]|].
  rewrite ksum_cons. replace (lb - (lb - 1))%nat with 1%nat by lia.
  change (2 ^ Z.of_nat 1) with 2. lia.
Qed.

(** Giving a lightest item the greatest length does not raise the cost. *)
Lemma lift_max a ws : ∀ ls la,
  length ws = length ls → Forall (fun w => a ≤ w) ws →
  ∃ la' ls', length ls' = length ls ∧ la' :: ls' ≡ₚ la :: ls ∧
             Forall (fun l => (l ≤ la')%nat) ls' ∧
             a * Z.of_nat la' + wcost ws ls' ≤ a * Z.of_nat la + wcost ws ls.
Proof.
  induction ws as [|w ws IH]; intros [|l ls] la Hlen Hws; try discriminate.
  - exists la, []. by split_and!.
  - apply Forall_cons in Hws as [Hw Hws]. injection Hlen as Hlen.
    destruct (IH ls la Hlen Hws) as (la1 & ls1 & Hl1 & Hp1 & Hmax1 & Hc1).
    destruct (decide (l ≤ la1)%nat) as [Hle|Hgt].
    + exists la1, (l :: ls1). split_and!.
      * simpl. by rewrite Hl1.
      * rewrite Permutation_swap, Hp1. apply Permutation_swap.
      * by constructor.
      * simpl. lia.
    + exists l, (la1 :: ls1). split_and!.
      * simpl. by rewrite Hl1.
      * rewrite Hp1. apply Permutation_swap.
      * constructor; [lia|]. eapply Forall_impl; [exact Hmax1|]. simpl. lia.
      * simpl. nia.
Qed.

(** The step of Huffman's algorithm on lengths: two lightest items can be
    given one code, at a cost that drops by their weights. *)
Lemma merge_two a b ws la lb ls :
  0 ≤ a → a ≤ b → Forall (fun w => b ≤ w) ws → length ws = length ls →
  kraft (la :: lb :: ls) →
  ∃ lm ls', length ls' = length ls ∧ kraft (lm :: ls') ∧
            (a + b) * Z.of_nat lm + wcost ws ls' + a + b
            ≤ a * Z.of_nat la + b * Z.of_nat lb + wcost ws ls.
Proof.
  intros Ha Hab Hws Hlen Hk.
  destruct (lift_max a (b :: ws) (lb :: ls) la) as (la1 & ls1 & Hl1 & Hp1 & Hmax1 & Hc1).
  { simpl. by rewrite Hlen. }
  { constructor; [done|]. eapply Forall_impl; [exact Hws|]. simpl. lia. }
  destruct ls1 as [|lb1 ls1]; [discriminate|]. injection Hl1 as Hl1.
  destruct (lift_max b ws ls1 lb1) as (lb2 & ls2 & Hl2 & Hp2 & Hmax2 & Hc2);
    [congruence|done|].
  assert (Hle : (lb2 ≤ la1)%nat).
  { assert (Hin : lb2 ∈ lb1 :: ls1) by (rewrite <- Hp2; by left).
    rewrite Forall_forall in Hmax1. by apply Hmax1. }
  assert (Hk2 : kraft (la1 :: lb2 :: ls2)).
  { apply (kraft_perm (la :: lb :: ls)); [|done]. by rewrite <- Hp1, <- Hp2. }
  apply kraft_level in Hk2; [|done|done].
  apply kraft_merge in Hk2 as [Hpos Hk2]; [|done].
  exists (lb2 - 1)%nat, ls2. split_and!; [congruence|done|].
  simpl in Hc1. nia.
Qed.


(** ** Prefix-free codes satisfy Kraft's inequality *)

Lemma elem_of_tails b c cs : c ∈ tails b cs ↔ b :: c ∈ cs.
Proof.
  unfold tails. rewrite list_elem_of_omap. split.
  - intros ([|b' t] & Hin & Heq); [done|].
    destruct (Bool.eqb b' b) eqn:Hb; [|done].
    apply Bool.eqb_prop in Hb as ->. by injection Heq as ->.
  - intros Hin. exists (b :: c). split; [done|]. by rewrite Bool.eqb_reflx.
Qed.

Lemma tails_cons b b' t cs :
  tails b ((b' :: t) :: cs) = if Bool.eqb b' b then t :: tails b cs else tails b cs.
Proof. unfold tails. simpl. by destruct (Bool.eqb b' b). Qed.

Lemma tails_prefix_free b cs : prefix_free cs → prefix_free (tails b cs).
Proof.
  induction cs as [|c cs IH]; [done|]. intros [Hc Hcs].
  destruct c as [|b' t]; [by apply IH|].
  rewrite tails_cons. destruct (Bool.eqb b' b) eqn:Hb; [|by apply IH].
  apply Bool.eqb_prop in Hb as ->. split; [|by apply IH].
  apply Forall_forall. intros c' Hc'. apply elem_of_tails in Hc'.
  rewrite Forall_forall in Hc. destruct (Hc _ Hc') as [H1 H2].
  split; intros Hp; [apply H1|apply H2]; by apply prefix_cons.
Qed.

Lemma ksum_tails L cs :
  Forall (fun c => c ≠ []) cs → Forall (fun c => (length c ≤ S L)%nat) cs →
  ksum (S L) (map length cs)
  = ksum L (map length (tails false cs)) + ksum L (map length (tails true cs)).
Proof.
  induction cs as [|c cs IH]; intros Hne Hlen; [done|].
  apply Forall_cons in Hne as [Hc Hne]. apply Forall_cons in Hlen as [_ Hlen].
  destruct c as [|b t]; [done|].
  rewrite !tails_cons. cbn [map]. rewrite ksum_cons, (IH Hne Hlen).
  cbn [length]. replace (S L - S (length t))%nat with (L - length t)%nat by lia.
  destruct b; cbn [Bool.eqb map]; rewrite ?ksum_cons; lia.
Qed.

Lemma prefix_free_empty_code cs : prefix_free cs → [] ∈ cs → cs = [[]].
Proof.
  destruct cs as [|c cs]; [by intros _ ?%elem_of_nil|]. intros [Hc _] Hin.
  assert (Hnil : ∀ c' : list bool, [] `prefix_of` c') by (intros c'; by exists c').
  destruct cs as [|c' cs].
  - apply list_elem_of_singleton in Hin. by rewrite Hin.
  - exfalso. apply elem_of_cons in Hin as [<-|Hin].
    + apply Forall_cons in Hc as [[H1 _] _]. by apply H1.
    + rewrite Forall_forall in Hc. destruct (Hc _ Hin) as [_ H2]. by apply H2.
Qed.

Lemma prefix_free_bound L : ∀ cs,
  prefix_free cs → Forall (fun c => (length c ≤ L)%nat) cs →
  ksum L (map length cs) ≤ 2 ^ Z.of_nat L.
Proof.
  induction L as [|L IH]; intros cs Hpf Hlen.
  - destruct cs as [|c cs]; [done|].
    rewrite (prefix_free_empty_code _ Hpf); [done|].
    apply Forall_cons in Hlen as [Hc _]. destruct c; [by left|simpl in Hc; lia].
  - destruct (decide ([] ∈ cs)) as [Hin|Hnin].
    + rewrite (prefix_free_empty_code _ Hpf Hin).
      change (map length [[]]) with [0%nat]. rewrite ksum_cons, Nat.sub_0_r.
      change (ksum (S L) []) with 0. lia.
    + rewrite ksum_tails; [|by apply Forall_forall; intros c Hc ->|done].
      assert (Htl : ∀ b, Forall (fun c => (length c ≤ L)%nat) (tails b cs)).
      { intros b. apply Forall_forall. intros c Hc%elem_of_tails.
        rewrite Forall_forall in Hlen. specialize (Hlen _ Hc). simpl in Hlen. lia. }
      pose proof (IH _ (tails_prefix_free false _ Hpf) (Htl false)).
      pose proof (IH _ (tails_prefix_free true _ Hpf) (Htl true)).
      rewrite Nat2Z.inj_succ, Z.pow_succ_r by lia. lia.
Qed.

Lemma prefix_free_kraft cs : prefix_free cs → kraft (map length cs).
Proof.
  intros Hpf. exists (foldr Nat.max 0%nat (map length cs)).
  assert (Hb : Forall (fun c : list bool =>
                         (length c ≤ foldr Nat.max 0%nat (map length cs))%nat) cs).
  { clear Hpf. induction cs as [|c cs IH]; [done|]. simpl. constructor; [lia|].
    eapply Forall_impl; [exact IH|]. simpl. lia. }
  split; [by rewrite Forall_map|]. by apply prefix_free_bound.
Qed.

(** A code assignment that is prefix-free on distinct symbols gives a
    prefix-free list of codes. *)
Lemma prefix_free_assignment (other : Z → list bool) (syms : list Z) :
  NoDup syms →
  (∀ a b, a ∈ syms → b ∈ syms → a ≠ b → ¬ other a `prefix_of` other b) →
  prefix_free (map other syms).
Proof.
  induction 1 as [|s syms Hs Hnd IH]; intros Hother; [done|]. split.
  - apply Forall_forall. intros c' Hc'. apply list_elem_of_fmap in Hc' as (s' & -> & Hs').
    assert (s ≠ s') by (intros ->; done).
    split; apply Hother; try done; by (left || right).
  - apply IH. intros a b Ha Hb. apply Hother; by right.
Qed.

Import HeapFacts.


(** ** The trees of [buildTree] *)

Lemma well_formed_not_nil t : well_formed t → is_nil t = false.
Proof. by destruct 1. Qed.

Lemma well_formed_cnt_nonneg t : well_formed t → 0 ≤ cnt t.
Proof.
  induction 1 as [val c Hc|l r val c _ IHl _ IHr ->]; simpl; lia.
Qed.

Lemma wdepth_inner l r val c d :
  well_formed l → wdepth d (Node l r val c) = wdepth (d + 1) l + wdepth (d + 1) r.
Proof. intros Hl. simpl. by rewrite (well_formed_not_nil l Hl). Qed.

Lemma leaves_inner l r val c :
  well_formed l → leaves (Node l r val c) = leaves l ++ leaves r.
Proof. intros Hl. simpl. by rewrite (well_formed_not_nil l Hl). Qed.

(** Hanging a tree [d] levels lower costs [d] times its count. *)
Lemma wdepth_shift t : well_formed t → ∀ d, wdepth d t = wdepth 0 t + cnt t * d.
Proof.
  induction 1 as [val c Hc|l r val c Hl IHl Hr IHr ->]; intros d.
  - simpl. lia.
  - rewrite !wdepth_inner by done.
    rewrite (IHl (d + 1)), (IHr (d + 1)), (IHl (0 + 1)), (IHr (0 + 1)). simpl. lia.
Qed.

Lemma total_cnt_perm h h' : h ≡ₚ h' → total_cnt h = total_cnt h'.
Proof. intros Hp. unfold total_cnt. apply sumZ_perm. by apply Permutation_map. Qed.

Lemma total_cnt_cons t h : total_cnt (t :: h) = cnt t + total_cnt h.
Proof. reflexivity. Qed.

Lemma total_cnt_nonneg h : Forall well_formed h → 0 ≤ total_cnt h.
Proof.
  induction 1 as [|t h Ht _ IH]; [done|]. rewrite total_cnt_cons.
  pose proof (well_formed_cnt_nonneg t Ht). lia.
Qed.

Lemma fcost_perm asg asg' : asg ≡ₚ asg' → fcost asg = fcost asg'.
Proof. intros Hp. unfold fcost. apply sumZ_perm. by apply Permutation_map. Qed.

Lemma fcost_cons t l asg : fcost ((t, l) :: asg) = wdepth (Z.of_nat l) t + fcost asg.
Proof. reflexivity. Qed.

(** The cost of a forest hung at depths [ls]: the cost inside the trees,
    and the counts times the depths. *)
Lemma fcost_zip h : ∀ ls,
  Forall well_formed h → length ls = length h →
  fcost (zip h ls) = sumZ (map (wdepth 0) h) + wcost (map cnt h) ls.
Proof.
  induction h as [|t h IH]; intros [|l ls] Hwf Hlen; try discriminate; [done|].
  apply Forall_cons in Hwf as [Ht Hwf]. injection Hlen as Hlen.
  cbn [zip zip_with map]. rewrite fcost_cons, (IH ls Hwf Hlen), (wdepth_shift t Ht).
  simpl. lia.
Qed.

Lemma zip_fst_snd {A B} (l : list (A * B)) : zip (map fst l) (map snd l) = l.
Proof. induction l as [|[a b] l IH]; simpl; [done|]. by f_equal. Qed.

Lemma Pop_singleton t : Heap.Pop [t] = Some (t, []).
Proof. reflexivity. Qed.

(** The loop of [buildTree] ends with one tree, made of the leaves of the
    heap, that costs no more than the forest hung at any depths allowed
    by Kraft's inequality. *)
Lemma buildTree_loop_optimal fuel : ∀ h,
  heap_ok h → Forall well_formed h → total_cnt h < 2 ^ 64 →
  h ≠ [] → (length h ≤ S fuel)%nat →
  ∃ t, buildTree_loop fuel h = Some [t] ∧ well_formed t ∧
       leaves t ≡ₚ h ≫= leaves ∧
       ∀ asg, map fst asg ≡ₚ h → kraft (map snd asg) → wdepth 0 t ≤ fcost asg.
Proof.
  assert (Hone : ∀ fuel t, well_formed t →
    ∃ t', buildTree_loop fuel [t] = Some [t'] ∧ well_formed t' ∧
          leaves t' ≡ₚ [t] ≫= leaves ∧
          ∀ asg, map fst asg ≡ₚ [t] → kraft (map snd asg) → wdepth 0 t' ≤ fcost asg).
  { intros f t Ht. exists t. split_and!; [by destruct f|done| |].
    - simpl. by rewrite app_nil_r.
    - intros asg Hp _. apply Permutation_singleton_r in Hp.
      destruct asg as [|[t' l] [|? ?]]; try discriminate. injection Hp as ->.
      rewrite fcost_cons, (wdepth_shift t Ht (Z.of_nat l)).
      pose proof (well_formed_cnt_nonneg t Ht). unfold fcost. simpl. nia. }
  induction fuel as [|fuel IH]; intros h Hok Hwf Htot Hne Hlen.
  - destruct h as [|t [|? ?]]; [done| |simpl in Hlen; lia].
    apply Hone. by apply Forall_cons in Hwf as [? _].
  - destruct (decide (length h < 2)%nat) as [Hshort|Hlong].
    { destruct h as [|t [|? ?]]; [done| |simpl in Hshort; lia].
      apply Hone. by apply Forall_cons in Hwf as [? _]. }
    cbn [buildTree_loop].
    replace (2 <=? length h)%nat with true by (symmetry; apply Nat.leb_le; lia).
    destruct (Pop_spec h Hok Hne) as (l & h1 & -> & Hp1 & Hok1 & Hmin1).
    cbn [mbind option_bind].
    assert (Hne1 : h1 ≠ []).
    { intros ->. apply Permutation_length in Hp1. simpl in Hp1. lia. }
    destruct (Pop_spec h1 Hok1 Hne1) as (r & h2 & -> & Hp2 & Hok2 & Hmin2).
    cbn [mbind option_bind].
    assert (Hp : h ≡ₚ l :: r :: h2) by (by rewrite Hp1, Hp2).
    rewrite Hp in Hwf. apply Forall_cons in Hwf as [Hl Hwf].
    apply Forall_cons in Hwf as [Hr Hwf2].
    rewrite (total_cnt_perm _ _ Hp), !total_cnt_cons in Htot.
    pose proof (well_formed_cnt_nonneg l Hl) as Hl0.
    pose proof (well_formed_cnt_nonneg r Hr) as Hr0.
    pose proof (total_cnt_nonneg h2 Hwf2) as Hh0.
    assert (Hsum : uint64 (cnt r + cnt l) = cnt l + cnt r).
    { unfold uint64. rewrite Z.mod_small; lia. }
    rewrite Hsum. set (next := Node l r 0 (cnt l + cnt r)).
    assert (Hnext : well_formed next) by (by constructor).
    pose proof (Heap.Push h2 next) as _.
    pose proof (Push_perm h2 next) as Hp3.
    destruct (IH (Heap.Push h2 next)) as (t & -> & Ht & Hleaves & Hopt).
    + by apply Push_heap_ok.
    + rewrite Hp3. by constructor.
    + rewrite (total_cnt_perm _ _ Hp3), total_cnt_cons. simpl. lia.
    + intros Heq. rewrite Heq in Hp3. by apply Permutation_nil_cons in Hp3.
    + rewrite (Permutation_length Hp3). apply Permutation_length in Hp.
      simpl in *. lia.
    + exists t. split_and!; [done|done| |].
      * rewrite Hleaves, Hp3, Hp. cbn [mbind list_bind].
        unfold next. rewrite leaves_inner by done. by rewrite <- app_assoc.
      * intros asg Hasg Hk.
        rewrite Hp in Hasg. symmetry in Hasg.
        apply Permutation_map_inv in Hasg as (asg' & Heq & Hpa).
        destruct asg' as [|[l' la] [|[r' lb] rest]]; try discriminate.
        injection Heq as <- <- Hrest.
        rewrite (fcost_perm _ _ Hpa).
        apply (kraft_perm _ (map snd ((l, la) :: (r, lb) :: rest))) in Hk;
          [|by apply Permutation_map].
        cbn [map snd] in Hk.
        destruct (merge_two (cnt l) (cnt r) (map cnt h2) la lb (map snd rest))
          as (lm & ls' & Hlen' & Hk' & Hcost); [done| | | |done|].
        { rewrite Hp2 in Hmin1. by apply Forall_cons in Hmin1 as [? _]. }
        { rewrite Forall_map. done. }
        { rewrite Hrest, !length_map. done. }
        rewrite length_map in Hlen'.
        assert (Hl2 : length ls' = length h2) by (by rewrite Hlen', Hrest, length_map).
        etrans; [apply (Hopt ((next, lm) :: zip h2 ls'))|].
        -- cbn [map fst]. rewrite fst_zip by lia. by rewrite Hp3.
        -- cbn [map snd]. rewrite snd_zip by lia. done.
        -- rewrite !fcost_cons, fcost_zip by done.
           rewrite <- (zip_fst_snd rest), <- Hrest.
           rewrite fcost_zip by (done || by rewrite Hrest, !length_map).
           unfold next. rewrite wdepth_inner by done.
           rewrite (wdepth_shift l Hl (Z.of_nat lm + 1)),
                   (wdepth_shift r Hr (Z.of_nat lm + 1)),
                   (wdepth_shift l Hl (Z.of_nat la)),
                   (wdepth_shift r Hr (Z.of_nat lb)).
           nia.
Qed.


(** ** The code table and the cost of the tree *)

Lemma weighted_length_app cs1 cs2 f :
  weighted_length (cs1 ++ cs2) f = weighted_length cs1 f + weighted_length cs2 f.
Proof. unfold weighted_length. by rewrite map_app, sumZ_app. Qed.

Lemma weighted_length_perm cs1 cs2 f :
  cs1 ≡ₚ cs2 → weighted_length cs1 f = weighted_length cs2 f.
Proof. intros Hp. unfold weighted_length. apply sumZ_perm. by apply Permutation_map. Qed.

Lemma weighted_length_ext cs f g :
  (∀ e, e ∈ cs → f (fst e) = g (fst e)) → weighted_length cs f = weighted_length cs g.
Proof.
  intros Hfg. unfold weighted_length. f_equal. apply map_ext_in.
  intros e He%list_elem_of_In. by rewrite Hfg.
Qed.

(** [expandPaths] writes only the entries of the leaves it visits. *)
Lemma expandPaths_frame t : ∀ p d m v,
  v ∉ (leaves t).*1 → expandPaths p d t m !! v = m !! v.
Proof.
  induction t as [|l IHl r IHr val c]; intros p d m v Hv; [done|].
  simpl in *. destruct (is_nil l && is_nil r).
  - apply lookup_insert_ne. intros ->. apply Hv. simpl. by left.
  - rewrite fmap_app in Hv. apply not_elem_of_app in Hv as [Hl Hr].
    by rewrite IHr, IHl.
Qed.

Lemma height_nonneg t : 0 ≤ height t.
Proof. induction t as [|l IHl r IHr val c]; simpl; [done|]. destruct (_ && _); lia. Qed.

(** The lengths [expandPaths] records are the depths of the leaves, as
    long as the depth stays within a [uint32]. *)
Lemma expandPaths_cost t :
  well_formed t → ∀ p d m,
  NoDup (leaves t).*1 → 0 ≤ d → d + height t < 2 ^ 32 →
  weighted_length (leaves t) (len_of (expandPaths p d t m)) = wdepth d t.
Proof.
  induction 1 as [val c Hc|l r val c Hl IHl Hr IHr ->]; intros p d m Hnd Hd Hh.
  - unfold weighted_length, len_of. simpl. rewrite lookup_insert_eq. simpl. lia.
  - rewrite leaves_inner, wdepth_inner by done.
    rewrite leaves_inner, fmap_app in Hnd by done.
    apply NoDup_app in Hnd as (Hndl & Hdisj & Hndr).
    cbn [expandPaths height] in *. rewrite (well_formed_not_nil l Hl) in *.
    cbn [andb] in *.
    pose proof (height_nonneg l). pose proof (height_nonneg r).
    assert (Hu : uint32 (d + 1) = d + 1) by (unfold uint32; rewrite Z.mod_small; lia).
    rewrite Hu, weighted_length_app. f_equal.
    + rewrite <- (IHl p (d + 1) m) by (done || lia).
      apply weighted_length_ext. intros e He. unfold len_of.
      rewrite expandPaths_frame; [done|].
      apply Hdisj. apply list_elem_of_fmap. by exists e.
    + apply IHr; (done || lia).
Qed.

Lemma leaves_nonempty t : well_formed t → (0 < length (leaves t))%nat.
Proof.
  induction 1 as [val c Hc|l r val c Hl IHl Hr IHr ->]; [simpl; lia|].
  rewrite leaves_inner, length_app by done. lia.
Qed.

(** A tree is less high than it has leaves. *)
Lemma height_lt_leaves t : well_formed t → height t < Z.of_nat (length (leaves t)).
Proof.
  induction 1 as [val c Hc|l r val c Hl IHl Hr IHr ->]; [simpl; lia|].
  rewrite leaves_inner, length_app by done.
  pose proof (leaves_nonempty l Hl). pose proof (leaves_nonempty r Hr).
  simpl. rewrite (well_formed_not_nil l Hl). simpl. lia.
Qed.

(** ** The counts of a sample *)

Lemma uint64_range z : 0 ≤ uint64 z < 2 ^ 64.
Proof. unfold uint64. apply Z.mod_pos_bound. lia. Qed.

Lemma uint64_succ_le z : 0 ≤ z → uint64 (z + 1) ≤ z + 1.
Proof. intros Hz. unfold uint64. apply Z.mod_le; lia. Qed.

(** The counts are those of symbols of the sample, they are not negative
    and they add up to the length of the sample at most. *)
Lemma NewDistribution_counts bs :
  let m := cnts (NewDistribution bs) in
  (∀ v c, m !! v = Some c → v ∈ bs ∧ 0 ≤ c) ∧
  sumZ ((map_to_list m).*2) ≤ Z.of_nat (length bs).
Proof.
  induction bs as [|b bs [IHk IHs]] using rev_ind; cbv zeta.
  - change (cnts (NewDistribution [])) with (∅ : gmap Z Z).
    split; [by intros v c ?%lookup_empty_Some|]. by rewrite map_to_list_empty.
  - rewrite NewDistribution_snoc. cbv zeta in *. cbn [cnts].
    set (m := cnts (NewDistribution bs)) in *.
    set (c' := uint64 (cnt_of m b + 1)).
    assert (H0 : 0 ≤ cnt_of m b).
    { unfold cnt_of. destruct (m !! b) as [c|] eqn:Hb; simpl; [|done].
      by destruct (IHk _ _ Hb). }
    split.
    + intros v c Hv. apply lookup_insert_Some in Hv as [[<- <-]|[Hne Hv]].
      * split; [apply elem_of_app; right; by left|apply uint64_range].
      * destruct (IHk _ _ Hv) as [Hin Hc]. split; [|done].
        apply elem_of_app. by left.
    + rewrite length_app. simpl length.
      pose proof (uint64_succ_le _ H0) as Hle. fold c' in Hle.
      destruct (m !! b) as [c|] eqn:Hb.
      * rewrite <- insert_delete_eq.
        rewrite (sumZ_perm _ _ (fmap_Permutation snd _ _
                   (map_to_list_insert (delete b m) b c' (lookup_delete_eq m b)))).
        rewrite <- (sumZ_perm _ _ (fmap_Permutation snd _ _
                      (map_to_list_delete m b c Hb))) in IHs.
        rewrite fmap_cons in *. unfold sumZ in *. cbn [foldr snd] in *.
        unfold cnt_of in Hle. rewrite Hb in Hle. cbn [default from_option id] in Hle. unfold id in Hle. lia.
      * rewrite (sumZ_perm _ _ (fmap_Permutation snd _ _
                   (map_to_list_insert m b c' Hb))).
        rewrite fmap_cons. unfold sumZ in *. cbn [foldr snd] in *.
        unfold cnt_of in Hle. rewrite Hb in Hle. cbn [default from_option id] in Hle. unfold id in Hle. lia.
Qed.


(** ** Optimality of the code table *)

Lemma toHeap_leaves order : toHeap order = Heap.Init (map leaf_of order).
Proof. reflexivity. Qed.

Lemma leaves_of_leaves order : map leaf_of order ≫= leaves = order.
Proof.
  induction order as [|[v c] order IH]; [done|].
  cbn [map mbind list_bind]. simpl. by rewrite IH.
Qed.

Lemma total_cnt_leaves order : total_cnt (map leaf_of order) = sumZ order.*2.
Proof. unfold total_cnt. by rewrite map_map. Qed.

Lemma fcost_leaves order (f : Z → nat) :
  fcost (map (fun e => (leaf_of e, f (fst e))) order)
  = weighted_length order (fun s => Z.of_nat (f s)).
Proof. unfold fcost, weighted_length. by rewrite map_map. Qed.

(** At most 256 distinct bytes. *)
Lemma distinct_bytes (l : list Z) :
  NoDup l → Forall (fun b => 0 ≤ b < 256) l → (length l ≤ 256)%nat.
Proof.
  intros Hnd Hb.
  assert (Hsub : l ⊆+ (Z.of_nat <$> seq 0 256)).
  { apply NoDup_submseteq; [done|]. intros x Hx.
    rewrite Forall_forall in Hb. specialize (Hb x Hx).
    apply list_elem_of_fmap. exists (Z.to_nat x). split; [lia|].
    apply elem_of_seq. lia. }
  apply submseteq_length in Hsub. by rewrite length_fmap, length_seq in Hsub.
Qed.

(** What an order of visit of the counts of a sample is made of. *)
Lemma visits_entries bs order :
  visits bs order →
  NoDup order.*1 ∧ Forall (fun e => fst e ∈ bs ∧ 0 ≤ snd e) order ∧
  sumZ order.*2 ≤ Z.of_nat (length bs).
Proof.
  unfold visits, iteration_of. intros Hp.
  destruct (NewDistribution_counts bs) as [Hk Hs]. cbv zeta in *.
  split_and!.
  - rewrite Hp. apply NoDup_fst_map_to_list.
  - rewrite Hp. apply Forall_forall. intros [v c] He%elem_of_map_to_list.
    by apply Hk.
  - by rewrite (sumZ_perm _ _ (fmap_Permutation snd _ _ Hp)).
Qed.

(** [buildTree] on the heap of a sample returns a tree over the counts,
    whose cost is the least Kraft's inequality allows. *)
Lemma buildTree_of_counts bs order :
  Z.of_nat (length bs) < 2 ^ 64 → visits bs order → order ≠ [] →
  ∃ t, buildTree (toHeap order) = Some t ∧ well_formed t ∧ leaves t ≡ₚ order ∧
       ∀ asg, map fst asg ≡ₚ map leaf_of order → kraft (map snd asg) →
              wdepth 0 t ≤ fcost asg.
Proof.
  intros Hlen Hv Hne. destruct (visits_entries _ _ Hv) as (Hnd & Hent & Hsum).
  rewrite toHeap_leaves. set (h := Heap.Init (map leaf_of order)).
  pose proof (Init_perm (map leaf_of order)) as Hp. fold h in Hp.
  assert (Hwf : Forall well_formed h).
  { rewrite Hp. rewrite Forall_map. eapply Forall_impl; [exact Hent|].
    intros [v c] [_ Hc]. by constructor. }
  assert (Hhne : h ≠ []).
  { intros Hh. rewrite Hh in Hp. symmetry in Hp. apply Permutation_nil_r in Hp.
    by destruct order. }
  destruct (buildTree_loop_optimal (length h) h) as (t & Hloop & Ht & Hleaves & Hopt).
  - apply Init_heap_ok.
  - done.
  - rewrite (total_cnt_perm _ _ Hp), total_cnt_leaves. lia.
  - done.
  - lia.
  - exists t. split_and!; [|done| |].
    + unfold buildTree.
      replace (1 <=? length h)%nat with true
        by (symmetry; apply Nat.leb_le; destruct h; [done|simpl; lia]).
      rewrite Hloop. reflexivity.
    + by rewrite Hleaves, Hp, leaves_of_leaves.
    + intros asg Hasg. apply Hopt. by rewrite Hasg, Hp.
Qed.

(** The average length is the weighted length over the total. *)
Lemma average_length_weighted d (order : list (Z * Z)) f :
  Forall (fun e => cnt_of (cnts d) (fst e) = snd e) order →
  (average_length d order.*1 f
   == Qmake (weighted_length order f) (Z.to_pos (total d)))%Q.
Proof.
  induction 1 as [|[v c] order Hc _ IH]; [reflexivity|].
  cbn [fmap list_fmap map foldr average_length fst] in *.
  unfold average_length in IH. rewrite IH. unfold probability. simpl in Hc.
  rewrite Hc. unfold weighted_length. cbn [map sumZ foldr fst snd].
  unfold Qeq, Qplus, Qmult, inject_Z. simpl Qnum. simpl Qden.
  rewrite Pos.mul_1_r. rewrite !Pos2Z.inj_mul. unfold sumZ. ring.
Qed.

Lemma visits_counts bs order :
  visits bs order →
  Forall (fun e => cnt_of (cnts (NewDistribution bs)) (fst e) = snd e) order.
Proof.
  unfold visits, iteration_of. intros Hp. rewrite Hp.
  apply Forall_forall. intros [v c] He%elem_of_map_to_list.
  unfold cnt_of. cbn [fst snd]. by rewrite He.
Qed.

(** ** Samples without ties: the tree does not depend on the order of visit *)

Lemma strictly_sorted_head a l :
  strictly_sorted (a :: l) = true → Forall (fun y => cnt a < cnt y) l.
Proof.
  revert a. induction l as [|b l IH]; intros a Hs; [done|].
  cbn [strictly_sorted] in Hs. apply andb_true_iff in Hs as [Hab Hs].
  apply Z.ltb_lt in Hab. constructor; [done|].
  eapply Forall_impl; [apply (IH b Hs)|]. simpl. lia.
Qed.

Lemma strictly_sorted_tail a l : strictly_sorted (a :: l) = true → strictly_sorted l = true.
Proof.
  destruct l as [|b l]; [done|]. cbn [strictly_sorted].
  by intros [_ ?]%andb_true_iff.
Qed.

Lemma insert_by_cnt_perm x l : insert_by_cnt x l ≡ₚ x :: l.
Proof.
  induction l as [|y l IH]; [done|]. simpl. destruct (cnt x <? cnt y); [done|].
  by rewrite IH, Permutation_swap.
Qed.

(** [Pop] returns the element of strictly smallest count, when there is one. *)
Lemma Pop_strict_min h a rest :
  heap_ok h → h ≡ₚ a :: rest → Forall (fun y => cnt a < cnt y) rest →
  ∃ h', Heap.Pop h = Some (a, h') ∧ h' ≡ₚ rest ∧ heap_ok h'.
Proof.
  intros Hok Hp Hmin.
  assert (Hne : h ≠ []).
  { intros ->. by apply Permutation_nil_cons in Hp. }
  destruct (Pop_spec h Hok Hne) as (x & h' & Hpop & Hp' & Hok' & Hx).
  assert (Hxa : x = a).
  { assert (Hin : x ∈ a :: rest) by (rewrite <- Hp, Hp'; by left).
    apply elem_of_cons in Hin as [->|Hin]; [done|].
    rewrite Forall_forall in Hmin. specialize (Hmin x Hin).
    assert (Ha : a ∈ x :: h') by (rewrite <- Hp', Hp; by left).
    apply elem_of_cons in Ha as [->|Ha]; [done|].
    rewrite Forall_forall in Hx. specialize (Hx a Ha). lia. }
  subst x. exists h'. split_and!; [done| |done].
  rewrite Hp' in Hp. by apply Permutation_cons_inv in Hp.
Qed.

(** On a heap without ties the loop of [buildTree] makes the merges of
    the reference run, whatever the layout of the heap. *)
Lemma buildTree_loop_merge_sorted fuel : ∀ h l t,
  heap_ok h → h ≡ₚ l → merge_sorted fuel l = Some t →
  buildTree_loop fuel h = Some [t].
Proof.
  induction fuel as [|fuel IH]; intros h l t Hok Hp Hm.
  - destruct l as [|a [|b rest]]; try discriminate.
    injection Hm as ->. by apply Permutation_singleton_r in Hp as ->.
  - destruct l as [|a [|b rest]]; [discriminate| |].
    { injection Hm as ->. by apply Permutation_singleton_r in Hp as ->. }
    cbn [merge_sorted] in Hm.
    destruct (strictly_sorted (a :: b :: rest)) eqn:Hs; [|discriminate].
    cbn [buildTree_loop].
    replace (2 <=? length h)%nat with true
      by (symmetry; apply Nat.leb_le; rewrite (Permutation_length Hp); simpl; lia).
    destruct (Pop_strict_min h a (b :: rest) Hok Hp (strictly_sorted_head _ _ Hs))
      as (h1 & -> & Hp1 & Hok1).
    cbn [mbind option_bind].
    apply strictly_sorted_tail in Hs.
    destruct (Pop_strict_min h1 b rest Hok1 Hp1 (strictly_sorted_head _ _ Hs))
      as (h2 & -> & Hp2 & Hok2).
    cbn [mbind option_bind].
    eapply IH; [by apply Push_heap_ok| |exact Hm].
    by rewrite Push_perm, insert_by_cnt_perm, Hp2.
Qed.

Lemma buildTree_merge_sorted order l t :
  map leaf_of order ≡ₚ l → merge_sorted (length l) l = Some t →
  buildTree (toHeap order) = Some t.
Proof.
  intros Hp Hm. rewrite toHeap_leaves. set (h := Heap.Init (map leaf_of order)).
  assert (Hh : h ≡ₚ l) by (unfold h; by rewrite Init_perm).
  unfold buildTree. rewrite (Permutation_length Hh).
  destruct l as [|a l]; [discriminate|]. simpl length at 1. cbn [Nat.leb].
  by rewrite (buildTree_loop_merge_sorted _ h _ t (Init_heap_ok _) Hh Hm).
Qed.

Lemma sort_by_cnt_perm h : foldr insert_by_cnt [] h ≡ₚ h.
Proof.
  induction h as [|x h IH]; [done|]. simpl. by rewrite insert_by_cnt_perm, IH.
Qed.

(** Whatever the order of visit, [sample_deep] gives the comb [tree_deep]. *)
Lemma buildTree_deep order :
  visits sample_deep order → buildTree (toHeap order) = Some tree_deep.
Proof.
  unfold visits, iteration_of. intros Hv.
  apply (buildTree_merge_sorted order leaves_deep); [|vm_compute; reflexivity].
  rewrite Hv.
  change (map_to_list (cnts (NewDistribution sample_deep))) with order_deep.
  rewrite <- (sort_by_cnt_perm (map leaf_of order_deep)).
  vm_compute. reflexivity.
Qed.

(** ** Codes longer than a byte *)


(** C8 (failing run): in the tree of [sample_deep] (ten symbols), whatever
    the order of visit of the counts, the leaves of 0 and 1 are siblings
    at depth 9; the right path adds [2 << 8], which is 0 in a byte, so
    both get the code of path 0 and length 9: the table is not a prefix
    code. *)
Theorem deep_tree_codes_collide order :
  visits sample_deep order →
  ∃ root, buildTree (toHeap order) = Some root ∧
          (2 ≤ length (leaves root))%nat ∧
          getMapping root !! 0 = Some (Code 0 9) ∧
          getMapping root !! 1 = Some (Code 0 9) ∧
          ¬ prefix_code (getMapping root).
Proof.
  intros Hv. exists tree_deep. split; [by apply buildTree_deep|].
  assert (H0 : getMapping tree_deep !! 0 = Some (Code 0 9)) by (vm_compute; reflexivity).
  assert (H1 : getMapping tree_deep !! 1 = Some (Code 0 9)) by (vm_compute; reflexivity).
  split_and!; [vm_compute; lia|done|done|].
  intros Hp. apply (Hp 0 1 _ _ ltac:(lia) H0 H1). reflexivity.
Qed.

Lemma deep_tree_codes_collide_witness :
  ∃ root, buildTree (toHeap order_deep) = Some root ∧
          (2 ≤ length (leaves root))%nat ∧
          getMapping root !! 0 = Some (Code 0 9) ∧
          getMapping root !! 1 = Some (Code 0 9) ∧
          ¬ prefix_code (getMapping root).
Proof.
  apply (deep_tree_codes_collide order_deep).
  unfold visits, iteration_of. vm_compute. reflexivity.
Defined.

(** ** The packing loop of [Writer.Write] *)

Section Packing.

Local Ltac Zify.zify_post_hook ::= Z.to_euclidean_division_equations.

Lemma byte_of_bits_snoc g b :
  byte_of_bits (g ++ [b]) = byte_of_bits g + b * 2 ^ Z.of_nat (length g).
Proof.
  induction g as [|x g IH]; simpl byte_of_bits; simpl length.
  - simpl. lia.
  - rewrite IH, Nat2Z.inj_succ, Z.pow_succ_r by lia. lia.
Qed.

Lemma byte_of_bits_bound g :
  Forall (fun b => 0 ≤ b ≤ 1) g → 0 ≤ byte_of_bits g < 2 ^ Z.of_nat (length g).
Proof.
  induction 1 as [|x g Hx _ IH]; simpl byte_of_bits; simpl length.
  - simpl. lia.
  - rewrite Nat2Z.inj_succ, Z.pow_succ_r by lia. lia.
Qed.

Lemma pack_bytes_snoc k : ∀ bits,
  pack_bytes (S k) bits
  = pack_bytes k bits ++ [byte_of_bits (take 8 (drop (8 * k) bits))].
Proof.
  induction k as [|k IH]; intros bits.
  - simpl. by rewrite drop_0.
  - change (pack_bytes (S (S k)) bits)
      with (byte_of_bits (take 8 bits) :: pack_bytes (S k) (drop 8 bits)).
    rewrite IH, drop_drop. cbn [pack_bytes app].
    by replace (8 * S k)%nat with (8 + 8 * k)%nat by lia.
Qed.

Lemma pack_bytes_app k : ∀ bits more,
  (8 * k ≤ length bits)%nat → pack_bytes k (bits ++ more) = pack_bytes k bits.
Proof.
  induction k as [|k IH]; intros bits more Hlen; [done|].
  cbn [pack_bytes]. rewrite take_app_le, drop_app_le by lia.
  rewrite IH by (rewrite length_drop; lia). done.
Qed.

Lemma bit_range p : 0 ≤ p mod 2 ≤ 1.
Proof. pose proof (Z.mod_pos_bound p 2). lia. Qed.

Lemma byte_bits_range n p : Forall (fun b => 0 ≤ b ≤ 1) (byte_bits n p).
Proof. unfold byte_bits. apply Forall_map, Forall_forall. intros i _. apply bit_range. Qed.

(** The shift of [put_bit]: [2 << byte(8-left-1)] is [2^(8-left)]. *)
Lemma put_bit_shift (r : nat) :
  (1 ≤ r ≤ 7)%nat → shl8 2 (byte (8 - (8 - Z.of_nat r) - 1)) = 2 ^ Z.of_nat r.
Proof.
  intros Hr. unfold shl8, byte.
  assert (r = 1 ∨ r = 2 ∨ r = 3 ∨ r = 4 ∨ r = 5 ∨ r = 6 ∨ r = 7)%nat
    as [->|[->|[->|[->|[->|[->| ->]]]]]] by lia; reflexivity.
Qed.

(** One turn of the bit loop places one more bit. *)
Lemma put_bit_packed bits st p :
  packed bits st →
  packed (bits ++ [p mod 2]) (put_bit st p) ∧
  wrote (put_bit st p) = wrote st || bool_decide (length bits mod 8 = 7)%nat.
Proof.
  intros (Hbits & Henc & Hcurr & Hleft).
  set (n := length bits) in *. set (q := (n / 8)%nat) in *. set (r := (n mod 8)%nat) in *.
  set (g := drop (8 * q) bits) in *.
  assert (Hg : length g = r) by (unfold g; rewrite length_drop; lia).
  assert (Hgb : Forall (fun b => 0 ≤ b ≤ 1) g) by (by apply Forall_drop).
  pose proof (bit_range p) as Hb.
  assert (Hnew : byte_of_bits (g ++ [p mod 2]) = curr st + p mod 2 * 2 ^ Z.of_nat r)
    by (by rewrite byte_of_bits_snoc, Hg, Hcurr).
  assert (Hbound : 0 ≤ byte_of_bits (g ++ [p mod 2]) < 2 ^ Z.of_nat (S r)).
  { replace (S r) with (length (g ++ [p mod 2])) by (rewrite length_app; simpl; lia).
    apply byte_of_bits_bound. apply Forall_app. split; [done|by constructor]. }
  assert (Hpow : 2 ^ Z.of_nat (S r) ≤ 2 ^ 8) by (apply Z.pow_le_mono_r; lia).
  assert (Hpr : 0 < 2 ^ Z.of_nat r) by (apply Z.pow_pos_nonneg; lia).
  assert (Hcurr' :
    (if left st =? 8 then byte (curr st + p mod 2)
     else byte (curr st + byte (p mod 2 * shl8 2 (byte (8 - left st - 1)))))
    = byte_of_bits (g ++ [p mod 2])).
  { rewrite Hnew. rewrite Hleft. destruct (8 - Z.of_nat r =? 8) eqn:H8.
    - apply Z.eqb_eq in H8. assert (r = 0)%nat as Hr0 by lia.
      rewrite Hnew, Hr0 in Hbound. rewrite Hr0.
      change (2 ^ Z.of_nat 0) with 1 in *. change (2 ^ Z.of_nat 1) with 2 in *.
      unfold byte. rewrite Z.mod_small; lia.
    - apply Z.eqb_neq in H8. rewrite put_bit_shift by lia.
      rewrite Hnew in Hbound. change (2 ^ 8) with 256 in Hpow.
      assert (0 ≤ p mod 2 * 2 ^ Z.of_nat r) by nia.
      assert (0 ≤ curr st).
      { rewrite Hcurr. by apply byte_of_bits_bound. }
      unfold byte. rewrite (Z.mod_small (p mod 2 * _)) by lia.
      rewrite Z.mod_small; lia. }
  assert (Hlen' : length (bits ++ [p mod 2]) = S n) by (rewrite length_app; simpl; lia).
  assert (Hbits' : Forall (fun b => 0 ≤ b ≤ 1) (bits ++ [p mod 2]))
    by (apply Forall_app; split; [done|by constructor]).
  unfold put_bit, packed. rewrite Hcurr', Hlen'.
  destruct (left st =? 1) eqn:H1.
  - apply Z.eqb_eq in H1. assert (Hr7 : r = 7%nat) by lia.
    cbn [encoded curr left wrote].
    rewrite bool_decide_true by done. rewrite orb_true_r.
    replace (S n / 8)%nat with (S q) by lia.
    split_and!; try done.
    + rewrite pack_bytes_snoc, pack_bytes_app by lia. rewrite Henc. do 3 f_equal.
      rewrite drop_app_le by lia. fold g. symmetry. apply take_ge.
      rewrite length_app. simpl. lia.
    + rewrite drop_ge by (rewrite Hlen'; lia). done.
    + lia.
  - apply Z.eqb_neq in H1. assert (Hr7 : r ≠ 7%nat) by lia.
    cbn [encoded curr left wrote].
    rewrite bool_decide_false by done. rewrite orb_false_r.
    replace (S n / 8)%nat with q by lia.
    split_and!; try done.
    + rewrite pack_bytes_app by lia. done.
    + rewrite drop_app_le by lia. done.
    + lia.
Qed.

(** The bit loop places the bits of a code, and [wrote] tells whether it
    sealed a byte. *)
Lemma put_code_packed k : ∀ p bits st,
  packed bits st →
  packed (bits ++ byte_bits k p) (put_code k p st) ∧
  wrote (put_code k p st)
  = wrote st || bool_decide (length bits / 8 < (length bits + k) / 8)%nat.
Proof.
  induction k as [|k IH]; intros p bits st Hst.
  - simpl. rewrite app_nil_r, Nat.add_0_r.
    rewrite bool_decide_false by lia. by rewrite orb_false_r.
  - cbn [put_code]. rewrite byte_bits_S.
    destruct (put_bit_packed bits st p Hst) as [Hst1 Hw1].
    destruct (IH (p / 2) _ _ Hst1) as [Hst2 Hw2].
    rewrite <- app_assoc in Hst2. split; [done|].
    rewrite Hw2, Hw1, length_app. simpl length. rewrite <- orb_assoc. f_equal.
    repeat case_bool_decide; simpl; try done; lia.
Qed.

Lemma packed_wrote bits st w :
  packed bits st → packed bits (Packer (encoded st) (curr st) (left st) w).
Proof. by intros (? & ? & ? & ?). Qed.

Lemma length_byte_bits n p : length (byte_bits n p) = n.
Proof. unfold byte_bits. by rewrite length_map, length_seq. Qed.

Lemma last_code_length_cons m val p :
  p ≠ [] → last_code_length m (val :: p) = last_code_length m p.
Proof. intros Hp. unfold last_code_length. destruct p; [done|]. by rewrite last_cons_cons. Qed.

(** The loop over the symbols seals the full bytes of the bits of the
    codes; the byte left partly filled is appended only when the last
    symbol sealed no byte. *)
Lemma write_loop_packed m : ∀ p bits st,
  p ≠ [] → packed bits st → Forall (known m) p →
  ∃ st', write_loop m p st = inr st' ∧
         let all := bits ++ message_bits m p in
         let N := length all in
         encoded st'
         = pack_bytes (N / 8) all ++
           (if bool_decide ((N - last_code_length m p) / 8 < N / 8)%nat then []
            else [byte_of_bits (drop (8 * (N / 8)) all)]).
Proof.
  induction p as [|val p IH]; intros bits st Hne Hst Hknown; [done|].
  apply Forall_cons in Hknown as [[c Hc] Hknown].
  cbn [write_loop]. rewrite Hc.
  destruct (put_code_packed (Z.to_nat (len c)) (path c) bits _
              (packed_wrote bits st false Hst)) as [Hst1 Hw1].
  fold (code_bits c) in Hst1.
  set (st1 := put_code _ _ _) in *. cbn [orb] in Hw1.
  assert (Hmsg : message_bits m (val :: p) = code_bits c ++ message_bits m p).
  { unfold message_bits. simpl. by rewrite Hc. }
  destruct (decide (p = [])) as [->|Hp].
  - rewrite bool_decide_true by done. cbn [andb write_loop].
    eexists. split; [reflexivity|]. cbv zeta.
    rewrite Hmsg. change (message_bits m []) with (@nil Z). rewrite app_nil_r.
    assert (Hlc : length (code_bits c) = Z.to_nat (len c)) by apply length_byte_bits.
    assert (Hlast : last_code_length m [val] = Z.to_nat (len c)).
    { unfold last_code_length. simpl. by rewrite Hc. }
    rewrite Hlast, !length_app, Hlc.
    replace (length bits + Z.to_nat (len c) - Z.to_nat (len c))%nat
      with (length bits) by lia.
    destruct Hst1 as (_ & Henc & Hcurr & _).
    rewrite length_app, Hlc in Henc, Hcurr.
    rewrite Hw1. destruct (bool_decide _); cbn [negb encoded].
    + by rewrite app_nil_r.
    + by rewrite Henc, Hcurr.
  - rewrite bool_decide_false by done. cbn [andb].
    destruct (IH _ _ Hp Hst1 Hknown) as (st' & Hloop & Henc).
    exists st'. split; [done|]. cbv zeta in *.
    by rewrite Hmsg, last_code_length_cons, app_assoc.
Qed.

(** What [Write] hands to the sink for a message of known symbols: the
    full bytes of the bits of the codes, and the last, partly filled
    byte unless the last symbol sealed a byte. *)
Theorem encode_packs m p :
  Forall (known m) p → p ≠ [] →
  let bits := message_bits m p in
  let N := length bits in
  encode m p
  = inr (pack_bytes (N / 8) bits ++
         (if bool_decide ((N - last_code_length m p) / 8 < N / 8)%nat then []
          else [byte_of_bits (drop (8 * (N / 8)) bits)])).
Proof.
  intros Hknown Hne. cbv zeta. unfold encode.
  destruct (write_loop_packed m p [] (Packer [] 0 8 false) Hne) as (st' & -> & Henc);
    [|done|].
  - unfold packed. by split_and!.
  - by rewrite Henc.
Qed.

Lemma spec_pack_full bits :
  (length bits mod 8 = 0)%nat → spec_pack bits = pack_bytes (length bits / 8) bits.
Proof. intros H. unfold spec_pack. f_equal. lia. Qed.

Lemma spec_pack_partial bits :
  (length bits mod 8 ≠ 0)%nat →
  spec_pack bits = pack_bytes (length bits / 8) bits
                   ++ [byte_of_bits (drop (8 * (length bits / 8)) bits)].
Proof.
  intros H. unfold spec_pack.
  replace ((length bits + 7) / 8)%nat with (S (length bits / 8)) by lia.
  rewrite pack_bytes_snoc. do 3 f_equal. apply take_ge. rewrite length_drop. lia.
Qed.

(** [Write] packs as specified when the last symbol seals a byte exactly
    at its last bit, or seals none and leaves a byte partly filled. *)
Theorem encode_is_spec_pack m p :
  Forall (known m) p → p ≠ [] →
  let N := length (message_bits m p) in
  ((N mod 8 = 0)%nat ↔ ((N - last_code_length m p) / 8 < N / 8)%nat) →
  encode m p = inr (spec_pack (message_bits m p)).
Proof.
  intros Hknown Hne N Hiff. rewrite encode_packs by done. cbv zeta. fold N.
  destruct (decide (N mod 8 = 0)%nat) as [H0|H0].
  - rewrite bool_decide_true by (by apply Hiff).
    by rewrite app_nil_r, spec_pack_full.
  - rewrite bool_decide_false by (by rewrite <- Hiff).
    by rewrite spec_pack_partial.
Qed.

(** When the last symbol seals a byte and has bits left over, the byte
    that holds them is missing from what [Write] hands to the sink. *)
Theorem encode_drops_partial_byte m p :
  Forall (known m) p → p ≠ [] →
  let bits := message_bits m p in
  let N := length bits in
  ((N - last_code_length m p) / 8 < N / 8)%nat → (N mod 8 ≠ 0)%nat →
  ∃ enc, encode m p = inr enc ∧
         spec_pack bits = enc ++ [byte_of_bits (drop (8 * (N / 8)) bits)].
Proof.
  intros Hknown Hne bits N Hsealed Hpart. rewrite encode_packs by done. cbv zeta.
  fold bits N. rewrite bool_decide_true by done.
  eexists. split; [reflexivity|]. rewrite app_nil_r. by apply spec_pack_partial.
Qed.

End Packing.

(** ** Codes of at most eight bits *)

Lemma byte_bits_snoc n b : byte_bits (S n) b = byte_bits n b ++ [(b / 2 ^ Z.of_nat n) mod 2].
Proof. unfold byte_bits. by rewrite seq_S, map_app. Qed.

Lemma byte_bits_ext n a b :
  (∀ i, (i < n)%nat → (a / 2 ^ Z.of_nat i) mod 2 = (b / 2 ^ Z.of_nat i) mod 2) →
  byte_bits n a = byte_bits n b.
Proof.
  intros H. unfold byte_bits. apply map_ext_in. intros i Hi%in_seq. apply H. lia.
Qed.

Lemma byte_bits_app n k b :
  byte_bits (n + k) b = byte_bits n b ++ byte_bits k (b / 2 ^ Z.of_nat n).
Proof.
  unfold byte_bits. rewrite seq_app, map_app. f_equal. cbn [Nat.add].
  replace (seq n k) with ((fun x => n + x)%nat <$> seq 0 k)
    by (rewrite fmap_add_seq; f_equal; lia).
  rewrite <- list_fmap_compose. apply map_ext. intros i. simpl.
  rewrite Z.div_div by lia. rewrite <- Z.pow_add_r by lia. do 3 f_equal. lia.
Qed.

(** The bit of [2^d] and the bits below it. *)
Lemma high_bit_clear p d : 0 ≤ d → 0 ≤ p < 2 ^ d → (p / 2 ^ d) mod 2 = 0.
Proof. intros Hd Hp. by rewrite Z.div_small. Qed.

Lemma high_bit_set p d : 0 ≤ d → 0 ≤ p < 2 ^ d → ((p + 2 ^ d) / 2 ^ d) mod 2 = 1.
Proof.
  intros Hd Hp. replace (p + 2 ^ d) with (p + 1 * 2 ^ d) by lia.
  rewrite Z.div_add by lia. by rewrite Z.div_small.
Qed.

Lemma low_bits_kept p d i :
  0 ≤ i < d → ((p + 2 ^ d) / 2 ^ i) mod 2 = (p / 2 ^ i) mod 2.
Proof.
  intros Hi. replace (2 ^ d) with (2 ^ (d - i - 1) * 2 * 2 ^ i).
  - rewrite Z.div_add by lia. apply Z_mod_plus_full.
  - change 2 with (2 ^ 1) at 2. rewrite <- !Z.pow_add_r by lia. f_equal. lia.
Qed.

Lemma codes_below_symbols t : (codes_below t).*1 = (leaves t).*1.
Proof.
  induction t as [|l IHl r IHr val c]; [done|]. simpl.
  destruct (is_nil l && is_nil r); [done|].
  rewrite !fmap_app, <- IHl, <- IHr, <- !list_fmap_compose. done.
Qed.

(** Where the path of [rightPath] comes from. *)
Lemma rightPath_value p d :
  0 ≤ d ≤ 7 → 0 ≤ p < 2 ^ d →
  (if d =? 0 then byte (p + 1) else byte (p + shl8 2 (uint32 (d - 1)))) = p + 2 ^ d.
Proof.
  intros Hd Hp.
  assert (H2 : 2 ^ d ≤ 2 ^ 7) by (apply Z.pow_le_mono_r; lia).
  destruct (d =? 0) eqn:H0.
  - apply Z.eqb_eq in H0 as ->. unfold byte. rewrite Z.mod_small; simpl in *; lia.
  - apply Z.eqb_neq in H0. unfold shl8, byte, uint32.
    rewrite (Z.mod_small (d - 1)) by lia.
    rewrite Z.shiftl_mul_pow2 by lia.
    replace (2 * 2 ^ (d - 1)) with (2 ^ d)
      by (replace d with (1 + (d - 1)) at 1 by lia; rewrite Z.pow_add_r; lia).
    rewrite (Z.mod_small (2 ^ d)) by lia. rewrite Z.mod_small; lia.
Qed.

(** In a tree of height at most 8, [expandPaths] records for every leaf
    the code whose bits are the path to the leaf. *)
Lemma expandPaths_codes t :
  well_formed t → ∀ p d m,
  NoDup (leaves t).*1 → 0 ≤ d → d + height t ≤ 8 → 0 ≤ p < 2 ^ d →
  ∀ v bs, (v, bs) ∈ codes_below t →
    ∃ p', expandPaths p d t m !! v = Some (Code p' (d + Z.of_nat (length bs))) ∧
          byte_bits (Z.to_nat d + length bs) p' = byte_bits (Z.to_nat d) p ++ bs.
Proof.
  induction 1 as [val c Hc|l r val c Hl IHl Hr IHr ->];
    intros p d m Hnd Hd Hh Hp v bs Hin.
  - simpl in *. apply list_elem_of_singleton in Hin as [= -> ->].
    exists p. rewrite lookup_insert_eq. simpl. rewrite Z.add_0_r, Nat.add_0_r.
    by rewrite app_nil_r.
  - rewrite leaves_inner, fmap_app in Hnd by done.
    apply NoDup_app in Hnd as (Hndl & Hdisj & Hndr).
    cbn [expandPaths height codes_below] in *.
    rewrite (well_formed_not_nil l Hl) in *. cbn [andb] in *.
    pose proof (height_nonneg l). pose proof (height_nonneg r).
    assert (Hu : uint32 (d + 1) = d + 1) by (unfold uint32; rewrite Z.mod_small; lia).
    rewrite Hu, rightPath_value by lia.
    assert (Hpow : 2 ^ (d + 1) = 2 * 2 ^ d) by (rewrite Z.pow_add_r; lia).
    assert (Hd1 : Z.to_nat (d + 1) = S (Z.to_nat d)) by lia.
    apply elem_of_app in Hin as [Hin|Hin];
      apply list_elem_of_fmap in Hin as ([v' bs'] & [= -> ->] & Hin); cbn [fst snd] in *.
    + destruct (IHl p (d + 1) m Hndl ltac:(lia) ltac:(lia) ltac:(lia) v' bs' Hin)
        as (p' & Hlook & Hbits).
      exists p'. split.
      * rewrite expandPaths_frame.
        -- rewrite Hlook. do 2 f_equal. simpl length. lia.
        -- apply Hdisj. rewrite <- codes_below_symbols.
           apply list_elem_of_fmap. by exists (v', bs').
      * simpl length. rewrite Nat.add_succ_r, <- Nat.add_succ_l, <- Hd1, Hbits.
        rewrite Hd1, byte_bits_snoc, Z2Nat.id by lia.
        rewrite high_bit_clear by lia. by rewrite <- app_assoc.
    + destruct (IHr (p + 2 ^ d) (d + 1) (expandPaths p (d + 1) l m) Hndr
                  ltac:(lia) ltac:(lia) ltac:(lia) v' bs' Hin) as (p' & Hlook & Hbits).
      exists p'. split.
      * rewrite Hlook. do 2 f_equal. simpl length. lia.
      * simpl length. rewrite Nat.add_succ_r, <- Nat.add_succ_l, <- Hd1, Hbits.
        rewrite Hd1, byte_bits_snoc, Z2Nat.id by lia.
        rewrite high_bit_set by lia. rewrite <- app_assoc. f_equal.
        apply byte_bits_ext. intros i Hi. apply low_bits_kept. lia.
Qed.

(** Walking a tree along the path to a leaf reaches that leaf. *)
Lemma walk_codes_below t :
  well_formed t → ∀ v bs rest, (v, bs) ∈ codes_below t →
  walk t (bs ++ rest) = Symbol v rest.
Proof.
  induction 1 as [val c Hc|l r val c Hl IHl Hr IHr ->]; intros v bs rest Hin.
  - simpl in *. by apply list_elem_of_singleton in Hin as [= -> ->].
  - cbn [walk codes_below] in *. rewrite (well_formed_not_nil l Hl) in *.
    cbn [andb] in *.
    apply elem_of_app in Hin as [Hin|Hin];
      apply list_elem_of_fmap in Hin as ([v' bs'] & [= -> ->] & Hin);
      simpl; [by apply IHl|by apply IHr].
Qed.

(** The code table of a tree of height at most 8: each symbol of a leaf
    has the code of a path to it, and no other symbol has a code. *)
Lemma getMapping_codes t v c :
  well_formed t → NoDup (leaves t).*1 → height t ≤ 8 →
  getMapping t !! v = Some c → (v, code_bits c) ∈ codes_below t.
Proof.
  intros Ht Hnd Hh Hlook.
  destruct (decide (v ∈ (leaves t).*1)) as [Hin|Hnin].
  - rewrite <- codes_below_symbols in Hin.
    apply list_elem_of_fmap in Hin as ([v' bs] & -> & Hin). cbn [fst] in *.
    destruct (expandPaths_codes t Ht 0 0 ∅ Hnd ltac:(lia) ltac:(lia) ltac:(simpl; lia)
                v' bs Hin) as (p' & Hl & Hbits).
    unfold getMapping in Hlook. rewrite Hl in Hlook. injection Hlook as <-.
    unfold code_bits. cbn [path len]. simpl in Hbits.
    by rewrite Z.add_0_l, Nat2Z.id, Hbits.
  - unfold getMapping in Hlook. by rewrite expandPaths_frame in Hlook.
Qed.

(** The prefix property holds for every tree of height at most 8. *)
Theorem shallow_tree_prefix_code t :
  well_formed t → NoDup (leaves t).*1 → height t ≤ 8 → prefix_code (getMapping t).
Proof.
  intros Ht Hnd Hh a b ca cb Hne Ha Hb [k Hk].
  apply getMapping_codes in Ha; [|done..]. apply getMapping_codes in Hb; [|done..].
  pose proof (walk_codes_below t Ht _ _ (k ++ []) Ha) as Hwa.
  pose proof (walk_codes_below t Ht _ _ [] Hb) as Hwb.
  rewrite Hk, <- app_assoc, Hwa in Hwb. by injection Hwb.
Qed.

(** ** The round trip when no bit is lost *)

Section RoundTrip.

Local Ltac Zify.zify_post_hook ::= Z.to_euclidean_division_equations.

Lemma byte_bits_zero n : byte_bits n 0 = replicate n 0.
Proof.
  unfold byte_bits. induction n as [|n IH]; [done|].
  rewrite seq_S, map_app, IH. simpl. rewrite Z.div_0_l by lia.
  change (0 mod 2) with 0. by rewrite <- replicate_cons_app.
Qed.

(** Reading the bits of a packed group gives the group back, then zeros. *)
Lemma byte_bits_of_bits g : ∀ n,
  Forall (fun b => 0 ≤ b ≤ 1) g → (length g ≤ n)%nat →
  byte_bits n (byte_of_bits g) = g ++ replicate (n - length g) 0.
Proof.
  induction g as [|b g IH]; intros n Hg Hn.
  - simpl. rewrite Nat.sub_0_r. apply byte_bits_zero.
  - apply Forall_cons in Hg as [Hb Hg]. destruct n as [|n]; [simpl in Hn; lia|].
    rewrite byte_bits_S. cbn [byte_of_bits length].
    replace ((b + 2 * byte_of_bits g) mod 2) with b
      by (rewrite (Z.mul_comm 2), Z_mod_plus_full, Z.mod_small; lia).
    replace ((b + 2 * byte_of_bits g) / 2) with (byte_of_bits g)
      by (rewrite (Z.mul_comm 2), Z.div_add, Z.div_small; lia).
    rewrite IH; [done|done|simpl in Hn; lia].
Qed.

Lemma unpack_pack_bytes k : ∀ bits,
  Forall (fun b => 0 ≤ b ≤ 1) bits → (length bits ≤ 8 * k)%nat →
  flat_map (byte_bits 8) (pack_bytes k bits) = bits ++ replicate (8 * k - length bits) 0.
Proof.
  induction k as [|k IH]; intros bits Hbits Hlen.
  - destruct bits; [done|simpl in Hlen; lia].
  - cbn [pack_bytes flat_map].
    rewrite byte_bits_of_bits; [|by apply Forall_take|rewrite length_take; lia].
    rewrite IH; [|by apply Forall_drop|rewrite length_drop; lia].
    rewrite length_take, length_drop.
    destruct (decide (8 ≤ length bits)%nat) as [H8|H8].
    + replace (8 - 8 `min` length bits)%nat with 0%nat by lia. simpl replicate.
      rewrite app_nil_r, app_assoc, take_drop. f_equal. f_equal. lia.
    + rewrite take_ge, drop_ge by lia. rewrite app_nil_l, <- app_assoc.
      rewrite <- replicate_add. do 2 f_equal. lia.
Qed.

Lemma length_pack_bytes k : ∀ bits, length (pack_bytes k bits) = k.
Proof. induction k as [|k IH]; intros bits; simpl; [done|]. by rewrite IH. Qed.

(** The bits of the packed bytes are the bits packed, then padding. *)
Lemma unpack_spec_pack bits :
  Forall (fun b => 0 ≤ b ≤ 1) bits →
  ∃ pad, flat_map (byte_bits 8) (spec_pack bits) = bits ++ replicate pad 0.
Proof.
  intros Hbits. eexists. unfold spec_pack. apply unpack_pack_bytes; [done|lia].
Qed.

Lemma flat_map_zero_bytes n : flat_map (byte_bits 8) (replicate n 0) = replicate (8 * n) 0.
Proof.
  induction n as [|n IH]; [done|]. cbn [replicate flat_map].
  rewrite IH, byte_bits_zero, <- replicate_add. f_equal. lia.
Qed.

Lemma codes_below_length t v bs :
  (v, bs) ∈ codes_below t → Z.of_nat (length bs) ≤ height t.
Proof.
  revert bs. induction t as [|l IHl r IHr val c]; intros bs Hin.
  - by apply elem_of_nil in Hin.
  - simpl in *. destruct (is_nil l && is_nil r).
    + by apply list_elem_of_singleton in Hin as [= -> ->].
    + apply elem_of_app in Hin as [Hin|Hin];
        apply list_elem_of_fmap in Hin as ([v' bs'] & [= -> ->] & Hin);
        [apply IHl in Hin|apply IHr in Hin]; simpl in *; lia.
Qed.

Lemma message_bits_range m msg : Forall (fun b => 0 ≤ b ≤ 1) (message_bits m msg).
Proof.
  unfold message_bits. induction msg as [|v msg IH]; [done|]. simpl.
  apply Forall_app. split; [|done].
  destruct (m !! v); simpl; [apply byte_bits_range|done].
Qed.

(** Walking the tree over the bits of a message reads the message. *)
Lemma decodes_message t m msg rest :
  well_formed t →
  Forall (fun v => ∃ c, m !! v = Some c ∧ (v, code_bits c) ∈ codes_below t) msg →
  decodes t (message_bits m msg ++ rest) msg rest.
Proof.
  intros Ht. induction 1 as [|v msg (c & Hc & Hin) _ IH]; [constructor|].
  unfold message_bits in *. simpl. rewrite Hc. simpl. rewrite <- app_assoc.
  econstructor; [|exact IH]. by apply walk_codes_below.
Qed.

Lemma message_bits_length t m msg :
  Forall (fun v => ∃ c, m !! v = Some c ∧ (v, code_bits c) ∈ codes_below t) msg →
  height t ≤ 8 → (length (message_bits m msg) ≤ 8 * length msg)%nat.
Proof.
  intros Hall Hh. induction Hall as [|v msg (c & Hc & Hin) _ IH]; [done|].
  unfold message_bits in *. simpl. rewrite Hc. simpl. rewrite length_app.
  apply codes_below_length in Hin. lia.
Qed.

(** Every symbol of the sample has a count. *)
Lemma NewDistribution_dom bs v :
  v ∈ bs → is_Some (cnts (NewDistribution bs) !! v).
Proof.
  induction bs as [|b bs IH] using rev_ind; [by intros ?%elem_of_nil|].
  intros Hin. rewrite NewDistribution_snoc. cbv zeta. cbn [cnts].
  destruct (decide (v = b)) as [->|Hne].
  - rewrite lookup_insert_eq. by eexists.
  - rewrite lookup_insert_ne by done. apply IH.
    apply elem_of_app in Hin as [Hin|Hin]; [done|].
    by apply list_elem_of_singleton in Hin.
Qed.

(** The code table of the tree of a sample has, for every symbol of the
    sample, the code of a path to its leaf (trees of height at most 8). *)
Lemma sample_symbols_have_codes bs order root :
  Z.of_nat (length bs) < 2 ^ 64 → visits bs order → order ≠ [] →
  buildTree (toHeap order) = Some root → height root ≤ 8 →
  well_formed root ∧
  ∀ v, v ∈ bs →
       ∃ c, getMapping root !! v = Some c ∧ (v, code_bits c) ∈ codes_below root.
Proof.
  intros Hlen Hv Hne Hb Hh.
  destruct (buildTree_of_counts bs order Hlen Hv Hne) as (t & Hb' & Ht & Hleaves & _).
  rewrite Hb in Hb'. injection Hb' as <-. split; [done|].
  destruct (visits_entries _ _ Hv) as (Hnd & _ & _).
  assert (Hnd' : NoDup (leaves root).*1) by (by rewrite Hleaves).
  intros v Hin.
  destruct (NewDistribution_dom bs v Hin) as [c0 Hc0].
  assert (Hvo : v ∈ (codes_below root).*1).
  { rewrite codes_below_symbols, Hleaves. unfold visits, iteration_of in Hv.
    rewrite Hv. apply list_elem_of_fmap. exists (v, c0). split; [done|].
    by apply elem_of_map_to_list. }
  apply list_elem_of_fmap in Hvo as ([v' path] & -> & Hpath). cbn [fst].
  destruct (expandPaths_codes root Ht 0 0 ∅ Hnd' ltac:(lia) ltac:(lia)
              ltac:(simpl; lia) v' path Hpath) as (p' & Hlook & _).
  eexists. split; [exact Hlook|]. by apply getMapping_codes.
Qed.

(** X22: the round trip when no bit is lost.  For every sample shorter
    than 2^64 whose tree has height at most 8, in every order of visit,
    and every non-empty message of symbols of the sample that [Write]
    packs whole (the last symbol seals a byte exactly at its last bit,
    or seals none and leaves a byte partly filled), encoding the message
    and decoding as many symbols as it has returns the message. *)
Theorem round_trip_when_packed_whole (bs : list Z) (order : list (Z * Z))
    (msg : list Z) (root : node) :
  Z.of_nat (length bs) < 2 ^ 64 → visits bs order →
  buildTree (toHeap order) = Some root → height root ≤ 8 →
  msg ≠ [] → Forall (fun x => x ∈ bs) msg →
  let N := length (message_bits (getMapping root) msg) in
  ((N mod 8 = 0)%nat ↔
   ((N - last_code_length (getMapping root) msg) / 8 < N / 8)%nat) →
  round_trip order msg = Some msg.
Proof.
  intros Hlen Hv Hb Hh Hmsg Hin N Hiff.
  set (m := getMapping root) in *.
  assert (Hne : order ≠ []).
  { intros ->. destruct msg as [|x msg]; [done|].
    apply Forall_cons in Hin as [Hx _].
    destruct (NewDistribution_dom bs x Hx) as [c0 Hc0].
    apply elem_of_map_to_list in Hc0. unfold visits, iteration_of in Hv.
    rewrite <- Hv in Hc0. by apply elem_of_nil in Hc0. }
  destruct (sample_symbols_have_codes bs order root Hlen Hv Hne Hb Hh) as [Ht Hcodes].
  assert (Hall : Forall (fun v => ∃ c, m !! v = Some c ∧
                                       (v, code_bits c) ∈ codes_below root) msg).
  { eapply Forall_impl; [exact Hin|]. intros v Hv'. by apply Hcodes. }
  assert (Hknown : Forall (known m) msg).
  { eapply Forall_impl; [exact Hall|]. intros v (c & Hc & _). by exists c. }
  pose proof (encode_is_spec_pack m msg Hknown Hmsg Hiff) as Henc.
  set (bits := message_bits m msg) in *.
  pose proof (message_bits_length root m msg Hall Hh) as Hbl. fold bits N in Hbl.
  assert (HN : (0 < N)%nat).
  { destruct (decide (N = 0)%nat) as [H0|]; [|lia].
    assert (N mod 8 = 0)%nat as Hm by (rewrite H0; reflexivity).
    apply Hiff in Hm. lia. }
  assert (Hel : length (spec_pack bits) = ((N + 7) / 8)%nat)
    by apply length_pack_bytes.
  assert (Hdata : spec_pack bits ≠ []).
  { intros Hnil. rewrite Hnil in Hel. cbn [length] in Hel. lia. }
  destruct (unpack_spec_pack bits (message_bits_range m msg)) as [pad Hpad].
  unfold round_trip, NewWriter. rewrite Hb. cbn [mbind option_bind].
  unfold Write. cbn [w_mapping w_sink]. fold m. rewrite Henc.
  unfold io_write, memSink_Writer. cbn [written app Huffman w_root].
  rewrite (Read_decodes_all root (spec_pack bits) (replicate (length msg) 0) msg
             (replicate pad 0 ++ replicate (8 * (length msg - (N + 7) / 8)) 0) Hdata).
  - reflexivity.
  - rewrite length_replicate. unfold read_buffer.
    rewrite take_ge by lia. rewrite flat_map_app, Hpad, Hel, flat_map_zero_bytes.
    rewrite <- app_assoc. by apply decodes_message.
  - by rewrite length_replicate.
Qed.

Lemma round_trip_when_packed_whole_witness :
  round_trip (map_to_list (cnts (NewDistribution sample_abc))) [97; 98]
  = Some [97; 98].
Proof.
  apply (round_trip_when_packed_whole sample_abc
           (map_to_list (cnts (NewDistribution sample_abc))) [97; 98]
           (default nil_node
              (buildTree (toHeap (map_to_list (cnts (NewDistribution sample_abc))))))).
  - vm_compute. reflexivity.
  - unfold visits, iteration_of. reflexivity.
  - vm_compute. reflexivity.
  - vm_compute. discriminate.
  - discriminate.
  - apply (bool_decide_unpack _). vm_compute. exact I.
  - cbv zeta. vm_compute. lia.
Defined.

(** X23: few symbols give a prefix code.  For a sample shorter than 2^64
    with at most nine distinct symbols, in every order of visit,
    [buildTree] returns a tree whose code table is a prefix code: the
    bits of the code of a symbol never start the bits of the code of
    another symbol. *)
Theorem small_alphabet_prefix_code (bs : list Z) (order : list (Z * Z)) :
  Z.of_nat (length bs) < 2 ^ 64 → visits bs order → (length order ≤ 9)%nat →
  ∃ root, buildTree (toHeap order) = Some root ∧ prefix_code (getMapping root).
Proof.
  intros Hlen Hv Hn.
  destruct (decide (order = [])) as [->|Hne].
  { exists nil_node. split; [reflexivity|]. intros a b ca cb _ Ha. done. }
  destruct (buildTree_of_counts bs order Hlen Hv Hne) as (t & Hb & Ht & Hleaves & _).
  destruct (visits_entries _ _ Hv) as (Hnd & _ & _).
  exists t. split; [done|]. apply shallow_tree_prefix_code; [done| |].
  - by rewrite Hleaves.
  - pose proof (height_lt_leaves t Ht) as Hh.
    rewrite (Permutation_length Hleaves) in Hh. lia.
Qed.

Lemma small_alphabet_prefix_code_witness :
  ∃ root, buildTree (toHeap (map_to_list (cnts (NewDistribution sample_abc))))
          = Some root ∧
          prefix_code (getMapping root).
Proof.
  apply (small_alphabet_prefix_code sample_abc
           (map_to_list (cnts (NewDistribution sample_abc)))).
  - vm_compute. reflexivity.
  - unfold visits, iteration_of. reflexivity.
  - vm_compute. lia.
Defined.

End RoundTrip.

(** ** The frequency model: [NewDistribution] and [Of] *)

Lemma occurrences_snoc b bs x :
  occurrences b (bs ++ [x]) = occurrences b bs + (if decide (b = x) then 1 else 0).
Proof.
  unfold occurrences. rewrite filter_app, length_app.
  rewrite filter_cons, filter_nil. destruct (decide (b = x)); simpl; lia.
Qed.

Lemma occurrences_absent b bs : b ∉ bs → occurrences b bs = 0.
Proof.
  intros Hb. unfold occurrences. induction bs as [|x bs IH]; [done|].
  apply not_elem_of_cons in Hb as [Hne Hb].
  rewrite filter_cons, decide_False by done. by apply IH.
Qed.

Lemma occurrences_range b bs : 0 ≤ occurrences b bs ≤ Z.of_nat (length bs).
Proof. unfold occurrences. pose proof (length_filter (eq b) bs). lia. Qed.

Lemma occurrences_pos b bs : b ∈ bs → 0 < occurrences b bs.
Proof.
  intros Hb. unfold occurrences. induction Hb as [x bs|x y bs Hb IH].
  - rewrite filter_cons, decide_True by done. cbn [length]. lia.
  - rewrite filter_cons. destruct (decide (x = y)); cbn [length]; lia.
Qed.

(** The entry of a byte in the counts of a sample. *)
Lemma NewDistribution_lookup (bs : list Z) (b : Z) :
  cnts (NewDistribution bs) !! b
  = (if decide (b ∈ bs) then Some (uint64 (occurrences b bs)) else None).
Proof.
  induction bs as [|x bs IH] using rev_ind.
  - rewrite decide_False by apply not_elem_of_nil. done.
  - rewrite NewDistribution_snoc. cbv zeta. cbn [cnts].
    rewrite occurrences_snoc. destruct (decide (b = x)) as [->|Hne].
    + rewrite lookup_insert_eq.
      rewrite decide_True by (apply elem_of_app; right; by left).
      f_equal. unfold cnt_of. rewrite IH.
      destruct (decide (x ∈ bs)) as [Hin|Hin]; cbn [default from_option].
      * unfold id. by rewrite uint64_succ.
      * by rewrite occurrences_absent.
    + rewrite lookup_insert_ne by done. rewrite IH, Z.add_0_r.
      destruct (decide (b ∈ bs)) as [Hin|Hin].
      * by rewrite decide_True by (apply elem_of_app; by left).
      * rewrite decide_False; [done|].
        intros [?|H%list_elem_of_singleton]%elem_of_app; done.
Qed.

Lemma NewDistribution_total (bs : list Z) :
  total (NewDistribution bs) = uint64 (Z.of_nat (length bs)).
Proof.
  induction bs as [|x bs IH] using rev_ind; [done|].
  rewrite NewDistribution_snoc. cbv zeta. cbn [total].
  rewrite IH, uint64_succ, length_app. cbn [length]. f_equal. lia.
Qed.

Lemma sumZ_nonneg l : Forall (fun z => 0 ≤ z) l → 0 ≤ sumZ l.
Proof. induction 1; unfold sumZ in *; simpl; lia. Qed.

(** Without overflow the counts add up to the length of the sample. *)
Lemma NewDistribution_sum bs :
  Z.of_nat (length bs) < 2 ^ 64 →
  sumZ ((map_to_list (cnts (NewDistribution bs))).*2) = Z.of_nat (length bs).
Proof.
  induction bs as [|b bs IH] using rev_ind; [done|].
  rewrite length_app. cbn [length]. intros Hlen.
  rewrite NewDistribution_snoc. cbv zeta. cbn [cnts].
  destruct (NewDistribution_counts bs) as [Hk _]. cbv zeta in Hk.
  set (m := cnts (NewDistribution bs)) in *.
  specialize (IH ltac:(lia)).
  assert (Hpos : ∀ m' : gmap Z Z, m' ⊆ m → Forall (fun z => 0 ≤ z) (map_to_list m').*2).
  { intros m' Hsub. apply Forall_forall. intros z Hz.
    apply list_elem_of_fmap in Hz as ([v c] & -> & Hvc%elem_of_map_to_list).
    eapply lookup_weaken in Hvc; [|exact Hsub]. by destruct (Hk _ _ Hvc). }
  unfold cnt_of. destruct (m !! b) as [c|] eqn:Hb; cbn [default from_option].
  - unfold id. rewrite <- insert_delete_eq.
    rewrite (sumZ_perm _ _ (fmap_Permutation snd _ _
               (map_to_list_insert (delete b m) b _ (lookup_delete_eq m b)))).
    rewrite <- (sumZ_perm _ _ (fmap_Permutation snd _ _
                  (map_to_list_delete m b c Hb))) in IH.
    rewrite fmap_cons in *. unfold sumZ in *. cbn [foldr snd] in *.
    pose proof (sumZ_nonneg _ (Hpos (delete b m) (delete_subseteq m b))) as Hr.
    unfold sumZ in Hr. destruct (Hk _ _ Hb) as [_ Hc].
    unfold uint64. rewrite Z.mod_small by lia. lia.
  - rewrite (sumZ_perm _ _ (fmap_Permutation snd _ _ (map_to_list_insert m b _ Hb))).
    rewrite fmap_cons. unfold sumZ in *. cbn [foldr snd].
    change (uint64 (0 + 1)) with 1. lia.
Qed.

(** Without overflow the count of a byte is the number of its occurrences. *)
Lemma cnt_of_occurrences bs b :
  Z.of_nat (length bs) < 2 ^ 64 →
  cnt_of (cnts (NewDistribution bs)) b = occurrences b bs.
Proof.
  intros Hlen. unfold cnt_of. rewrite NewDistribution_lookup.
  pose proof (occurrences_range b bs).
  destruct (decide (b ∈ bs)); cbn [default from_option].
  - unfold id, uint64. apply Z.mod_small. lia.
  - by rewrite occurrences_absent.
Qed.

Lemma sum_quotients (order : list (Z * Z)) (p : positive) :
  (foldr Qplus 0 (map (fun e => Qmake (snd e) p) order) == Qmake (sumZ order.*2) p)%Q.
Proof.
  induction order as [|[v c] order IH].
  - simpl. reflexivity.
  - cbn [map foldr fmap list_fmap snd]. rewrite IH.
    unfold sumZ. cbn [foldr]. unfold Qeq, Qplus. cbn [Qnum Qden]. nia.
Qed.

(** The order in which a map of the counts lists them is an order of visit. *)
Lemma visits_map_to_list bs : visits bs (map_to_list (cnts (NewDistribution bs))).
Proof. unfold visits, iteration_of. reflexivity. Qed.

(** X1: [NewDistribution] counts.  For every sample, [total] is the length
    of the sample and [cnts[b]] is the number of times [b] occurs in it,
    both modulo 2^64; the keys of [cnts] are exactly the bytes that occur
    in the sample. *)
Theorem NewDistribution_counts_occurrences (bs : list Z) (b : Z) :
  let d := NewDistribution bs in
  total d = uint64 (Z.of_nat (length bs)) ∧
  cnt_of (cnts d) b = uint64 (occurrences b bs) ∧
  (is_Some (cnts d !! b) ↔ b ∈ bs).
Proof.
  cbv zeta. split_and!.
  - apply NewDistribution_total.
  - unfold cnt_of. rewrite NewDistribution_lookup.
    destruct (decide (b ∈ bs)) as [Hin|Hin]; cbn [default from_option]; [done|].
    by rewrite occurrences_absent.
  - rewrite NewDistribution_lookup. destruct (decide (b ∈ bs)) as [Hin|Hin].
    + split; [done|]. by eexists.
    + split; [by intros [? ?]|done].
Qed.

(** X2: [Of] on a sample shorter than 2^64.  The denominator of every
    quotient is the length of the sample, the numerator of [Of(b)] lies
    between 0 and the length and is 0 exactly when [b] does not occur;
    over the symbols of the sample the numerators add up to the
    denominator, so that, the sample not being empty, the exact quotients
    add up to 1. *)
Theorem Of_adds_up_to_one (bs : list Z) (order : list (Z * Z)) :
  Z.of_nat (length bs) < 2 ^ 64 → visits bs order →
  let d := NewDistribution bs in
  (∀ b, denominator (Of d b) = Z.of_nat (length bs) ∧
        0 ≤ numerator (Of d b) ≤ Z.of_nat (length bs) ∧
        (numerator (Of d b) = 0 ↔ b ∉ bs)) ∧
  sumZ (map (fun e => numerator (Of d (fst e))) order) = Z.of_nat (length bs) ∧
  (bs ≠ [] → foldr Qplus 0 (map (fun e => probability d (fst e)) order) == 1)%Q.
Proof.
  intros Hlen Hv. cbv zeta.
  assert (Htot : total (NewDistribution bs) = Z.of_nat (length bs)).
  { rewrite NewDistribution_total. unfold uint64. apply Z.mod_small. lia. }
  assert (Hsum : sumZ order.*2 = Z.of_nat (length bs)).
  { unfold visits, iteration_of in Hv.
    rewrite (sumZ_perm _ _ (fmap_Permutation snd _ _ Hv)).
    by apply NewDistribution_sum. }
  pose proof (visits_counts bs order Hv) as Hvc.
  split_and!.
  - intros b. unfold Of. cbn [numerator denominator].
    rewrite cnt_of_occurrences by done.
    pose proof (occurrences_range b bs). split_and!; [done|lia|lia|].
    split.
    + intros H0 Hin%occurrences_pos. lia.
    + apply occurrences_absent.
  - rewrite <- Hsum. f_equal. unfold Of. cbn [numerator].
    clear -Hvc. induction Hvc as [|e order He _ IH]; [done|].
    cbn [map fmap list_fmap]. by rewrite He, IH.
  - intros Hne.
    assert (Heq : map (fun e => probability (NewDistribution bs) (fst e)) order
                  = map (fun e => Qmake (snd e) (Z.to_pos (total (NewDistribution bs))))
                        order).
    { clear -Hvc. induction Hvc as [|e order He _ IH]; [done|].
      cbn [map]. unfold probability at 1. by rewrite He, IH. }
    rewrite Heq, sum_quotients, Hsum, Htot.
    destruct bs as [|x bs]; [done|]. unfold Qeq. cbn [Qnum Qden length]. lia.
Qed.

Lemma Of_adds_up_to_one_witness :
  let bs := sample_abc in
  let order := map_to_list (cnts (NewDistribution bs)) in
  let d := NewDistribution bs in
  (∀ b, denominator (Of d b) = Z.of_nat (length bs) ∧
        0 ≤ numerator (Of d b) ≤ Z.of_nat (length bs) ∧
        (numerator (Of d b) = 0 ↔ b ∉ bs)) ∧
  sumZ (map (fun e => numerator (Of d (fst e))) order) = Z.of_nat (length bs) ∧
  (bs ≠ [] → foldr Qplus 0 (map (fun e => probability d (fst e)) order) == 1)%Q.
Proof.
  apply (Of_adds_up_to_one sample_abc (map_to_list (cnts (NewDistribution sample_abc)))).
  - vm_compute. reflexivity.
  - apply visits_map_to_list.
Defined.

(** ** The heap of [toHeap] and the tree of [buildTree] *)

(** [Pop] hands out the node at the root, whatever the order of the rest. *)
Lemma Pop_root (h : nodeHeap) :
  h ≠ [] →
  ∃ x h', Heap.Pop h = Some (x, h') ∧ h !! 0%nat = Some x ∧ h ≡ₚ x :: h'.
Proof.
  intros Hne. unfold Heap.Pop.
  destruct (length h) as [|n] eqn:Hlen; [by destruct h|].
  destruct (lookup_lt_is_Some_2 h 0%nat ltac:(lia)) as [x Hx].
  set (h1 := Heap.Swap h 0 n). set (h2 := Heap.down h1 0 n).
  assert (Hl1 : length h1 = S n) by (unfold h1; by rewrite Swap_length).
  assert (Hl2 : length h2 = S n)
    by (unfold h2, Heap.down; by rewrite down_loop_length).
  assert (H2n : h2 !! n = Some x).
  { unfold h2, Heap.down. rewrite down_loop_lookup_ge by done.
    unfold h1. rewrite Swap_lookup_r by lia. done. }
  rewrite H2n. cbn [mbind option_bind].
  assert (Hsplit : h2 = take n h2 ++ [x]).
  { rewrite <- (take_drop n h2) at 1. f_equal.
    apply list_eq. intros [|k].
    - rewrite lookup_drop, Nat.add_0_r. done.
    - rewrite lookup_drop. simpl. apply lookup_ge_None_2. lia. }
  exists x, (take n h2). split_and!; [done|done|].
  rewrite <- (Swap_perm h 0 n). fold h1.
  rewrite <- (down_loop_perm n h1 0 n). fold (Heap.down h1 0 n). fold h2.
  rewrite Hsplit at 1. by rewrite Permutation_app_comm.
Qed.

(** The loop of [buildTree] ends with one tree over all the leaves,
    whatever the counts are. *)
Lemma buildTree_loop_total fuel : ∀ h,
  Forall (fun t => is_nil t = false) h → h ≠ [] → (length h ≤ S fuel)%nat →
  ∃ t, buildTree_loop fuel h = Some [t] ∧ is_nil t = false ∧
       leaves t ≡ₚ h ≫= leaves.
Proof.
  induction fuel as [|fuel IH]; intros h Hnn Hne Hlen.
  - destruct h as [|t [|]]; [done| |simpl in Hlen; lia].
    exists t. apply Forall_cons in Hnn as [Ht _].
    split_and!; [done|done|]. cbn [mbind list_bind]. by rewrite app_nil_r.
  - cbn [buildTree_loop]. destruct (2 <=? length h)%nat eqn:H2.
    + apply Nat.leb_le in H2.
      destruct (Pop_root h Hne) as (l & h1 & -> & _ & Hp1).
      cbn [mbind option_bind].
      assert (Hne1 : h1 ≠ []).
      { intros ->. apply Permutation_length in Hp1. simpl in Hp1. lia. }
      destruct (Pop_root h1 Hne1) as (r & h2 & -> & _ & Hp2).
      cbn [mbind option_bind].
      assert (Hp : h ≡ₚ l :: r :: h2) by (by rewrite Hp1, Hp2).
      rewrite Hp in Hnn. apply Forall_cons in Hnn as [Hl Hnn].
      apply Forall_cons in Hnn as [Hr Hnn].
      set (next := Node l r 0 (uint64 (cnt r + cnt l))).
      pose proof (Push_perm h2 next) as Hp3.
      destruct (IH (Heap.Push h2 next)) as (t & -> & Ht & Hleaves).
      * rewrite Hp3. by constructor.
      * intros Heq. rewrite Heq in Hp3. by apply Permutation_nil_cons in Hp3.
      * rewrite (Permutation_length Hp3). apply Permutation_length in Hp.
        simpl in *. lia.
      * exists t. split_and!; [done|done|].
        rewrite Hleaves, Hp3, Hp. cbn [mbind list_bind].
        unfold next. cbn [leaves]. rewrite Hl. cbn [andb].
        by rewrite <- app_assoc.
    + apply Nat.leb_gt in H2. destruct h as [|t [|]]; [done| |simpl in H2; lia].
      exists t. apply Forall_cons in Hnn as [Ht _].
      split_and!; [done|done|]. cbn [mbind list_bind]. by rewrite app_nil_r.
Qed.

(** [buildTree] on the heap of any counts returns a tree, with a leaf
    for every entry; the root is nil for no entry only. *)
Lemma buildTree_total order :
  ∃ t, buildTree (toHeap order) = Some t ∧ leaves t ≡ₚ order ∧
       (is_nil t = true ↔ order = []).
Proof.
  destruct order as [|e order].
  { exists nil_node. by split_and!. }
  rewrite toHeap_leaves. set (h := Heap.Init (map leaf_of (e :: order))).
  pose proof (Init_perm (map leaf_of (e :: order))) as Hp. fold h in Hp.
  assert (Hhne : h ≠ []).
  { intros Hh. rewrite Hh in Hp. by apply Permutation_nil_cons in Hp. }
  destruct (buildTree_loop_total (length h) h) as (t & Hloop & Ht & Hleaves).
  - rewrite Hp. rewrite Forall_map. by apply Forall_true.
  - done.
  - lia.
  - exists t. split_and!.
    + unfold buildTree.
      replace (1 <=? length h)%nat with true
        by (symmetry; apply Nat.leb_le; destruct h; [done|simpl; lia]).
      rewrite Hloop. reflexivity.
    + by rewrite Hleaves, Hp, leaves_of_leaves.
    + rewrite Ht. split; intros; done.
Qed.

(** The count at the root of a tree is the sum of the counts at its leaves. *)
Lemma well_formed_cnt t : well_formed t → cnt t = sumZ (leaves t).*2.
Proof.
  induction 1 as [val c Hc|l r val c Hl IHl Hr IHr Hc].
  - unfold sumZ. simpl. lia.
  - rewrite leaves_inner by done. rewrite fmap_app, sumZ_app. simpl. lia.
Qed.

(** X3: [toHeap] returns a min-heap of leaves.  Whatever the counts and
    the order of visit, the slice holds one leaf per entry of the counts,
    the count of every position is at least that of its parent, and the
    node at the root has the least count of all. *)
Theorem toHeap_is_a_min_heap (order : list (Z * Z)) :
  let h := toHeap order in
  h ≡ₚ map leaf_of order ∧ heap_ok h ∧
  Forall (fun n => key h 0 ≤ cnt n) h ∧
  (∀ e, e ∈ order → key h 0 ≤ snd e).
Proof.
  cbv zeta. rewrite toHeap_leaves.
  set (h := Heap.Init (map leaf_of order)).
  pose proof (Init_perm (map leaf_of order)) as Hp. fold h in Hp.
  pose proof (Init_heap_ok (map leaf_of order)) as Hok. fold h in Hok.
  assert (Hmin : Forall (fun n => key h 0 ≤ cnt n) h).
  { apply Forall_forall. intros n Hn.
    apply list_elem_of_lookup in Hn as [k Hk].
    pose proof (root_min h Hok k (lookup_lt_Some _ _ _ Hk)) as Hmin.
    unfold key in Hmin at 2. by rewrite Hk in Hmin. }
  split_and!; [done|done|done|].
  intros e He. rewrite Forall_forall in Hmin.
  apply (Hmin (leaf_of e)). rewrite Hp. apply list_elem_of_fmap. by exists e.
Qed.

(** X4: [heap.Push] and [heap.Pop] on a [nodeHeap].  On a heap of
    allocated nodes (no nil pointer, so that [Less] can read every
    [cnt]) in heap order: [heap.Pop] panics on the empty heap only, and
    pushing an allocated node and then popping returns a node of least
    count among the pushed node and the nodes of the heap, and leaves
    the others, allocated and in heap order again. *)
Theorem heap_Push_then_Pop (h : nodeHeap) (x : node) :
  Forall (fun n => is_nil n = false) h → is_nil x = false → heap_ok h →
  (Heap.Pop h = None ↔ h = []) ∧
  ∃ y h', Heap.Pop (Heap.Push h x) = Some (y, h') ∧
          x :: h ≡ₚ y :: h' ∧ heap_ok h' ∧
          Forall (fun z => cnt y ≤ cnt z) (x :: h) ∧
          is_nil y = false ∧ Forall (fun n => is_nil n = false) h'.
Proof.
  intros Hall Hx Hok. split.
  - split; [|by intros ->].
    intros Hpop. destruct (decide (h = [])) as [|Hne]; [done|].
    destruct (Pop_root h Hne) as (y & h' & Hy & _). congruence.
  - pose proof (Push_perm h x) as Hp.
    assert (Hne : Heap.Push h x ≠ []).
    { intros Heq. rewrite Heq in Hp. by apply Permutation_nil_cons in Hp. }
    destruct (Pop_spec (Heap.Push h x) (Push_heap_ok h x Hok) Hne)
      as (y & h' & Hpop & Hp' & Hok' & Hmin).
    assert (Hall' : Forall (fun n => is_nil n = false) (y :: h')).
    { rewrite <- Hp', Hp. by constructor. }
    apply Forall_cons in Hall' as [Hy Hh'].
    exists y, h'. split_and!; [done|by rewrite <- Hp|done| |done|done].
    rewrite <- Hp, Hp'. constructor; [lia|done].
Qed.

Lemma heap_Push_then_Pop_witness :
  let h := toHeap [(97, 4); (98, 2); (99, 1)] in
  let x := Node nil_node nil_node 100 3 in
  (Heap.Pop h = None ↔ h = []) ∧
  ∃ y h', Heap.Pop (Heap.Push h x) = Some (y, h') ∧
          x :: h ≡ₚ y :: h' ∧ heap_ok h' ∧
          Forall (fun z => cnt y ≤ cnt z) (x :: h) ∧
          is_nil y = false ∧ Forall (fun n => is_nil n = false) h'.
Proof.
  apply (heap_Push_then_Pop (toHeap [(97, 4); (98, 2); (99, 1)])
           (Node nil_node nil_node 100 3)).
  - vm_compute. repeat constructor.
  - reflexivity.
  - apply Init_heap_ok.
Defined.

(** X5: the tree of a sample.  For a non-empty sample shorter than 2^64,
    in every order of visit, [buildTree] returns a tree in which every
    inner node has two children and carries the sum of their counts; its
    leaves are the bytes of the sample with their counts, once each, and
    the count at its root is the [total] of the distribution, the length
    of the sample. *)
Theorem buildTree_tree_of_the_sample (bs : list Z) (order : list (Z * Z)) :
  bs ≠ [] → Z.of_nat (length bs) < 2 ^ 64 → visits bs order →
  ∃ root, buildTree (toHeap order) = Some root ∧ well_formed root ∧
          leaves root ≡ₚ order ∧ NoDup (leaves root).*1 ∧
          (∀ b, b ∈ (leaves root).*1 ↔ b ∈ bs) ∧
          cnt root = total (NewDistribution bs) ∧
          cnt root = Z.of_nat (length bs).
Proof.
  intros Hne Hlen Hv.
  assert (Hone : order ≠ []).
  { intros ->. destruct bs as [|x bs]; [done|].
    destruct (NewDistribution_dom (x :: bs) x ltac:(by left)) as [c Hc].
    apply elem_of_map_to_list in Hc. unfold visits, iteration_of in Hv.
    rewrite <- Hv in Hc. by apply elem_of_nil in Hc. }
  destruct (buildTree_of_counts bs order Hlen Hv Hone) as (t & Hb & Ht & Hleaves & _).
  destruct (visits_entries _ _ Hv) as (Hnd & Hent & _).
  assert (Hcnt : cnt t = Z.of_nat (length bs)).
  { rewrite (well_formed_cnt t Ht).
    rewrite (sumZ_perm _ _ (fmap_Permutation snd _ _ Hleaves)).
    unfold visits, iteration_of in Hv.
    rewrite (sumZ_perm _ _ (fmap_Permutation snd _ _ Hv)).
    by apply NewDistribution_sum. }
  exists t. split_and!; [done|done|done| | | |done].
  - by rewrite Hleaves.
  - intros b. rewrite Hleaves. unfold visits, iteration_of in Hv. rewrite Hv.
    split.
    + intros ([v c] & -> & Hvc%elem_of_map_to_list)%list_elem_of_fmap.
      cbn [fst]. by apply (NewDistribution_counts bs) in Hvc as [? _].
    + intros Hb'. destruct (NewDistribution_dom bs b Hb') as [c Hc].
      apply list_elem_of_fmap. exists (b, c). split; [done|].
      by apply elem_of_map_to_list.
  - rewrite Hcnt, NewDistribution_total. unfold uint64.
    symmetry. apply Z.mod_small. lia.
Qed.

Lemma buildTree_tree_of_the_sample_witness :
  let bs := sample_abc in
  let order := map_to_list (cnts (NewDistribution bs)) in
  ∃ root, buildTree (toHeap order) = Some root ∧ well_formed root ∧
          leaves root ≡ₚ order ∧ NoDup (leaves root).*1 ∧
          (∀ b, b ∈ (leaves root).*1 ↔ b ∈ bs) ∧
          cnt root = total (NewDistribution bs) ∧
          cnt root = Z.of_nat (length bs).
Proof.
  apply (buildTree_tree_of_the_sample sample_abc
           (map_to_list (cnts (NewDistribution sample_abc)))).
  - done.
  - vm_compute. reflexivity.
  - apply visits_map_to_list.
Defined.

(** ** The code table: keys, lengths, completeness *)

(** [expandPaths] adds an entry for the symbol of every leaf, and no other. *)
Lemma expandPaths_dom t : ∀ p d m v,
  is_Some (expandPaths p d t m !! v) ↔ is_Some (m !! v) ∨ v ∈ (leaves t).*1.
Proof.
  induction t as [|l IHl r IHr val c]; intros p d m v.
  - simpl. split; [by left|]. intros [?|H]; [done|]. by apply elem_of_nil in H.
  - cbn [expandPaths leaves]. destruct (is_nil l && is_nil r).
    + cbn [fmap list_fmap fst]. rewrite list_elem_of_singleton.
      destruct (decide (v = val)) as [->|Hne].
      * rewrite lookup_insert_eq. split; [by right|by eexists].
      * rewrite lookup_insert_ne by done. split; [by left|]. by intros [?|?].
    + rewrite IHr, IHl, fmap_app, elem_of_app. tauto.
Qed.

(** The [len] that [expandPaths] records for a leaf is the depth of the
    leaf, also where [path] has wrapped around. *)
Lemma expandPaths_lengths t :
  well_formed t → ∀ p d m,
  NoDup (leaves t).*1 → 0 ≤ d → d + height t < 2 ^ 32 →
  ∀ v bs, (v, bs) ∈ codes_below t →
    ∃ p', expandPaths p d t m !! v = Some (Code p' (d + Z.of_nat (length bs))).
Proof.
  induction 1 as [val c Hc|l r val c Hl IHl Hr IHr ->];
    intros p d m Hnd Hd Hh v bs Hin.
  - simpl in *. apply list_elem_of_singleton in Hin as [= -> ->].
    exists p. rewrite lookup_insert_eq. simpl. by rewrite Z.add_0_r.
  - rewrite leaves_inner, fmap_app in Hnd by done.
    apply NoDup_app in Hnd as (Hndl & Hdisj & Hndr).
    cbn [expandPaths height codes_below] in *.
    rewrite (well_formed_not_nil l Hl) in *. cbn [andb] in *.
    pose proof (height_nonneg l). pose proof (height_nonneg r).
    assert (Hu : uint32 (d + 1) = d + 1) by (unfold uint32; rewrite Z.mod_small; lia).
    rewrite Hu.
    apply elem_of_app in Hin as [Hin|Hin];
      apply list_elem_of_fmap in Hin as ([v' bs'] & [= -> ->] & Hin); cbn [fst snd] in *.
    + destruct (IHl p (d + 1) m Hndl ltac:(lia) ltac:(lia) v' bs' Hin) as (p' & Hlook).
      exists p'. rewrite expandPaths_frame.
      * rewrite Hlook. do 2 f_equal. simpl length. lia.
      * apply Hdisj. rewrite <- codes_below_symbols.
        apply list_elem_of_fmap. by exists (v', bs').
    + match goal with |- context [expandPaths ?q (d + 1) r ?m'] =>
        destruct (IHr q (d + 1) m' Hndr ltac:(lia) ltac:(lia) v' bs' Hin)
          as (p' & Hlook) end.
      exists p'. rewrite Hlook. do 2 f_equal. simpl length. lia.
Qed.

Lemma ksum_app L l k : ksum L (l ++ k) = ksum L l + ksum L k.
Proof. unfold ksum. by rewrite map_app, sumZ_app. Qed.

Lemma ksum_deeper L ls : ksum (S L) (map S ls) = ksum L ls.
Proof. unfold ksum. rewrite map_map. f_equal. Qed.

(** The depths of the leaves of a tree fill Kraft's sum. *)
Lemma ksum_codes_below t :
  well_formed t → ∀ L, height t ≤ Z.of_nat L →
  ksum L (map (fun e => length (snd e)) (codes_below t)) = 2 ^ Z.of_nat L.
Proof.
  induction 1 as [val c Hc|l r val c Hl IHl Hr IHr ->]; intros L HL.
  - unfold ksum, sumZ. simpl. rewrite Nat.sub_0_r. lia.
  - cbn [codes_below height] in *. rewrite (well_formed_not_nil l Hl) in *.
    cbn [andb] in *.
    pose proof (height_nonneg l). pose proof (height_nonneg r).
    destruct L as [|L]; [lia|].
    rewrite map_app, !map_map, ksum_app. cbn [snd length].
    rewrite <- !(map_map (fun e => length (snd e)) S), !ksum_deeper.
    rewrite IHl, IHr by lia. rewrite Nat2Z.inj_succ, Z.pow_succ_r by lia. lia.
Qed.

(** The code lengths of a table, read off along the leaves of its tree. *)
Lemma lengths_along_leaves t :
  well_formed t → NoDup (leaves t).*1 → height t < 2 ^ 32 →
  map (fun v => Z.to_nat (len_of (getMapping t) v)) (leaves t).*1
  = map (fun e => length (snd e)) (codes_below t).
Proof.
  intros Ht Hnd Hh. rewrite <- codes_below_symbols.
  unfold fmap, list_fmap. fold (@map (Z * list Z) Z fst). rewrite map_map.
  apply map_ext_in. intros [v bs] Hin%list_elem_of_In. cbn [fst snd].
  destruct (expandPaths_lengths t Ht 0 0 ∅ Hnd ltac:(lia) ltac:(lia) v bs Hin)
    as (p' & Hlook).
  unfold len_of, getMapping. rewrite Hlook. cbn [from_option len]. lia.
Qed.

(** The tree of a sample of bytes, and what is known of it. *)
Lemma tree_of_bytes bs order :
  Forall (fun b => 0 ≤ b < 256) bs → Z.of_nat (length bs) < 2 ^ 64 →
  visits bs order → order ≠ [] →
  ∃ t, buildTree (toHeap order) = Some t ∧ well_formed t ∧ leaves t ≡ₚ order ∧
       NoDup (leaves t).*1 ∧ height t < 256 ∧
       (length order ≤ 256)%nat ∧ height t < Z.of_nat (length order) ∧
       ∀ asg, map fst asg ≡ₚ map leaf_of order → kraft (map snd asg) →
              wdepth 0 t ≤ fcost asg.
Proof.
  intros Hbytes Hlen Hv Hne.
  destruct (buildTree_of_counts bs order Hlen Hv Hne) as (t & Hb & Ht & Hleaves & Hopt).
  destruct (visits_entries _ _ Hv) as (Hnd & Hent & _).
  assert (H256 : (length order ≤ 256)%nat).
  { rewrite <- (length_fmap fst). apply distinct_bytes; [done|].
    apply Forall_fmap. eapply Forall_impl; [exact Hent|].
    intros [v c] [Hin _]. rewrite Forall_forall in Hbytes. by apply Hbytes. }
  pose proof (height_lt_leaves t Ht) as Hh.
  rewrite (Permutation_length Hleaves) in Hh.
  exists t. split_and!; [done|done|done| |lia|done|done|done].
  by rewrite Hleaves.
Qed.

(** X6: the keys and the lengths of a code table.  For a tree whose
    inner nodes have two children, whose leaves carry distinct symbols
    and whose height is below 2^32, [getMapping] has an entry exactly
    for the symbols at the leaves, and the [len] of the entry of a leaf
    is the number of steps from the root to the leaf, whatever has
    become of [path]. *)
Theorem getMapping_lengths_are_depths (t : node) :
  well_formed t → NoDup (leaves t).*1 → height t < 2 ^ 32 →
  (∀ v, is_Some (getMapping t !! v) ↔ v ∈ (leaves t).*1) ∧
  (∀ v bs, (v, bs) ∈ codes_below t →
     ∃ p, getMapping t !! v = Some (Code p (Z.of_nat (length bs)))) ∧
  (∀ v c, getMapping t !! v = Some c → 0 ≤ len c ≤ height t).
Proof.
  intros Ht Hnd Hh.
  assert (Hdom : ∀ v, is_Some (getMapping t !! v) ↔ v ∈ (leaves t).*1).
  { intros v. unfold getMapping. rewrite expandPaths_dom.
    split; [|by right]. intros [[c Hc]|Hin]; [|done].
    by apply lookup_empty_Some in Hc. }
  assert (Hlen : ∀ v bs, (v, bs) ∈ codes_below t →
            ∃ p, getMapping t !! v = Some (Code p (Z.of_nat (length bs)))).
  { intros v bs Hin.
    destruct (expandPaths_lengths t Ht 0 0 ∅ Hnd ltac:(lia) ltac:(lia) v bs Hin)
      as (p' & Hlook).
    exists p'. unfold getMapping. by rewrite Hlook, Z.add_0_l. }
  split_and!; [done|done|].
  intros v c Hc.
  assert (Hin : v ∈ (codes_below t).*1)
    by (rewrite codes_below_symbols; apply Hdom; by eexists).
  apply list_elem_of_fmap in Hin as ([v' bs] & -> & Hin). cbn [fst] in Hc.
  destruct (Hlen _ _ Hin) as (p & Hp). rewrite Hp in Hc. injection Hc as <-.
  cbn [len]. apply codes_below_length in Hin. lia.
Qed.

Lemma getMapping_lengths_are_depths_witness :
  let t := Node (Node nil_node nil_node 98 1) (Node nil_node nil_node 97 3) 0 4 in
  (∀ v, is_Some (getMapping t !! v) ↔ v ∈ (leaves t).*1) ∧
  (∀ v bs, (v, bs) ∈ codes_below t →
     ∃ p, getMapping t !! v = Some (Code p (Z.of_nat (length bs)))) ∧
  (∀ v c, getMapping t !! v = Some c → 0 ≤ len c ≤ height t).
Proof.
  apply (getMapping_lengths_are_depths
           (Node (Node nil_node nil_node 98 1) (Node nil_node nil_node 97 3) 0 4)).
  - apply wf_inner; [by apply wf_leaf|by apply wf_leaf|reflexivity].
  - vm_compute. apply NoDup_cons. split.
    + intros [H|H]%elem_of_cons; [discriminate H|by apply elem_of_nil in H].
    + apply NoDup_singleton.
  - vm_compute. reflexivity.
Defined.

(** X7: the code table of a sample is complete.  For a non-empty sample
    of bytes, the code lengths fill Kraft's sum: for every [L] that
    bounds them, the sum over the symbols of [2^(L - len)] is [2^L], so
    that no bit sequence is left unused; and every length is below the
    number of distinct symbols, hence at most 255. *)
Theorem code_table_is_complete (bs : list Z) (order : list (Z * Z)) :
  Forall (fun b => 0 ≤ b < 256) bs → Z.of_nat (length bs) < 2 ^ 64 →
  visits bs order → bs ≠ [] →
  ∃ root, buildTree (toHeap order) = Some root ∧
    let length_of := fun v => Z.to_nat (len_of (getMapping root) v) in
    Forall (fun e => (length_of (fst e) < length order ≤ 256)%nat) order ∧
    ∀ L, Forall (fun e => (length_of (fst e) ≤ L)%nat) order →
         ksum L (map (fun e => length_of (fst e)) order) = 2 ^ Z.of_nat L.
Proof.
  intros Hbytes Hlen Hv Hne.
  assert (Hone : order ≠ []).
  { intros ->. destruct bs as [|x bs]; [done|].
    destruct (NewDistribution_dom (x :: bs) x ltac:(by left)) as [c Hc].
    apply elem_of_map_to_list in Hc. unfold visits, iteration_of in Hv.
    rewrite <- Hv in Hc. by apply elem_of_nil in Hc. }
  destruct (tree_of_bytes bs order Hbytes Hlen Hv Hone)
    as (t & Hb & Ht & Hleaves & Hnd & Hh & H256 & Hho & _).
  exists t. split; [done|]. cbv zeta.
  pose proof (lengths_along_leaves t Ht Hnd ltac:(lia)) as Hmap.
  assert (Hperm : map (fun e : Z * Z => Z.to_nat (len_of (getMapping t) (fst e))) order
                  ≡ₚ map (fun e => length (snd e)) (codes_below t)).
  { rewrite <- Hmap. rewrite <- Hleaves.
    unfold fmap, list_fmap. fold (@map (Z * Z) Z fst). by rewrite map_map. }
  assert (Hbound : Forall (fun l => Z.of_nat l ≤ height t)
                     (map (fun e => length (snd e)) (codes_below t))).
  { rewrite Forall_map. apply Forall_forall. intros [v p] Hin. cbn [snd].
    by apply codes_below_length in Hin. }
  split.
  - rewrite <- Forall_map with (f := fun e : Z * Z => Z.to_nat (len_of (getMapping t) (fst e)))
                               (P := fun l => (l < length order ≤ 256)%nat).
    rewrite Hperm. eapply Forall_impl; [exact Hbound|]. intros l Hl. cbn beta in *. lia.
  - intros L HL. rewrite (ksum_perm _ _ _ Hperm).
    apply ksum_codes_below; [done|].
    destruct (decide (height t ≤ Z.of_nat L)) as [|Hgt]; [done|].
    rewrite <- Forall_map with (f := fun e : Z * Z => Z.to_nat (len_of (getMapping t) (fst e)))
                               (P := fun l => (l ≤ L)%nat) in HL.
    rewrite Hperm in HL.
    assert (Hdeep : ∃ v p, (v, p) ∈ codes_below t ∧ Z.of_nat (length p) = height t).
    { clear -Ht. induction Ht as [val c Hc|l r val c Hl IHl Hr IHr ->].
      - exists val, []. split; [by left|done].
      - cbn [codes_below height]. rewrite (well_formed_not_nil l Hl). cbn [andb].
        destruct (decide (height r ≤ height l)).
        + destruct IHl as (v & p & Hin & Hp). exists v, (0 :: p). split.
          * apply elem_of_app. left. apply list_elem_of_fmap. by exists (v, p).
          * simpl length. lia.
        + destruct IHr as (v & p & Hin & Hp). exists v, (1 :: p). split.
          * apply elem_of_app. right. apply list_elem_of_fmap. by exists (v, p).
          * simpl length. lia. }
    destruct Hdeep as (v & p & Hin & Hp).
    rewrite Forall_map, Forall_forall in HL. specialize (HL _ Hin). cbn [snd] in HL. lia.
Qed.

Lemma code_table_is_complete_witness :
  let bs := sample_abc in
  let order := map_to_list (cnts (NewDistribution bs)) in
  ∃ root, buildTree (toHeap order) = Some root ∧
    let length_of := fun v => Z.to_nat (len_of (getMapping root) v) in
    Forall (fun e => (length_of (fst e) < length order ≤ 256)%nat) order ∧
    ∀ L, Forall (fun e => (length_of (fst e) ≤ L)%nat) order →
         ksum L (map (fun e => length_of (fst e)) order) = 2 ^ Z.of_nat L.
Proof.
  apply (code_table_is_complete sample_abc
           (map_to_list (cnts (NewDistribution sample_abc)))).
  - unfold sample_abc. repeat constructor; lia.
  - vm_compute. reflexivity.
  - apply visits_map_to_list.
  - done.
Defined.

(** ** More frequent symbols have shorter codes *)

(** Two entries of a list of counts with distinct symbols, taken out. *)
Lemma two_entries (order : list (Z * Z)) a ca b cb :
  (a, ca) ∈ order → (b, cb) ∈ order → a ≠ b →
  ∃ rest, order ≡ₚ (a, ca) :: (b, cb) :: rest.
Proof.
  intros Ha Hb Hne.
  apply elem_of_Permutation in Ha as [rest1 Hp1].
  rewrite Hp1 in Hb. apply elem_of_cons in Hb as [[= ? ?]|Hb]; [done|].
  apply elem_of_Permutation in Hb as [rest Hp2].
  exists rest. by rewrite Hp1, Hp2.
Qed.

(** X8: a symbol that occurs more often never has a longer code.  For a
    sample of bytes shorter than 2^64 and two of its symbols, if [b]
    occurs strictly more often than [a], then the code of [b] in the
    table built from the sample has at most as many bits as the code of
    [a], in every order of visit of the counts. *)
Theorem frequent_symbols_get_shorter_codes (bs : list Z) (order : list (Z * Z))
    (a b : Z) :
  Forall (fun b => 0 ≤ b < 256) bs → Z.of_nat (length bs) < 2 ^ 64 →
  visits bs order → a ∈ bs → occurrences a bs < occurrences b bs →
  ∃ root, buildTree (toHeap order) = Some root ∧
          len_of (getMapping root) b ≤ len_of (getMapping root) a.
Proof.
  intros Hbytes Hlen Hv Ha Hocc.
  assert (Hb : b ∈ bs).
  { destruct (decide (b ∈ bs)) as [|Hn]; [done|].
    rewrite (occurrences_absent b bs Hn) in Hocc.
    pose proof (occurrences_range a bs). lia. }
  assert (Hab : a ≠ b) by (intros ->; lia).
  assert (Hentry : ∀ v, v ∈ bs → (v, occurrences v bs) ∈ order).
  { intros v Hin. unfold visits, iteration_of in Hv. rewrite Hv.
    apply elem_of_map_to_list. rewrite NewDistribution_lookup, decide_True by done.
    f_equal. pose proof (occurrences_range v bs). unfold uint64.
    apply Z.mod_small. lia. }
  destruct (two_entries order a _ b _ (Hentry a Ha) (Hentry b Hb) Hab) as [rest Hp].
  assert (Hone : order ≠ []).
  { intros Heq. rewrite Heq in Hp. by apply Permutation_nil_cons in Hp. }
  destruct (tree_of_bytes bs order Hbytes Hlen Hv Hone)
    as (t & Hbt & Ht & Hleaves & Hnd & Hh & H256 & Hho & Hopt).
  exists t. split; [done|].
  set (m := getMapping t). set (d := fun v => Z.to_nat (len_of m v)).
  set (ca := occurrences a bs) in *. set (cb := occurrences b bs) in *.
  (* the lengths are those of the paths, hence not negative *)
  assert (Hd : ∀ v, v ∈ order.*1 → Z.of_nat (d v) = len_of m v).
  { intros v Hin. rewrite <- Hleaves, <- codes_below_symbols in Hin.
    apply list_elem_of_fmap in Hin as ([v' p] & -> & Hin). cbn [fst].
    destruct (expandPaths_lengths t Ht 0 0 ∅ Hnd ltac:(lia) ltac:(lia) v' p Hin)
      as (p' & Hlook).
    unfold d, len_of, m, getMapping. rewrite Hlook. cbn [from_option len]. lia. }
  (* the cost of the tree is the weighted length of its table *)
  assert (Hcost : wdepth 0 t = weighted_length order (fun v => Z.of_nat (d v))).
  { rewrite <- (expandPaths_cost t Ht 0 0 ∅ Hnd) by lia.
    fold (getMapping t). fold m. rewrite (weighted_length_perm _ _ _ Hleaves).
    apply weighted_length_ext. intros e He. symmetry. apply Hd.
    apply list_elem_of_fmap. by exists e. }
  (* the lengths of the table satisfy Kraft's inequality *)
  assert (Hkraft : kraft (map (fun e => d (fst e)) order)).
  { pose proof (lengths_along_leaves t Ht Hnd ltac:(lia)) as Hmap. fold m in Hmap.
    apply (kraft_perm (map (fun e => length (snd e)) (codes_below t))).
    - rewrite <- Hmap, <- Hleaves.
      unfold fmap, list_fmap. fold (@map (Z * Z) Z fst). by rewrite map_map.
    - exists (Z.to_nat (height t)). pose proof (height_nonneg t). split.
      + rewrite Forall_map. apply Forall_forall. intros [v p] Hin. cbn [snd].
        apply codes_below_length in Hin. lia.
      + rewrite ksum_codes_below by (done || lia). lia. }
  (* the same lengths with those of [a] and [b] exchanged *)
  set (f := fun v => if decide (v = a) then d b
                     else if decide (v = b) then d a else d v).
  assert (Hnd' : NoDup (a :: b :: rest.*1)).
  { destruct (visits_entries _ _ Hv) as (Hndo & _ & _).
    by rewrite Hp in Hndo. }
  apply NoDup_cons in Hnd' as [Ha' Hnd'']. apply NoDup_cons in Hnd'' as [Hb' _].
  assert (Hrest : ∀ e, e ∈ rest → f (fst e) = d (fst e)).
  { intros e He. unfold f.
    assert (fst e ∈ rest.*1) by (apply list_elem_of_fmap; by exists e).
    rewrite decide_False by (intros Heq; apply Ha'; right; by rewrite <- Heq).
    rewrite decide_False by (intros Heq; apply Hb'; by rewrite <- Heq). done. }
  assert (Hfa : f a = d b) by (unfold f; by rewrite decide_True).
  assert (Hfb : f b = d a)
    by (unfold f; rewrite decide_False by done; by rewrite decide_True).
  specialize (Hopt (map (fun e => (leaf_of e, f (fst e))) order)).
  rewrite !map_map in Hopt. cbn [fst snd] in Hopt.
  rewrite (fcost_leaves order f) in Hopt.
  assert (Hswap : map (fun e => f (fst e)) order ≡ₚ map (fun e => d (fst e)) order).
  { rewrite Hp. cbn [map fst]. rewrite Hfa, Hfb, perm_swap. do 2 constructor.
    erewrite map_ext_in; [done|]. intros e He%list_elem_of_In. by apply Hrest. }
  specialize (Hopt ltac:(done) (kraft_perm _ _ (Permutation_sym Hswap) Hkraft)).
  rewrite Hcost in Hopt.
  rewrite !(weighted_length_perm _ _ _ Hp) in Hopt.
  unfold weighted_length in Hopt. cbn [map fst snd] in Hopt.
  rewrite Hfa, Hfb in Hopt.
  assert (Heq : map (fun e : Z * Z => snd e * Z.of_nat (f (fst e))) rest
                = map (fun e : Z * Z => snd e * Z.of_nat (d (fst e))) rest).
  { apply map_ext_in. intros e He%list_elem_of_In. by rewrite Hrest. }
  rewrite Heq in Hopt. unfold sumZ in Hopt. cbn [foldr] in Hopt.
  assert (Hda : a ∈ order.*1).
  { rewrite Hp. by left. }
  assert (Hdb : b ∈ order.*1).
  { rewrite Hp. right. by left. }
  rewrite <- (Hd a Hda), <- (Hd b Hdb). nia.
Qed.

Lemma frequent_symbols_get_shorter_codes_witness :
  let order := map_to_list (cnts (NewDistribution sample_abc)) in
  ∃ root, buildTree (toHeap order) = Some root ∧
          len_of (getMapping root) 97 ≤ len_of (getMapping root) 99.
Proof.
  apply (frequent_symbols_get_shorter_codes sample_abc
           (map_to_list (cnts (NewDistribution sample_abc))) 99 97).
  - unfold sample_abc. repeat constructor; lia.
  - vm_compute. reflexivity.
  - apply visits_map_to_list.
  - unfold sample_abc. set_solver.
  - vm_compute. reflexivity.
Defined.

(** ** [Writer.Write]: what it accepts and how much it writes *)

Section WriterFacts.

Local Ltac Zify.zify_post_hook ::= Z.to_euclidean_division_equations.

(** The loop over the symbols fails on unknown symbols only. *)
Lemma write_loop_known m : ∀ p st,
  Forall (known m) p → ∃ st', write_loop m p st = inr st'.
Proof.
  induction p as [|val p IH]; intros st Hk; [by eexists|].
  apply Forall_cons in Hk as [[c Hc] Hk]. cbn [write_loop]. rewrite Hc.
  apply IH. done.
Qed.

Lemma encode_known m p : (∃ enc, encode m p = inr enc) ↔ Forall (known m) p.
Proof.
  split.
  - intros [enc Henc]. apply Forall_forall. intros x Hx.
    destruct (m !! x) as [c|] eqn:Hc; [by exists c|].
    destruct (first_unknown _ _ _ Hx Hc) as (pre & v & post & -> & Hpre & Hv).
    unfold encode in Henc. by rewrite write_loop_unknown in Henc.
  - intros Hk. unfold encode.
    destruct (write_loop_known m p (Packer [] 0 8 false) Hk) as [st' ->].
    by eexists.
Qed.

(** The symbols of an order of visit are those of the sample. *)
Lemma visits_symbols bs order v : visits bs order → v ∈ order.*1 ↔ v ∈ bs.
Proof.
  unfold visits, iteration_of. intros Hv. rewrite Hv.
  pose proof (NewDistribution_lookup bs v) as Hl. split.
  - intros ([v' c] & -> & Hvc%elem_of_map_to_list)%list_elem_of_fmap.
    cbn [fst] in *. rewrite Hvc in Hl. by destruct (decide (v' ∈ bs)).
  - intros Hin. rewrite decide_True in Hl by done.
    apply list_elem_of_fmap. eexists (v, _). split; [done|].
    by apply elem_of_map_to_list.
Qed.

(** With codes of at most eight bits, the bits of a message number at
    most eight per symbol before the last, plus the bits of the last. *)
Lemma message_bits_bound m p :
  (∀ v c, m !! v = Some c → 0 ≤ len c ≤ 8) → Forall (known m) p → p ≠ [] →
  (last_code_length m p ≤ 8)%nat ∧
  (length (message_bits m p) ≤ 8 * (length p - 1) + last_code_length m p)%nat.
Proof.
  intros Hlen. induction 1 as [|val p [c Hc] Hk IH]; intros Hne; [done|].
  assert (Hmsg : message_bits m (val :: p) = code_bits c ++ message_bits m p).
  { unfold message_bits. simpl. by rewrite Hc. }
  assert (Hlc : (length (code_bits c) ≤ 8)%nat).
  { unfold code_bits. rewrite length_byte_bits. specialize (Hlen _ _ Hc). lia. }
  destruct (decide (p = [])) as [->|Hp].
  - unfold last_code_length. cbn [last from_option]. rewrite Hmsg, Hc.
    cbn [from_option]. change (message_bits m []) with (@nil Z).
    rewrite app_nil_r. cbn [length]. lia.
  - destruct (IH Hp) as [IH1 IH2].
    rewrite last_code_length_cons by done. split; [done|].
    rewrite Hmsg, length_app. cbn [length].
    destruct p; [done|]. cbn [length] in *. lia.
Qed.

(** X9: [Write] accepts exactly the symbols of the sample.  Whatever
    the sample and the order of visit of its counts, [NewWriter] returns
    a writer (it does not panic), and a [Write] of that writer to an
    in-memory sink succeeds if and only if every symbol of its input
    occurs in the sample. *)
Theorem Write_accepts_the_symbols_of_the_sample (bs : list Z)
    (order : list (Z * Z)) (snk : memSink) :
  visits bs order →
  ∃ w, NewWriter snk order = Some w ∧ w_sink w = snk ∧
       (∀ v, known (w_mapping w) v ↔ v ∈ bs) ∧
       ∀ p, (∃ snk' n, Write w p = (snk', (n, None))) ↔ Forall (fun x => x ∈ bs) p.
Proof.
  intros Hv. destruct (buildTree_total order) as (t & Hb & Hleaves & _).
  unfold NewWriter. rewrite Hb. cbn [mbind option_bind].
  eexists. split; [reflexivity|]. cbn [w_sink w_mapping]. split; [done|].
  assert (Hknown : ∀ v, known (getMapping t) v ↔ v ∈ bs).
  { intros v. unfold known, getMapping. rewrite expandPaths_dom.
    rewrite Hleaves, (visits_symbols bs order v Hv).
    split; [|by right]. intros [[c Hc]|Hin]; [|done].
    by apply lookup_empty_Some in Hc. }
  split; [done|]. intros p.
  assert (Hall : Forall (known (getMapping t)) p ↔ Forall (fun x => x ∈ bs) p).
  { rewrite !Forall_forall. split; intros H x Hx; apply Hknown, H, Hx. }
  rewrite <- Hall, <- encode_known.
  unfold Write. cbn [w_mapping w_sink]. split.
  - intros (snk' & n & Hw). destruct (encode (getMapping t) p) as [e|enc]; [done|].
    by exists enc.
  - intros [enc ->]. unfold io_write, memSink_Writer. by do 2 eexists.
Qed.

Lemma Write_accepts_the_symbols_of_the_sample_witness :
  let bs := sample_abc in
  ∃ w, NewWriter (MemSink []) (map_to_list (cnts (NewDistribution bs))) = Some w ∧
       w_sink w = MemSink [] ∧
       (∀ v, known (w_mapping w) v ↔ v ∈ bs) ∧
       ∀ p, (∃ snk' n, Write w p = (snk', (n, None))) ↔ Forall (fun x => x ∈ bs) p.
Proof.
  apply (Write_accepts_the_symbols_of_the_sample sample_abc
           (map_to_list (cnts (NewDistribution sample_abc))) (MemSink [])).
  apply visits_map_to_list.
Defined.

(** X10: [Write] does not expand.  With a code table whose codes have at
    most eight bits, a successful [Write] to an in-memory sink appends
    at most [len(p)] bytes, and the count it returns, the number of
    bytes appended, is at most [len(p)]. *)
Theorem Write_never_expands (w : Writer memSink) (p : list Z) (snk : memSink)
    (n : Z) :
  (∀ v c, w_mapping w !! v = Some c → 0 ≤ len c ≤ 8) →
  Write w p = (snk, (n, None)) →
  ∃ enc, written snk = written (w_sink w) ++ enc ∧ n = Z.of_nat (length enc) ∧
         (length enc ≤ length p)%nat.
Proof.
  intros Hlen. unfold Write.
  destruct (encode (w_mapping w) p) as [e|enc] eqn:Henc; [done|].
  unfold io_write, memSink_Writer. intros [= <- <-].
  exists enc. split_and!; [done|done|].
  assert (Hk : Forall (known (w_mapping w)) p) by (apply encode_known; by exists enc).
  destruct (decide (p = [])) as [->|Hne].
  { vm_compute in Henc. by injection Henc as <-. }
  rewrite encode_packs in Henc by done. cbv zeta in Henc.
  apply (inj inr) in Henc. rewrite <- Henc. clear Henc.
  destruct (message_bits_bound _ p Hlen Hk Hne) as [Hl HN].
  set (N := length (message_bits (w_mapping w) p)) in *.
  set (lcl := last_code_length (w_mapping w) p) in *.
  assert (Hp : (0 < length p)%nat) by (destruct p; [done|simpl; lia]).
  rewrite length_app, length_pack_bytes.
  destruct (bool_decide _) eqn:Hs; cbn [length].
  - lia.
  - apply bool_decide_eq_false in Hs. lia.
Qed.

Lemma Write_never_expands_witness :
  ∃ enc, written (MemSink [7]) = written (MemSink []) ++ enc ∧
         1 = Z.of_nat (length enc) ∧ (length enc ≤ length [97; 97; 97; 98])%nat.
Proof.
  apply (Write_never_expands
           (MkWriter (MemSink [])
              (Node (Node nil_node nil_node 98 1) (Node nil_node nil_node 97 3) 0 4)
              (getMapping (Node (Node nil_node nil_node 98 1)
                                (Node nil_node nil_node 97 3) 0 4)) false)
           [97; 97; 97; 98] (MemSink [7]) 1).
  - intros v c. cbn [w_mapping getMapping expandPaths is_nil andb].
    change (0 =? 0) with true. cbv iota. intros Hc.
    apply lookup_insert_Some in Hc as [[_ <-]|[_ Hc]]; [vm_compute; split; discriminate|].
    apply lookup_insert_Some in Hc as [[_ <-]|[_ Hc]]; [vm_compute; split; discriminate|].
    by apply lookup_empty_Some in Hc.
  - vm_compute. reflexivity.
Defined.

End WriterFacts.

(** ** [decode] and [Reader.Read]: codes read back, cut streams, the source *)

(** On a tree whose inner nodes have two children [decode] returns. *)
Lemma decode_total t : well_formed t → ∀ s, is_Some (decode t s).
Proof.
  induction 1 as [val c Hc|l r val c Hl IHl Hr IHr ->]; intros s; [by eexists|].
  cbn [decode]. rewrite (well_formed_not_nil l Hl). cbn [andb].
  destruct (next s) as [[dir [e|]] s']; [by eexists|].
  destruct (dir =? 0); [apply IHl|apply IHr].
Qed.

(** The loop of [Read] keeps the length of [p] and counts at most the
    symbols asked for. *)
Lemma read_loop_bounds root : well_formed root → ∀ k s p n,
  ∃ out m err, read_loop k root s p n = Some (out, (m, err)) ∧
               length out = length p ∧ Z.of_nat n ≤ m ≤ Z.of_nat (n + k).
Proof.
  intros Ht. induction k as [|k IH]; intros s p n.
  - eexists _, _, _. split; [reflexivity|]. split; [done|lia].
  - cbn [read_loop]. destruct (decode_total root Ht s) as [[[v err] s'] ->].
    cbn [mbind option_bind]. destruct err as [e|].
    + eexists _, _, _. split; [reflexivity|]. rewrite length_insert. split; [done|lia].
    + destruct (IH s' (<[n := v]> p) (S n)) as (out & m & err & -> & Hl & Hm).
      eexists _, _, _. split; [reflexivity|]. rewrite length_insert in Hl.
      split; [done|lia].
Qed.

(** The loop of [Read] when the bits run out before the last symbol. *)
Lemma read_loop_cut root bits syms rest :
  decodes root bits syms rest →
  ∀ k s p n,
    stream_ok s → stream_bits s = bits → length p = (n + k)%nat →
    (length syms < k)%nat → walk root rest = Exhausted →
    read_loop k root s p n
    = Some (take n p ++ syms ++ 0 :: drop (S (n + length syms)) p,
            (Z.of_nat (n + length syms + 1), Some EOF)).
Proof.
  induction 1 as [bits|bits val mid syms rest Hw _ IH];
    intros k s p n Hok Hbits Hlen Hk Hex.
  - destruct k as [|k]; [simpl in Hk; lia|]. cbn [read_loop].
    pose proof (decode_walk root s Hok) as Hd. rewrite Hbits, Hex in Hd.
    destruct Hd as (s' & -> & _). cbn [mbind option_bind length app].
    rewrite Nat.add_0_r. rewrite insert_take_drop by lia.
    do 4 f_equal. lia.
  - pose proof (decode_walk root s Hok) as Hd. rewrite Hbits, Hw in Hd.
    destruct Hd as (s' & Hdec & Hok' & Hbits').
    destruct k as [|k]; [simpl in Hk; lia|]. cbn [read_loop length] in *.
    rewrite Hdec. cbn [mbind option_bind].
    rewrite (IH k s' (<[n := val]> p) (S n) Hok' Hbits')
      by (rewrite ?length_insert; done || lia).
    rewrite take_S_r with (x := val) by (apply list_lookup_insert_eq; lia).
    rewrite take_insert_ge by lia. rewrite drop_insert_lt by lia.
    rewrite <- app_assoc. cbn [app].
    replace (S n + length syms)%nat with (n + S (length syms))%nat by lia.
    do 4 f_equal; lia.
Qed.

(** X11: [decode] reads back a code of the table.  In a tree of height
    at most 8 with distinct symbols, when the bits a stream has still to
    hand out start with the bits of the code of a symbol, in the order
    [Write] emits them, [decode] returns that symbol with no error and
    leaves the stream at the first bit after the code. *)
Theorem decode_reads_back_a_code (t : node) (v : Z) (c : code) (s : bitStream)
    (rest : list Z) :
  well_formed t → NoDup (leaves t).*1 → height t ≤ 8 →
  getMapping t !! v = Some c →
  stream_ok s → stream_bits s = code_bits c ++ rest →
  ∃ s', decode t s = Some ((v, None), s') ∧ stream_ok s' ∧ stream_bits s' = rest.
Proof.
  intros Ht Hnd Hh Hc Hok Hbits.
  pose proof (getMapping_codes t v c Ht Hnd Hh Hc) as Hin.
  pose proof (walk_codes_below t Ht v (code_bits c) rest Hin) as Hw.
  pose proof (decode_walk t s Hok) as Hd. by rewrite Hbits, Hw in Hd.
Qed.

Lemma decode_reads_back_a_code_witness :
  ∃ s', decode (Node (Node nil_node nil_node 98 1) (Node nil_node nil_node 97 3) 0 4)
               (toBitStream [6])
        = Some ((98, None), s') ∧ stream_ok s' ∧
        stream_bits s' = [1; 1; 0; 0; 0; 0; 0].
Proof.
  apply (decode_reads_back_a_code
           (Node (Node nil_node nil_node 98 1) (Node nil_node nil_node 97 3) 0 4)
           98 (Code 0 1) (toBitStream [6]) [1; 1; 0; 0; 0; 0; 0]).
  - apply wf_inner; [by apply wf_leaf|by apply wf_leaf|reflexivity].
  - vm_compute. apply NoDup_cons. split.
    + intros [H|H]%elem_of_cons; [discriminate H|by apply elem_of_nil in H].
    + apply NoDup_singleton.
  - vm_compute. discriminate.
  - vm_compute. reflexivity.
  - unfold stream_ok. simpl. lia.
  - vm_compute. reflexivity.
Defined.

(** X12: what [Read] returns when the bits run out.  When the buffer
    read from an in-memory source holds the bits of fewer symbols than
    [len(p)] and ends before the next leaf, [Read] returns [io.EOF]
    with the count of the decoded symbols plus one; [p] holds the
    decoded symbols, then a zero at the position of the unfinished
    symbol, and is unchanged after it. *)
Theorem Read_cut_short (root : node) (data p syms rest : list Z) :
  data ≠ [] →
  decodes root (flat_map (byte_bits 8) (read_buffer (length p) data)) syms rest →
  (length syms < length p)%nat → walk root rest = Exhausted →
  Read (NewReader (MemSource data) root) p
  = Some (MemSource (drop (length p) data),
          syms ++ 0 :: drop (S (length syms)) p,
          (Z.of_nat (length syms) + 1, Some EOF)).
Proof.
  intros Hdata Hdec Hlen Hex. unfold Read. cbn [r_source r_root].
  destruct (io_read_memSource data (length p) Hdata) as [n0 ->].
  rewrite <- stream_bits_toBitStream in Hdec.
  rewrite (read_loop_cut _ _ _ _ Hdec (length p)
             (toBitStream (read_buffer (length p) data)) p 0%nat)
    by (done || unfold stream_ok, toBitStream; simpl; lia).
  cbn [mbind option_bind take app Nat.add]. do 4 f_equal. lia.
Qed.

Lemma Read_cut_short_witness :
  Read (NewReader (MemSource [0; 1]) tree_deep) [7; 7]
  = Some (MemSource (drop (length [7; 7]) [0; 1]),
          [1] ++ 0 :: drop (S (length [1])) [7; 7],
          (Z.of_nat (length [1]) + 1, Some EOF)).
Proof.
  apply (Read_cut_short tree_deep [0; 1] [7; 7] [1] [0; 0; 0; 0; 0; 0; 0]).
  - discriminate.
  - vm_compute flat_map.
    eapply decodes_cons; [vm_compute; reflexivity|]. apply decodes_nil.
  - simpl. lia.
  - vm_compute. reflexivity.
Defined.

(** X13: [Read] and its source.  With a tree whose inner nodes have two
    children, as [buildTree] makes them, [Read] does not panic; whatever
    it decodes, it takes [len(p)] bytes from an in-memory source (all of
    them when fewer are left), however few bits the symbols need, and
    leaves the source that much further; [p] keeps its length and the
    count returned lies between 0 and [len(p)]. *)
Theorem Read_takes_len_p_bytes (root : node) (data p : list Z) :
  well_formed root →
  ∃ out n err,
    Read (NewReader (MemSource data) root) p
    = Some (MemSource (drop (length p) data), out, (n, err)) ∧
    length out = length p ∧ 0 ≤ n ≤ Z.of_nat (length p).
Proof.
  intros Ht. unfold Read. cbn [r_source r_root].
  destruct p as [|x p].
  { eexists _, _, _. split; [reflexivity|]. split; [done|simpl; lia]. }
  destruct data as [|d data].
  { eexists _, _, _. split; [reflexivity|]. split; [done|simpl; lia]. }
  destruct (io_read_memSource (d :: data) (length (x :: p)) ltac:(done)) as [n0 ->].
  destruct (read_loop_bounds root Ht (length (x :: p))
              (toBitStream (read_buffer (length (x :: p)) (d :: data))) (x :: p) 0%nat)
    as (out & m & err & -> & Hl & Hm).
  cbn [mbind option_bind]. eexists _, _, _. split; [reflexivity|].
  split; [done|lia].
Qed.

Lemma Read_takes_len_p_bytes_witness :
  ∃ out n err,
    Read (NewReader (MemSource [6; 1; 2])
            (Node (Node nil_node nil_node 98 1) (Node nil_node nil_node 97 3) 0 4))
         [0; 0]
    = Some (MemSource (drop (length [0; 0]) [6; 1; 2]), out, (n, err)) ∧
    length out = length [0; 0] ∧ 0 ≤ n ≤ Z.of_nat (length [0; 0]).
Proof.
  apply (Read_takes_len_p_bytes
           (Node (Node nil_node nil_node 98 1) (Node nil_node nil_node 97 3) 0 4)
           [6; 1; 2] [0; 0]).
  apply wf_inner; [by apply wf_leaf|by apply wf_leaf|reflexivity].
Defined.

(** X14: the codec of an empty sample.  The writer made of the empty
    sample has the nil tree: it rejects every non-empty input, naming
    its first symbol and leaving the sink alone, and passes the empty
    input on to the sink as no bytes; a reader on that tree asked for
    at least one symbol panics as soon as its source has data, and
    returns [0, io.EOF] when the source has none. *)
Theorem empty_sample_codec {W} `{ioWriter W} (order : list (Z * Z)) (snk : W) :
  visits [] order →
  ∃ w, NewWriter snk order = Some w ∧ Huffman w = nil_node ∧
       (∀ x p, Write w (x :: p) = (snk, (0, Some (NotInDistribution x)))) ∧
       Write w [] = io_write snk [] ∧
       (∀ data x p, data ≠ [] →
          Read (NewReader (MemSource data) (Huffman w)) (x :: p) = None) ∧
       (∀ x p, Read (NewReader (MemSource []) (Huffman w)) (x :: p)
               = Some (MemSource [], x :: p, (0, Some EOF))).
Proof.
  unfold visits, iteration_of. change (cnts (NewDistribution [])) with (∅ : gmap Z Z).
  rewrite map_to_list_empty. intros ->%Permutation_nil_r.
  eexists. split; [reflexivity|]. split_and!; try done.
  intros data x p Hdata. unfold Read. cbn [r_source r_root Huffman w_root].
  destruct (io_read_memSource data (length (x :: p)) Hdata) as [n0 ->].
  reflexivity.
Qed.

Lemma empty_sample_codec_witness :
  ∃ w, NewWriter (MemSink []) [] = Some w ∧ Huffman w = nil_node ∧
       (∀ x p, Write w (x :: p) = (MemSink [], (0, Some (NotInDistribution x)))) ∧
       Write w [] = io_write (MemSink []) [] ∧
       (∀ data x p, data ≠ [] →
          Read (NewReader (MemSource data) (Huffman w)) (x :: p) = None) ∧
       (∀ x p, Read (NewReader (MemSource []) (Huffman w)) (x :: p)
               = Some (MemSource [], x :: p, (0, Some EOF))).
Proof.
  apply (empty_sample_codec (W := memSink) [] (MemSink [])).
  unfold visits, iteration_of. reflexivity.
Defined.

(** A walk from the root of a tree ends at a leaf within as many bits as
    the tree is high. *)
Lemma walk_within_height t :
  well_formed t → ∀ bits, height t ≤ Z.of_nat (length bits) →
  ∃ v rest, walk t bits = Symbol v rest ∧
            Z.of_nat (length bits) ≤ Z.of_nat (length rest) + height t.
Proof.
  induction 1 as [val c Hc|l r val c Hl IHl Hr IHr ->]; intros bits Hlen.
  - exists val, bits. split; [done|]. simpl. lia.
  - cbn [walk height] in *. rewrite (well_formed_not_nil l Hl) in *.
    cbn [andb] in *.
    pose proof (height_nonneg l). pose proof (height_nonneg r).
    destruct bits as [|b bits]; [simpl in Hlen; lia|]. cbn [length] in *.
    destruct (b =? 0).
    + destruct (IHl bits ltac:(lia)) as (v & rest & -> & Hr'). exists v, rest.
      split; [done|lia].
    + destruct (IHr bits ltac:(lia)) as (v & rest & -> & Hr'). exists v, rest.
      split; [done|lia].
Qed.

(** With codes of at most eight bits, eight bits per symbol are enough. *)
Lemma decodes_enough_bits t :
  well_formed t → height t ≤ 8 → ∀ (k : nat) bits,
  (8 * k ≤ length bits)%nat →
  ∃ syms rest, decodes t bits syms rest ∧ length syms = k.
Proof.
  intros Ht Hh. induction k as [|k IH]; intros bits Hlen.
  - exists [], bits. split; [constructor|done].
  - destruct (walk_within_height t Ht bits ltac:(lia)) as (v & mid & Hw & Hmid).
    destruct (IH mid ltac:(lia)) as (syms & rest & Hdec & Hk).
    exists (v :: syms), rest. split; [by econstructor|]. simpl. by rewrite Hk.
Qed.

(** X15: with codes of at most eight bits [Read] never reports a cut
    stream.  On a tree of height at most 8 and a source that has at
    least one byte, [Read] returns [len(p)] symbols and no error,
    however few bytes the source holds: the buffer it decodes is the
    data of the source followed by the zeros of [make], and the zero
    bits are decoded as symbols like the others. *)
Theorem Read_decodes_the_padding (root : node) (data p : list Z) :
  well_formed root → height root ≤ 8 → data ≠ [] →
  ∃ syms rest,
    decodes root (flat_map (byte_bits 8) (take (length p) data ++
                                          replicate (length p - length data) 0))
            syms rest ∧
    Read (NewReader (MemSource data) root) p
    = Some (MemSource (drop (length p) data), syms, (Z.of_nat (length p), None)) ∧
    length syms = length p.
Proof.
  intros Ht Hh Hdata. fold (read_buffer (length p) data).
  destruct (decodes_enough_bits root Ht Hh (length p)
              (flat_map (byte_bits 8) (read_buffer (length p) data)))
    as (syms & rest & Hdec & Hlen).
  { assert (Hfl : ∀ l, length (flat_map (byte_bits 8) l) = (8 * length l)%nat).
    { induction l as [|x l IHl]; [done|].
      cbn [flat_map]. rewrite length_app, length_byte_bits, IHl. simpl. lia. }
    rewrite Hfl. unfold read_buffer.
    rewrite length_app, length_take, length_replicate. lia. }
  exists syms, rest. split_and!; [done| |done].
  by apply (Read_decodes_all root data p syms rest).
Qed.

Lemma Read_decodes_the_padding_witness :
  let root := Node (Node nil_node nil_node 98 1) (Node nil_node nil_node 97 3) 0 4 in
  ∃ syms rest,
    decodes root (flat_map (byte_bits 8) (take (length [7; 7; 7]) [5] ++
                                          replicate (length [7; 7; 7] - length [5]) 0))
            syms rest ∧
    Read (NewReader (MemSource [5]) root) [7; 7; 7]
    = Some (MemSource (drop (length [7; 7; 7]) [5]), syms,
            (Z.of_nat (length [7; 7; 7]), None)) ∧
    length syms = length [7; 7; 7].
Proof.
  apply (Read_decodes_the_padding
           (Node (Node nil_node nil_node 98 1) (Node nil_node nil_node 97 3) 0 4)
           [5] [7; 7; 7]).
  - apply wf_inner; [by apply wf_leaf|by apply wf_leaf|reflexivity].
  - vm_compute. discriminate.
  - discriminate.
Defined.

(** ** [code.String] and [Distribution.String] *)

(** The loop of [code.String] appends the digit of each bit. *)
Lemma String_loop_digits n : ∀ p buf,
  String_loop n p buf = buf ++ map (fun b => 48 + b) (byte_bits n p).
Proof.
  induction n as [|n IH]; intros p buf.
  - simpl. by rewrite app_nil_r.
  - cbn [String_loop]. rewrite IH, byte_bits_S. cbn [map].
    rewrite <- app_assoc. cbn [app]. do 2 f_equal.
    pose proof (Z.mod_pos_bound p 2 ltac:(lia)). unfold byte.
    apply Z.mod_small. lia.
Qed.

(** X16: [code.String] prints the path of the code.  For the code of a
    symbol in the table of a tree of height at most 8 with distinct
    symbols, the string has one character per bit of the code, [len] in
    all, each ['0'] (48) or ['1'] (49), in the order in which [Write]
    emits the bits, and it is the path from the root to the leaf of the
    symbol, ['0'] for a step to the left and ['1'] for a step to the
    right. *)
Theorem code_String_prints_the_path (t : node) (v : Z) (c : code) :
  well_formed t → NoDup (leaves t).*1 → height t ≤ 8 →
  getMapping t !! v = Some c →
  code_String c = map (fun b => 48 + b) (code_bits c) ∧
  Z.of_nat (length (code_String c)) = len c ∧
  Forall (fun ch => ch = 48 ∨ ch = 49) (code_String c) ∧
  ∃ steps, (v, steps) ∈ codes_below t ∧
           code_String c = map (fun b => 48 + b) steps.
Proof.
  intros Ht Hnd Hh Hc.
  assert (Hs : code_String c = map (fun b => 48 + b) (code_bits c)).
  { unfold code_String. by rewrite String_loop_digits. }
  pose proof (getMapping_codes t v c Ht Hnd Hh Hc) as Hin.
  split_and!; [done| | |by exists (code_bits c)].
  - rewrite Hs, length_map. unfold code_bits. rewrite length_byte_bits.
    assert (Hv : v ∈ (codes_below t).*1)
      by (apply list_elem_of_fmap; by exists (v, code_bits c)).
    apply list_elem_of_fmap in Hv as ([v' steps] & -> & Hin').
    destruct (expandPaths_lengths t Ht 0 0 ∅ Hnd ltac:(lia)
                ltac:(change (2 ^ 32) with 4294967296; lia) v' steps Hin') as (p' & Hl).
    cbn [fst] in Hc. unfold getMapping in Hc. rewrite Hl in Hc.
    injection Hc as <-. cbn [len]. lia.
  - rewrite Hs, Forall_map. eapply Forall_impl; [apply byte_bits_range|].
    intros b Hb. cbn beta in *. lia.
Qed.

Lemma code_String_prints_the_path_witness :
  let t := Node (Node (Node nil_node nil_node 99 1) (Node nil_node nil_node 98 2) 0 3)
                (Node nil_node nil_node 97 4) 0 7 in
  let c := Code 2 2 in
  code_String c = map (fun b => 48 + b) (code_bits c) ∧
  Z.of_nat (length (code_String c)) = len c ∧
  Forall (fun ch => ch = 48 ∨ ch = 49) (code_String c) ∧
  ∃ steps, (98, steps) ∈ codes_below t ∧
           code_String c = map (fun b => 48 + b) steps.
Proof.
  apply (code_String_prints_the_path
           (Node (Node (Node nil_node nil_node 99 1) (Node nil_node nil_node 98 2) 0 3)
                 (Node nil_node nil_node 97 4) 0 7) 98 (Code 2 2)).
  - apply wf_inner; [|by apply wf_leaf|reflexivity].
    apply wf_inner; [by apply wf_leaf|by apply wf_leaf|reflexivity].
  - apply (bool_decide_unpack _). vm_compute. exact I.
  - vm_compute. discriminate.
  - vm_compute. reflexivity.
Defined.

(** X17: [Distribution.String].  On a distribution without counts the
    slice expression [buf[:len(buf)-2]] panics, and only then; with
    counts, the string is "dist[", the formatted entries in the order
    of visit with a comma and a space between them and none after the
    last, and "]". *)
Theorem Distribution_String_of_entries (entry : Z → Z → Z → list Z)
    (d : Distribution) (order : list (Z * Z)) :
  iteration_of (cnts d) order →
  (Distribution_String entry d order = None ↔ cnts d = ∅) ∧
  ∀ es e, order = es ++ [e] →
    Distribution_String entry d order
    = Some ([100; 105; 115; 116; 91]
            ++ (flat_map (fun e => entry (fst e) (snd e) (total d) ++ [44; 32]) es
                ++ entry (fst e) (snd e) (total d))
            ++ [93]).
Proof.
  intros Hv.
  assert (Hlast : ∀ es e, order = es ++ [e] →
            Distribution_String entry d order
            = Some ([100; 105; 115; 116; 91]
                    ++ (flat_map (fun e => entry (fst e) (snd e) (total d) ++ [44; 32]) es
                        ++ entry (fst e) (snd e) (total d))
                    ++ [93])).
  { intros es e ->. unfold Distribution_String. cbv zeta.
    rewrite flat_map_app. cbn [flat_map]. rewrite app_nil_r.
    set (front := flat_map _ es). set (x := entry _ _ _).
    rewrite !length_app. cbn [length].
    replace (length front + (length x + 2) <? 2)%nat with false
      by (symmetry; apply Nat.ltb_ge; lia).
    do 3 f_equal. rewrite app_assoc.
    replace (length front + (length x + 2) - 2)%nat with (length (front ++ x))
      by (rewrite length_app; lia).
    by rewrite take_app_length. }
  split; [|done]. split.
  - intros Hnone. destruct (decide (order = [])) as [Hnil|Hne].
    + unfold iteration_of in Hv. rewrite Hnil in Hv. symmetry in Hv.
      apply Permutation_nil_r in Hv. by apply map_to_list_empty_iff in Hv.
    + destruct (exists_last Hne) as (es & e & Heq).
      rewrite (Hlast es e Heq) in Hnone. discriminate Hnone.
  - intros Hempty. unfold iteration_of in Hv.
    rewrite Hempty, map_to_list_empty in Hv. apply Permutation_nil_r in Hv.
    by rewrite Hv.
Qed.

Lemma Distribution_String_of_entries_witness :
  let entry := fun val cnt total : Z => [val; 58; 48 + cnt] in
  let d := NewDistribution [97; 98; 97] in
  let order := map_to_list (cnts d) in
  (Distribution_String entry d order = None ↔ cnts d = ∅) ∧
  ∀ es e, order = es ++ [e] →
    Distribution_String entry d order
    = Some ([100; 105; 115; 116; 91]
            ++ (flat_map (fun e => entry (fst e) (snd e) (total d) ++ [44; 32]) es
                ++ entry (fst e) (snd e) (total d))
            ++ [93]).
Proof.
  apply (Distribution_String_of_entries (fun val cnt total : Z => [val; 58; 48 + cnt])
           (NewDistribution [97; 98; 97])
           (map_to_list (cnts (NewDistribution [97; 98; 97])))).
  unfold iteration_of. reflexivity.
Defined.

(** ** The stream of package [bits] writes to its own buffer only *)

Module BitsFrame.
Import Bits BitsFacts.

(** A call of the stream keeps the array of its buffer and writes to no
    other array. *)
Lemma call_frame s m answer s' m' :
  call s m = Some (answer, s', m') →
  sl_array (buf s') = sl_array (buf s) ∧
  ∀ a, a ≠ sl_array (buf s) → m' !! a = m !! a.
Proof.
  unfold call. destruct (sl_len (buf s) =? 0)%nat.
  { by intros [= <- <- <-]. }
  destruct (index m (buf s) 0) as [b|]; cbn [mbind option_bind]; [|done].
  destruct (assign m (buf s) 0 (b / 2)) as [m1|] eqn:Ha;
    cbn [mbind option_bind]; [|done].
  assert (Hm1 : ∀ a, a ≠ sl_array (buf s) → m1 !! a = m !! a).
  { intros a Hne. unfold assign in Ha.
    destruct (0 <? sl_len (buf s))%nat; [|done].
    destruct (m !! sl_array (buf s)) as [arr|]; cbn [mbind option_bind] in Ha; [|done].
    destruct (sl_off (buf s) + 0 <? length arr)%nat; [|done].
    injection Ha as <-. by rewrite lookup_insert_ne. }
  destruct (byte (left s - 1) =? 0); intros [= <- <- <-]; by split.
Qed.

(** [ToStream] allocates the array of its buffer and writes to no other. *)
Lemma ToStream_frame m input s m' :
  ToStream input m = Some (s, m') →
  (sl_array (buf s) ∉ dom m) ∧ (∀ a, a ≠ sl_array (buf s) → m' !! a = m !! a).
Proof.
  unfold ToStream, make.
  destruct (copy _ input _) as [m1|] eqn:Hc; cbn [mbind option_bind]; [|done].
  intros [= <- <-]. cbn [buf sl_array]. split; [apply is_fresh|].
  intros a Hne. unfold copy in Hc. cbn [sl_array sl_off sl_len] in Hc.
  destruct (contents _ input) as [data|]; cbn [mbind option_bind] in Hc; [|done].
  rewrite lookup_insert_eq in Hc. cbn [mbind option_bind] in Hc.
  case_match; [|done]. injection Hc as <-.
  by rewrite !lookup_insert_ne.
Qed.

Lemma after_calls_frame bs input n : ∀ k s m,
  stream_at bs input k s m →
  ∃ s' m', after_calls n s m = Some (s', m') ∧
           ∀ a, a ≠ sl_array (buf s) → m' !! a = m !! a.
Proof.
  induction n as [|n IH]; intros k s m Hat; [by eexists _, _|].
  cbn [after_calls].
  destruct (call_stream_at _ _ _ _ _ Hat) as (s1 & m1 & Hcall & Hat1).
  rewrite Hcall. cbn [mbind option_bind].
  destruct (call_frame _ _ _ _ _ Hcall) as [Harr Hm1].
  destruct (IH _ _ _ Hat1) as (s' & m' & -> & Hm').
  exists s', m'. split; [done|]. intros a Hne.
  rewrite Hm' by (by rewrite Harr). by apply Hm1.
Qed.

(** X18: the stream leaves the caller's memory alone.  On a slice that
    shows bytes of the memory [ToStream] succeeds, and after [ToStream]
    and any number of calls of the stream, none of which panics, every
    array that existed before holds what it held: the halving
    [buf[0] /= 2] and the reslicing happen in the copy, and the slice
    passed in still shows the same bytes. *)
Theorem ToStream_leaves_the_input_alone (m : memory) (input : slice) (bs : list Z) :
  contents m input = Some bs →
  ∃ s m', ToStream input m = Some (s, m') ∧
          ∀ n, ∃ s' m'', after_calls n s m' = Some (s', m'') ∧
                         (∀ a arr, m !! a = Some arr → m'' !! a = Some arr) ∧
                         contents m'' input = Some bs.
Proof.
  intros Hc. destruct (ToStream_start _ _ _ Hc) as (s & m' & Hts & Hat).
  exists s, m'. split; [done|]. intros n.
  destruct (ToStream_frame _ _ _ _ Hts) as [Hfresh Hm'].
  destruct (after_calls_frame bs input n _ _ _ Hat) as (s' & m'' & Hn & Hm'').
  exists s', m''. split; [done|].
  assert (Hold : ∀ a arr, m !! a = Some arr → m'' !! a = Some arr).
  { intros a arr Ha.
    assert (a ≠ sl_array (buf s)).
    { intros ->. apply Hfresh. apply elem_of_dom. by exists arr. }
    by rewrite Hm'', Hm'. }
  split; [done|].
  unfold contents in *. destruct (m !! sl_array input) as [arr|] eqn:Ha; [|done].
  by rewrite (Hold _ _ Ha).
Qed.

Lemma ToStream_leaves_the_input_alone_witness :
  ∃ s m', ToStream (Slice 0 1 2) {[ 0%nat := [9; 5; 3] ]} = Some (s, m') ∧
          ∀ n, ∃ s' m'', after_calls n s m' = Some (s', m'') ∧
                         (∀ a arr, ({[ 0%nat := [9; 5; 3] ]} : memory) !! a = Some arr →
                                   m'' !! a = Some arr) ∧
                         contents m'' (Slice 0 1 2) = Some [5; 3].
Proof.
  apply (ToStream_leaves_the_input_alone {[ 0%nat := [9; 5; 3] ]} (Slice 0 1 2) [5; 3]).
  vm_compute. reflexivity.
Defined.

End BitsFrame.

(** ** The bit order of [Write] and of the stream *)

Section BitOrder.

Local Ltac Zify.zify_post_hook ::= Z.to_euclidean_division_equations.

(** The value of the [n] lowest bits of [b]. *)
Lemma byte_of_byte_bits n : ∀ b, byte_of_bits (byte_bits n b) = b mod 2 ^ Z.of_nat n.
Proof.
  induction n as [|n IH]; intros b.
  - simpl. by rewrite Z.mod_1_r.
  - rewrite byte_bits_S. cbn [byte_of_bits]. rewrite IH.
    rewrite Nat2Z.inj_succ, Z.pow_succ_r by lia.
    rewrite Z.rem_mul_r by lia. done.
Qed.

Lemma pack_bytes_of_bytes bs :
  Forall (fun b => 0 ≤ b < 256) bs →
  pack_bytes (length bs) (flat_map (byte_bits 8) bs) = bs.
Proof.
  induction 1 as [|b bs Hb _ IH]; [done|].
  cbn [length pack_bytes flat_map].
  rewrite take_app_length' by (symmetry; apply length_byte_bits).
  rewrite drop_app_length' by (symmetry; apply length_byte_bits).
  rewrite IH, byte_of_byte_bits. f_equal. apply Z.mod_small.
  change (2 ^ Z.of_nat 8) with 256. lia.
Qed.

(** The packing loop run on a list of bits. *)
Lemma foldl_put_bit_packed more : ∀ bits st,
  packed bits st → Forall (fun b => 0 ≤ b ≤ 1) more →
  packed (bits ++ more) (foldl put_bit st more).
Proof.
  induction more as [|b more IH]; intros bits st Hst Hmore.
  - by rewrite app_nil_r.
  - apply Forall_cons in Hmore as [Hb Hmore]. cbn [foldl].
    destruct (put_bit_packed bits st b Hst) as [Hst' _].
    rewrite Z.mod_small in Hst' by lia.
    rewrite (cons_middle b bits more), app_assoc. by apply IH.
Qed.

(** The first bits a stream hands out, without the errors. *)
Lemma answers_bits (l : list Z) :
  map (fun k => fst (match l !! k with
                     | Some bit => (bit, None)
                     | None => (0, Some EOF)
                     end)) (seq 0 (length l)) = l.
Proof.
  apply list_eq. intros k. rewrite list_lookup_fmap.
  destruct (decide (k < length l)%nat) as [Hk|Hk].
  - rewrite lookup_seq_lt by done. cbn [fmap option_fmap option_map Nat.add].
    destruct (lookup_lt_is_Some_2 l k Hk) as [x Hx]. by rewrite Hx.
  - rewrite lookup_seq_ge by lia. symmetry. apply lookup_ge_None_2. lia.
Qed.

(** X19: the packing loop of [Write] and the stream of [toBitStream]
    use the same bit order.  The first [8 * len(bs)] answers of a stream
    over the bytes [bs] are bits, without error, and running the bit
    loop of [Write] on them from its initial state seals exactly the
    bytes [bs], leaving no bit in the byte being filled. *)
Theorem packing_rebuilds_the_streamed_bytes (bs : list Z) :
  Forall (fun b => 0 ≤ b < 256) bs →
  let answered := answers (8 * length bs) (toBitStream bs) in
  Forall (fun a => snd a = None ∧ 0 ≤ fst a ≤ 1) answered ∧
  let st := foldl put_bit (Packer [] 0 8 false) (map fst answered) in
  encoded st = bs ∧ curr st = 0 ∧ left st = 8.
Proof.
  intros Hbs. cbv zeta.
  assert (Hlen : ∀ l : list Z, length (flat_map (byte_bits 8) l) = (8 * length l)%nat).
  { induction l as [|x l IHl]; [done|].
    cbn [flat_map]. rewrite length_app, length_byte_bits, IHl. simpl. lia. }
  assert (Hrange : Forall (fun b => 0 ≤ b ≤ 1) (flat_map (byte_bits 8) bs)).
  { clear. induction bs as [|x l IHl]; [done|].
    cbn [flat_map]. apply Forall_app. split; [apply byte_bits_range|done]. }
  rewrite answers_stream_bits by (unfold stream_ok, toBitStream; simpl; lia).
  rewrite stream_bits_toBitStream, <- Hlen.
  set (bits := flat_map (byte_bits 8) bs) in *.
  split.
  - rewrite Forall_map. apply Forall_forall. intros k Hk%elem_of_seq.
    destruct (lookup_lt_is_Some_2 bits k ltac:(lia)) as [x Hx]. rewrite Hx.
    cbn [fst snd]. split; [done|]. rewrite Forall_forall in Hrange.
    apply Hrange. by apply list_elem_of_lookup_2 in Hx.
  - rewrite map_map, answers_bits.
    assert (Hinit : packed [] (Packer [] 0 8 false)) by (unfold packed; by split_and!).
    destruct (foldl_put_bit_packed bits [] _ Hinit Hrange) as (_ & Henc & Hcurr & Hleft).
    cbn [app] in *. rewrite Henc, Hcurr, Hleft.
    unfold bits at 1 3 5. rewrite !Hlen.
    replace (8 * length bs / 8)%nat with (length bs) by lia.
    replace ((8 * length bs) `mod` 8)%nat with 0%nat by lia.
    split_and!; [by apply pack_bytes_of_bytes| |done].
    rewrite drop_ge by (unfold bits; rewrite Hlen; lia). done.
Qed.

Lemma packing_rebuilds_the_streamed_bytes_witness :
  let bs := [5; 200; 0] in
  let answered := answers (8 * length bs) (toBitStream bs) in
  Forall (fun a => snd a = None ∧ 0 ≤ fst a ≤ 1) answered ∧
  let st := foldl put_bit (Packer [] 0 8 false) (map fst answered) in
  encoded st = bs ∧ curr st = 0 ∧ left st = 8.
Proof.
  apply (packing_rebuilds_the_streamed_bytes [5; 200; 0]).
  repeat constructor; lia.
Defined.

End BitOrder.

(** ** What [Write] emits, against the packing and against the counts *)

Section Sizes.

Local Ltac Zify.zify_post_hook ::= Z.to_euclidean_division_equations.

(** The sum of a function over a sample is the sum over its counts of
    count times value. *)
Lemma weighted_length_sample bs (f : Z → Z) :
  Z.of_nat (length bs) < 2 ^ 64 →
  weighted_length (map_to_list (cnts (NewDistribution bs))) f = sumZ (map f bs).
Proof.
  induction bs as [|b bs IH] using rev_ind; [done|].
  rewrite length_app. cbn [length]. intros Hlen.
  rewrite NewDistribution_snoc. cbv zeta. cbn [cnts].
  rewrite map_app, sumZ_app. cbn [map]. unfold sumZ at 2. cbn [foldr].
  specialize (IH ltac:(lia)). rewrite <- IH.
  pose proof (cnt_of_occurrences bs b ltac:(lia)) as Hocc.
  pose proof (occurrences_range b bs) as Hr.
  set (m := cnts (NewDistribution bs)) in *.
  assert (Hu : uint64 (cnt_of m b + 1) = cnt_of m b + 1).
  { unfold uint64. apply Z.mod_small. lia. }
  rewrite Hu. unfold cnt_of. destruct (m !! b) as [c|] eqn:Hb; cbn [default from_option].
  - unfold id. rewrite <- insert_delete_eq.
    rewrite (weighted_length_perm _ _ f
               (map_to_list_insert (delete b m) b _ (lookup_delete_eq m b))).
    rewrite <- (weighted_length_perm _ _ f (map_to_list_delete m b c Hb)).
    unfold weighted_length, sumZ. cbn [map foldr fst snd]. lia.
  - rewrite (weighted_length_perm _ _ f (map_to_list_insert m b _ Hb)).
    unfold weighted_length, sumZ. cbn [map foldr fst snd]. lia.
Qed.

(** The number of code bits of a message of known symbols. *)
Lemma length_message_bits m p :
  (∀ v c, m !! v = Some c → 0 ≤ len c) → Forall (known m) p →
  Z.of_nat (length (message_bits m p)) = sumZ (map (len_of m) p).
Proof.
  intros Hlen. induction 1 as [|val p [c Hc] _ IH]; [done|].
  unfold message_bits in *. cbn [flat_map map]. rewrite length_app, Nat2Z.inj_add, IH.
  unfold sumZ. cbn [foldr]. f_equal. unfold len_of. rewrite Hc. cbn [from_option].
  unfold code_bits. rewrite length_byte_bits. specialize (Hlen _ _ Hc). lia.
Qed.

(** The bits of the last code are among the bits of the message. *)
Lemma last_code_length_le m p :
  (last_code_length m p ≤ length (message_bits m p))%nat.
Proof.
  induction p as [|val p IH]; [done|].
  destruct (decide (p = [])) as [->|Hp].
  - unfold last_code_length, message_bits. cbn [last from_option flat_map].
    rewrite app_nil_r. lia.
  - rewrite last_code_length_cons by done. unfold message_bits in *.
    cbn [flat_map]. rewrite length_app. lia.
Qed.

(** X20: the bytes of [Write] against the packing of the code bits.
    For a non-empty input of known symbols, [Write] hands to the sink
    the code bits packed eight to a byte, lowest bit first, zeros after
    the last bit, except in two cases: when the last symbol seals a
    byte and has bits left over, the last byte of the packing is
    missing; when the code bits fill whole bytes and the last symbol
    sealed none of them (its code has no bit), one zero byte follows
    the packing. *)
Theorem Write_against_the_packing (m : gmap Z code) (p : list Z) :
  Forall (known m) p → p ≠ [] →
  let bits := message_bits m p in
  let N := length bits in
  let sealed := ((N - last_code_length m p) / 8 < N / 8)%nat in
  ∃ enc, encode m p = inr enc ∧
         (sealed → (N mod 8 ≠ 0)%nat →
          spec_pack bits = enc ++ [byte_of_bits (drop (8 * (N / 8)) bits)]) ∧
         (¬ sealed → (N mod 8 = 0)%nat →
          enc = spec_pack bits ++ [0] ∧ last_code_length m p = 0%nat) ∧
         ((sealed ↔ (N mod 8 = 0)%nat) → enc = spec_pack bits).
Proof.
  intros Hknown Hne. cbv zeta. rewrite encode_packs by done. cbv zeta.
  set (bits := message_bits m p). set (N := length bits).
  set (lcl := last_code_length m p).
  eexists. split; [reflexivity|]. split_and!.
  - intros Hs Hm. rewrite bool_decide_true by done.
    rewrite app_nil_r. by apply spec_pack_partial.
  - intros Hs Hm. rewrite bool_decide_false by done.
    rewrite spec_pack_full by done.
    pose proof (last_code_length_le m p) as Hle. fold bits N lcl in Hle.
    split; [|lia].
    do 2 f_equal. rewrite drop_ge by (fold N; lia). done.
  - intros Hiff. destruct (decide (N mod 8 = 0)%nat) as [H0|H0].
    + rewrite bool_decide_true by (by apply Hiff).
      by rewrite app_nil_r, spec_pack_full.
    + rewrite bool_decide_false by (by rewrite Hiff).
      by rewrite spec_pack_partial.
Qed.

Lemma Write_against_the_packing_witness :
  let m := getMapping (Node (Node nil_node nil_node 98 1)
                            (Node nil_node nil_node 97 3) 0 4) in
  let p := [97; 97; 97; 98] in
  let bits := message_bits m p in
  let N := length bits in
  let sealed := ((N - last_code_length m p) / 8 < N / 8)%nat in
  ∃ enc, encode m p = inr enc ∧
         (sealed → (N mod 8 ≠ 0)%nat →
          spec_pack bits = enc ++ [byte_of_bits (drop (8 * (N / 8)) bits)]) ∧
         (¬ sealed → (N mod 8 = 0)%nat →
          enc = spec_pack bits ++ [0] ∧ last_code_length m p = 0%nat) ∧
         ((sealed ↔ (N mod 8 = 0)%nat) → enc = spec_pack bits).
Proof.
  apply (Write_against_the_packing
           (getMapping (Node (Node nil_node nil_node 98 1)
                             (Node nil_node nil_node 97 3) 0 4))
           [97; 97; 97; 98]).
  - repeat constructor; eexists; vm_compute; reflexivity.
  - discriminate.
Defined.

(** X21: the size of the sample encoded with its own code.  For a
    sample of bytes shorter than 2^64, [Write] of the writer built from
    the sample accepts the sample itself; the code bits of the sample
    number the sum over the symbols of count times code length, and
    [Write] emits that number of bits divided by eight, rounded down,
    or one byte more. *)
Theorem sample_encoded_with_its_own_code (bs : list Z) (order : list (Z * Z)) :
  Forall (fun b => 0 ≤ b < 256) bs → Z.of_nat (length bs) < 2 ^ 64 →
  visits bs order → bs ≠ [] →
  ∃ w enc, NewWriter (MemSink []) order = Some w ∧
           Write w bs = (MemSink enc, (Z.of_nat (length enc), None)) ∧
           let W := weighted_length order (len_of (w_mapping w)) in
           Z.of_nat (length (message_bits (w_mapping w) bs)) = W ∧
           W / 8 ≤ Z.of_nat (length enc) ≤ W / 8 + 1.
Proof.
  intros Hbytes Hlen Hv Hne.
  assert (Hone : order ≠ []).
  { intros ->. destruct bs as [|x bs]; [done|].
    destruct (NewDistribution_dom (x :: bs) x ltac:(by left)) as [c Hc].
    apply elem_of_map_to_list in Hc. unfold visits, iteration_of in Hv.
    rewrite <- Hv in Hc. by apply elem_of_nil in Hc. }
  destruct (tree_of_bytes bs order Hbytes Hlen Hv Hone)
    as (t & Hb & Ht & Hleaves & Hnd & Hh & _ & _ & _).
  unfold NewWriter. rewrite Hb. cbn [mbind option_bind].
  set (m := getMapping t).
  assert (Hknown : Forall (known m) bs).
  { apply Forall_forall. intros v Hin. unfold known, m, getMapping.
    apply expandPaths_dom. right. rewrite Hleaves.
    by apply (visits_symbols bs order v Hv). }
  assert (Hpos : ∀ v c, m !! v = Some c → 0 ≤ len c).
  { intros v c Hc.
    assert (Hin : v ∈ (codes_below t).*1).
    { rewrite codes_below_symbols.
      assert (Hs : is_Some (expandPaths 0 0 t ∅ !! v)) by (by exists c).
      apply expandPaths_dom in Hs as [[c' Hc']|Hs]; [|done].
      by apply lookup_empty_Some in Hc'. }
    apply list_elem_of_fmap in Hin as ([v' steps] & -> & Hin).
    destruct (expandPaths_lengths t Ht 0 0 ∅ Hnd ltac:(lia)
                ltac:(change (2 ^ 32) with 4294967296; lia) v' steps Hin) as (p' & Hl).
    cbn [fst] in Hc. unfold m, getMapping in Hc. rewrite Hl in Hc.
    injection Hc as <-. cbn [len]. lia. }
  pose proof (encode_packs m bs Hknown Hne) as Henc. cbv zeta in Henc.
  eexists _, _. split; [reflexivity|]. unfold Write. cbn [w_mapping w_sink]. fold m.
  rewrite Henc. unfold io_write, memSink_Writer. cbn [written app].
  split; [reflexivity|]. cbv zeta.
  assert (HW : Z.of_nat (length (message_bits m bs))
               = weighted_length order (len_of m)).
  { rewrite (length_message_bits m bs Hpos Hknown).
    unfold visits, iteration_of in Hv.
    rewrite (weighted_length_perm _ _ _ Hv). symmetry.
    by apply weighted_length_sample. }
  split; [done|]. rewrite <- HW.
  set (N := length (message_bits m bs)).
  rewrite length_app, length_pack_bytes.
  destruct (bool_decide _); cbn [length]; lia.
Qed.

Lemma sample_encoded_with_its_own_code_witness :
  let bs := sample_abc in
  ∃ w enc, NewWriter (MemSink []) (map_to_list (cnts (NewDistribution bs))) = Some w ∧
           Write w bs = (MemSink enc, (Z.of_nat (length enc), None)) ∧
           let W := weighted_length (map_to_list (cnts (NewDistribution bs)))
                      (len_of (w_mapping w)) in
           Z.of_nat (length (message_bits (w_mapping w) bs)) = W ∧
           W / 8 ≤ Z.of_nat (length enc) ≤ W / 8 + 1.
Proof.
  apply (sample_encoded_with_its_own_code sample_abc
           (map_to_list (cnts (NewDistribution sample_abc)))).
  - unfold sample_abc. repeat constructor; lia.
  - vm_compute. reflexivity.
  - apply visits_map_to_list.
  - done.
Defined.

End Sizes.

(** ** The shape of the tree: lighter children left, no empty code *)

(** The loop of [buildTree] hangs the first node popped on the left of
    the second one, which is no lighter. *)
Lemma buildTree_loop_lighter fuel : ∀ h,
  heap_ok h → Forall (fun t => is_nil t = false ∧ lighter_left t) h →
  h ≠ [] → (length h ≤ S fuel)%nat →
  ∃ t, buildTree_loop fuel h = Some [t] ∧ is_nil t = false ∧ lighter_left t.
Proof.
  induction fuel as [|fuel IH]; intros h Hok Hall Hne Hlen.
  - destruct h as [|t [|]]; [done| |simpl in Hlen; lia].
    apply Forall_cons in Hall as [[Ht Hl] _]. by exists t.
  - cbn [buildTree_loop]. destruct (2 <=? length h)%nat eqn:H2.
    + apply Nat.leb_le in H2.
      destruct (Pop_spec h Hok Hne) as (l & h1 & -> & Hp1 & Hok1 & Hmin1).
      cbn [mbind option_bind].
      assert (Hne1 : h1 ≠ []).
      { intros ->. apply Permutation_length in Hp1. simpl in Hp1. lia. }
      destruct (Pop_spec h1 Hok1 Hne1) as (r & h2 & -> & Hp2 & Hok2 & Hmin2).
      cbn [mbind option_bind].
      assert (Hp : h ≡ₚ l :: r :: h2) by (by rewrite Hp1, Hp2).
      rewrite Hp in Hall. apply Forall_cons in Hall as [[Hl Hll] Hall].
      apply Forall_cons in Hall as [[Hr Hlr] Hall].
      assert (Hle : cnt l ≤ cnt r).
      { rewrite Hp2 in Hmin1. by apply Forall_cons in Hmin1 as [? _]. }
      set (next := Node l r 0 (uint64 (cnt r + cnt l))).
      pose proof (Push_perm h2 next) as Hp3.
      apply (IH (Heap.Push h2 next)).
      * by apply Push_heap_ok.
      * rewrite Hp3. constructor; [|done]. split; [done|].
        unfold next. cbn [lighter_left]. rewrite Hl. cbn [andb]. done.
      * intros Heq. rewrite Heq in Hp3. by apply Permutation_nil_cons in Hp3.
      * rewrite (Permutation_length Hp3). apply Permutation_length in Hp.
        simpl in *. lia.
    + apply Nat.leb_gt in H2. destruct h as [|t [|]]; [done| |simpl in H2; lia].
      apply Forall_cons in Hall as [[Ht Hl] _]. by exists t.
Qed.

(** X24: the lighter child is on the left.  Whatever the counts and the
    order of visit, in the tree [buildTree] returns the count of the
    left child of every inner node is at most the count of its right
    child: the first node popped, of least count, becomes [next.l], and
    the bit 0 leads to it. *)
Theorem buildTree_puts_the_lighter_child_left (order : list (Z * Z)) :
  ∃ root, buildTree (toHeap order) = Some root ∧ lighter_left root ∧
          (is_nil root = true ↔ order = []).
Proof.
  destruct order as [|e order].
  { exists nil_node. by split_and!. }
  rewrite toHeap_leaves. set (h := Heap.Init (map leaf_of (e :: order))).
  pose proof (Init_perm (map leaf_of (e :: order))) as Hp. fold h in Hp.
  assert (Hhne : h ≠ []).
  { intros Hh. rewrite Hh in Hp. by apply Permutation_nil_cons in Hp. }
  destruct (buildTree_loop_lighter (length h) h) as (t & Hloop & Ht & Hl).
  - apply Init_heap_ok.
  - rewrite Hp. rewrite Forall_map. by apply Forall_true.
  - done.
  - lia.
  - exists t. split_and!; [|done|].
    + unfold buildTree.
      replace (1 <=? length h)%nat with true
        by (symmetry; apply Nat.leb_le; destruct h; [done|simpl; lia]).
      rewrite Hloop. reflexivity.
    + rewrite Ht. split; intros; done.
Qed.

(** X25: a code without bits belongs to a sample of one symbol.  For a
    non-empty sample of bytes shorter than 2^64, in every order of
    visit: when the sample has one distinct symbol its code has length
    0, and when it has two or more every symbol of the sample has a
    code of at least one bit. *)
Theorem empty_code_only_for_one_symbol (bs : list Z) (order : list (Z * Z)) :
  Forall (fun b => 0 ≤ b < 256) bs → Z.of_nat (length bs) < 2 ^ 64 →
  visits bs order → bs ≠ [] →
  ∃ root, buildTree (toHeap order) = Some root ∧
          (length order = 1%nat → ∀ v, v ∈ bs → len_of (getMapping root) v = 0) ∧
          ((2 ≤ length order)%nat → ∀ v, v ∈ bs → 1 ≤ len_of (getMapping root) v).
Proof.
  intros Hbytes Hlen Hv Hne.
  assert (Hone : order ≠ []).
  { intros ->. destruct bs as [|x bs]; [done|].
    destruct (NewDistribution_dom (x :: bs) x ltac:(by left)) as [c Hc].
    apply elem_of_map_to_list in Hc. unfold visits, iteration_of in Hv.
    rewrite <- Hv in Hc. by apply elem_of_nil in Hc. }
  destruct (tree_of_bytes bs order Hbytes Hlen Hv Hone)
    as (t & Hb & Ht & Hleaves & Hnd & Hh & _ & _ & _).
  exists t. split; [done|].
  assert (Hcode : ∀ v, v ∈ bs →
            ∃ steps, (v, steps) ∈ codes_below t ∧
                     len_of (getMapping t) v = Z.of_nat (length steps)).
  { intros v Hin.
    assert (Hs : v ∈ (codes_below t).*1).
    { rewrite codes_below_symbols, Hleaves. by apply (visits_symbols bs order v Hv). }
    apply list_elem_of_fmap in Hs as ([v' steps] & -> & Hs). cbn [fst].
    exists steps. split; [done|].
    destruct (expandPaths_lengths t Ht 0 0 ∅ Hnd ltac:(lia)
                ltac:(change (2 ^ 32) with 4294967296; lia) v' steps Hs) as (p' & Hl).
    unfold len_of, getMapping. rewrite Hl. cbn [from_option len]. lia. }
  pose proof (Permutation_length Hleaves) as Hnum.
  destruct Ht as [val c Hc|l r val c Hl Hr Hsum].
  - split; [|simpl in Hnum; lia].
    intros _ v Hin. destruct (Hcode v Hin) as (steps & Hs & ->).
    simpl in Hs. by apply list_elem_of_singleton in Hs as [= -> ->].
  - rewrite leaves_inner, length_app in Hnum by done.
    pose proof (leaves_nonempty l Hl). pose proof (leaves_nonempty r Hr).
    split; [lia|]. intros _ v Hin. destruct (Hcode v Hin) as (steps & Hs & ->).
    cbn [codes_below] in Hs. rewrite (well_formed_not_nil l Hl) in Hs.
    cbn [andb] in Hs.
    apply elem_of_app in Hs as [Hs|Hs];
      apply list_elem_of_fmap in Hs as ([v' steps'] & [= -> ->] & _);
      simpl length; lia.
Qed.

Lemma empty_code_only_for_one_symbol_witness :
  let bs := sample_abc in
  let order := map_to_list (cnts (NewDistribution bs)) in
  ∃ root, buildTree (toHeap order) = Some root ∧
          (length order = 1%nat → ∀ v, v ∈ bs → len_of (getMapping root) v = 0) ∧
          ((2 ≤ length order)%nat → ∀ v, v ∈ bs → 1 ≤ len_of (getMapping root) v).
Proof.
  apply (empty_code_only_for_one_symbol sample_abc
           (map_to_list (cnts (NewDistribution sample_abc)))).
  - unfold sample_abc. repeat constructor; lia.
  - vm_compute. reflexivity.
  - apply visits_map_to_list.
  - done.
Defined.

(** ** Optimality of the code table *)

(** The steps of the paths of a tree are 0 and 1. *)
Lemma codes_below_steps t : ∀ v p,
  (v, p) ∈ codes_below t → Forall (fun b => b = 0 ∨ b = 1) p.
Proof.
  induction t as [|l IHl r IHr val c]; intros v p Hin.
  - by apply elem_of_nil in Hin.
  - cbn [codes_below] in Hin. destruct (is_nil l && is_nil r).
    + by apply list_elem_of_singleton in Hin as [= -> ->].
    + apply elem_of_app in Hin as [Hin|Hin];
        apply list_elem_of_fmap in Hin as ([v' p'] & [= -> ->] & Hin);
        cbn [snd]; constructor; eauto.
Qed.

(** The paths to two leaves with distinct symbols: neither starts the other. *)
Lemma codes_below_prefix_free t a pa b pb :
  well_formed t → (a, pa) ∈ codes_below t → (b, pb) ∈ codes_below t →
  a ≠ b → ¬ pa `prefix_of` pb.
Proof.
  intros Ht Ha Hb Hne [k Hk].
  pose proof (walk_codes_below t Ht _ _ k Ha) as Hwa.
  pose proof (walk_codes_below t Ht _ _ [] Hb) as Hwb.
  rewrite app_nil_r, Hk, Hwa in Hwb. by injection Hwb.
Qed.

(** Steps as booleans: the conversion loses nothing. *)
Lemma steps_prefix (pa pb : list Z) :
  Forall (fun b => b = 0 ∨ b = 1) pa → Forall (fun b => b = 0 ∨ b = 1) pb →
  map (fun b => negb (b =? 0)) pa `prefix_of` map (fun b => negb (b =? 0)) pb →
  pa `prefix_of` pb.
Proof.
  intros Ha. revert pb. induction Ha as [|x pa Hx _ IH]; intros pb Hb Hpre.
  - apply prefix_nil.
  - destruct Hb as [|y pb Hy Hb].
    + destruct Hpre as [k Hk]. discriminate Hk.
    + cbn [map] in Hpre.
      destruct Hpre as [k Hk]. injection Hk as Hxy Hk.
      assert (x = y) as ->.
      { destruct Hx as [-> | ->], Hy as [-> | ->]; done. }
      apply prefix_cons. apply IH; [done|]. by exists k.
Qed.

(** With distinct symbols at the leaves, [path_to] finds the path of a leaf. *)
Lemma path_to_leaf t s p :
  NoDup (leaves t).*1 → (s, p) ∈ codes_below t →
  path_to t s = map (fun b => negb (b =? 0)) p.
Proof.
  intros Hnd Hin. rewrite <- codes_below_symbols in Hnd. unfold path_to.
  destruct (list_find_elem_of (fun e => fst e = s) (codes_below t) (s, p) Hin eq_refl)
    as [[i [s' p']] Hfind].
  rewrite Hfind. cbn [fmap option_fmap option_map snd from_option].
  apply list_find_Some in Hfind as (Hi & Hs & _). cbn [fst] in Hs. subst s'.
  apply list_elem_of_lookup in Hin as [j Hj].
  assert (i = j) as ->.
  { apply (NoDup_lookup _ _ _ s Hnd); rewrite list_lookup_fmap.
    - by rewrite Hi.
    - by rewrite Hj. }
  rewrite Hi in Hj. by injection Hj as ->.
Qed.

(** C9: for every sample of bytes, the code table built from its counts
    is a prefix code of least weighted length.  The table has an entry
    exactly for the symbols of the sample; the [len] of the entry of a
    symbol is the length of the path from the root of the tree to the
    leaf of the symbol, and the path of a symbol never starts the path
    of another one, so that the lengths are those of a prefix-free code
    and satisfy Kraft's inequality; and the sum over the symbols of the
    sample of count times code length is at most the same sum for any
    binary code assignment [other] in which no code of a symbol starts
    the code of another symbol; so is the sum of probability times code
    length, the probability of a symbol being its count over the total. *)
Theorem huffman_code_is_optimal (bs : list Z) (order : list (Z * Z))
    (other : Z → list bool) :
  Forall (fun b => 0 ≤ b < 256) bs → Z.of_nat (length bs) < 2 ^ 64 →
  visits bs order →
  (∀ a b, a ∈ bs → b ∈ bs → a ≠ b → ¬ other a `prefix_of` other b) →
  ∃ root, buildTree (toHeap order) = Some root ∧
          (∀ s, is_Some (getMapping root !! s) ↔ s ∈ bs) ∧
          (∀ s, s ∈ bs →
             ∃ c, getMapping root !! s = Some c ∧
                  len c = Z.of_nat (length (path_to root s))) ∧
          (∀ a b, a ∈ bs → b ∈ bs → a ≠ b →
             ¬ path_to root a `prefix_of` path_to root b) ∧
          kraft (map (fun e => Z.to_nat (len_of (getMapping root) (fst e))) order) ∧
          weighted_length order (len_of (getMapping root))
          ≤ weighted_length order (fun s => Z.of_nat (length (other s))) ∧
          (average_length (NewDistribution bs) order.*1 (len_of (getMapping root))
           <= average_length (NewDistribution bs) order.*1
                (fun s => Z.of_nat (length (other s))))%Q.
Proof.
  intros Hbytes Hlen Hv Hother.
  destruct (visits_entries _ _ Hv) as (Hnd & Hent & Hsum).
  assert (Hq : ∀ f g, weighted_length order f ≤ weighted_length order g →
               (average_length (NewDistribution bs) order.*1 f
                <= average_length (NewDistribution bs) order.*1 g)%Q).
  { intros f g Hfg. rewrite !average_length_weighted by (by apply visits_counts).
    unfold Qle. simpl. by apply Z.mul_le_mono_nonneg_r. }
  destruct (decide (order = [])) as [->|Hne].
  { assert (Hbs : ∀ s, s ∉ bs).
    { intros s Hin. apply (visits_symbols bs [] s Hv) in Hin.
      by apply elem_of_nil in Hin. }
    exists nil_node. split_and!; [reflexivity| | | | |reflexivity|apply Qle_refl].
    - intros s. split; [by intros [c Hc]|]. intros Hin. by apply Hbs in Hin.
    - intros s Hin. by apply Hbs in Hin.
    - intros a b Hin. by apply Hbs in Hin.
    - exists 0%nat. split; [constructor|]. unfold ksum, sumZ. simpl. lia. }
  destruct (tree_of_bytes bs order Hbytes Hlen Hv Hne)
    as (t & Hb & Ht & Hleaves & Hndt & Hh & Hn & _ & Hopt).
  assert (Hsym : ∀ s, s ∈ bs ↔ s ∈ (codes_below t).*1).
  { intros s. rewrite codes_below_symbols, Hleaves.
    symmetry. by apply visits_symbols. }
  assert (Hentry : ∀ s p, (s, p) ∈ codes_below t →
            ∃ c, getMapping t !! s = Some c ∧ len c = Z.of_nat (length p) ∧
                 path_to t s = map (fun b => negb (b =? 0)) p).
  { intros s p Hin.
    destruct (expandPaths_lengths t Ht 0 0 ∅ Hndt ltac:(lia)
                ltac:(change (2 ^ 32) with 4294967296; lia) s p Hin) as (p' & Hl).
    eexists. split; [exact Hl|]. cbn [len]. split; [lia|].
    by apply path_to_leaf. }
  assert (Hw : weighted_length order (len_of (getMapping t))
               ≤ weighted_length order (fun s => Z.of_nat (length (other s)))).
  { rewrite <- (weighted_length_perm _ _ _ Hleaves). unfold getMapping.
    rewrite expandPaths_cost; [|done|done|done|lia].
    etrans; [apply (Hopt (map (fun e => (leaf_of e, length (other (fst e)))) order))|].
    + by rewrite map_map.
    + rewrite map_map. cbn [snd].
      change (map (fun e : Z * Z => length (other (fst e))) order)
        with (map (fun e => (length ∘ other) (fst e)) order).
      rewrite <- (map_map fst (length ∘ other)), <- (map_map other length).
      apply prefix_free_kraft, prefix_free_assignment; [done|].
      intros a b Ha Hb'. apply Hother.
      * apply list_elem_of_fmap in Ha as (e & -> & He).
        rewrite Forall_forall in Hent. by apply Hent.
      * apply list_elem_of_fmap in Hb' as (e & -> & He).
        rewrite Forall_forall in Hent. by apply Hent.
    + by rewrite (fcost_leaves order (fun s => length (other s))). }
  exists t. split; [done|]. split_and!; [| | | |exact Hw|by apply Hq].
  - intros s. rewrite Hsym, codes_below_symbols. unfold getMapping.
    rewrite expandPaths_dom. split; [|by right].
    intros [[c Hc]|Hin]; [|done]. by apply lookup_empty_Some in Hc.
  - intros s Hin. apply Hsym in Hin.
    apply list_elem_of_fmap in Hin as ([s' p] & -> & Hin). cbn [fst].
    destruct (Hentry _ _ Hin) as (c & Hc & Hlc & Hpath).
    exists c. split; [done|]. by rewrite Hpath, length_map.
  - intros a b Ha Hb' Hab Hpre.
    apply Hsym in Ha. apply list_elem_of_fmap in Ha as ([a' pa] & -> & Ha).
    apply Hsym in Hb'. apply list_elem_of_fmap in Hb' as ([b' pb] & -> & Hb').
    cbn [fst] in *.
    destruct (Hentry _ _ Ha) as (_ & _ & _ & Hpa).
    destruct (Hentry _ _ Hb') as (_ & _ & _ & Hpb).
    rewrite Hpa, Hpb in Hpre.
    apply steps_prefix in Hpre; [|by eapply codes_below_steps..].
    by apply (codes_below_prefix_free t a' pa b' pb Ht).
  - pose proof (lengths_along_leaves t Ht Hndt ltac:(change (2 ^ 32) with 4294967296; lia))
      as Hmap.
    apply (kraft_perm (map (fun e => length (snd e)) (codes_below t))).
    + rewrite <- Hmap, <- Hleaves.
      unfold fmap, list_fmap. fold (@map (Z * Z) Z fst). by rewrite map_map.
    + exists (Z.to_nat (height t)). pose proof (height_nonneg t). split.
      * rewrite Forall_map. apply Forall_forall. intros [v p] Hin. cbn [snd].
        apply codes_below_length in Hin. lia.
      * rewrite ksum_codes_below by (done || lia). lia.
Qed.

Lemma huffman_code_is_optimal_witness :
  ∃ root, buildTree (toHeap order_abc) = Some root ∧
          (∀ s, is_Some (getMapping root !! s) ↔ s ∈ sample_abc) ∧
          (∀ s, s ∈ sample_abc →
             ∃ c, getMapping root !! s = Some c ∧
                  len c = Z.of_nat (length (path_to root s))) ∧
          (∀ a b, a ∈ sample_abc → b ∈ sample_abc → a ≠ b →
             ¬ path_to root a `prefix_of` path_to root b) ∧
          kraft (map (fun e => Z.to_nat (len_of (getMapping root) (fst e)))
                     order_abc) ∧
          weighted_length order_abc (len_of (getMapping root))
          ≤ weighted_length order_abc (fun s => Z.of_nat (length (other_abc s))) ∧
          (average_length (NewDistribution sample_abc) order_abc.*1
             (len_of (getMapping root))
           <= average_length (NewDistribution sample_abc) order_abc.*1
                (fun s => Z.of_nat (length (other_abc s))))%Q.
Proof.
  apply (huffman_code_is_optimal sample_abc order_abc other_abc).
  - unfold sample_abc. repeat constructor; lia.
  - vm_compute. reflexivity.
  - unfold visits, iteration_of. vm_compute.
    exact (Permutation_app_comm [(97, 4); (98, 2)] [(99, 1)]).
  - intros a b Ha Hb Hne [k Hk]. unfold sample_abc in Ha, Hb.
    repeat (apply elem_of_cons in Ha as [->|Ha]);
      try (by apply elem_of_nil in Ha);
      repeat (apply elem_of_cons in Hb as [->|Hb]);
      try (by apply elem_of_nil in Hb);
      try done; vm_compute in Hk; discriminate Hk.
Defined.
